(** * Cave generation (agent_docs/level-creation/cave_generation.py)

    A shallow embedding of the cave generator and the proofs of its
    specification.

    Modelling conventions.
    - A numpy 2-D integer array is a list of rows, [list (list Z)]; a cell
      holds the integer the source stores ([WALL = 1], [FLOOR = 0]).
    - Python exceptions are [None] in the [option] monad: an index outside
      an array (IndexError) or a negative dimension passed to [np.zeros]
      (ValueError).  numpy's wrap-around of negative indices is written out
      in [np_index].
    - [random.random()] is a stream [nat -> Q] of draws; the pipeline state
      carries the number of draws consumed so far.  Floats compared with [<]
      are modelled by rationals.
    - [for v in l: body] is [for_each l body]: the loop state is threaded
      through the iterations and an exception aborts the loop. *)

From Stdlib Require Import ZArith QArith Lia.
From stdpp Require Import base tactics option list list_numbers relations.

Local Open Scope Z_scope.

(** ** Cells, grids and numpy indexing *)

Definition WALL : Z := 1.
Definition FLOOR : Z := 0.

Abbreviation grid := (list (list Z)).

(** A position of a region, as [np.argwhere] yields it: [(row, column)]. *)
Abbreviation cell := (Z * Z)%type.
Abbreviation region := (list (Z * Z)).

(** [range(a, b)]. *)
Definition range (a b : Z) : list Z := seqZ a (b - a).

(** [for a in l: s = body(a, s)], aborting on the first exception. *)
Fixpoint for_each {A S : Type} (l : list A) (body : A -> S -> option S) (s : S)
  : option S :=
  match l with
  | [] => Some s
  | a :: l' => match body a s with
               | Some s' => for_each l' body s'
               | None => None
               end
  end.

(** numpy's resolution of an index [i] on an axis of length [n]: indices
    [0 .. n-1] are taken as they are, [-n .. -1] count from the end, any
    other index raises IndexError. *)
Definition np_index (n : nat) (i : Z) : option nat :=
  if (0 <=? i) && (i <? Z.of_nat n) then Some (Z.to_nat i)
  else if (- Z.of_nat n <=? i) && (i <? 0) then Some (Z.to_nat (i + Z.of_nat n))
  else None.

(** [grid[y, x]]. *)
Definition grid_get (g : grid) (y x : Z) : option Z :=
  match np_index (length g) y with
  | Some r =>
      match g !! r with
      | Some row =>
          match np_index (length row) x with
          | Some c => row !! c
          | None => None
          end
      | None => None
      end
  | None => None
  end.

(** [grid[y, x] = v]. *)
Definition grid_set (g : grid) (y x : Z) (v : Z) : option grid :=
  match np_index (length g) y with
  | Some r =>
      match g !! r with
      | Some row =>
          match np_index (length row) x with
          | Some c => Some (<[r := <[c := v]> row]> g)
          | None => None
          end
      | None => None
      end
  | None => None
  end.

(** [np.zeros((height, width), dtype=int)]: ValueError on a negative
    dimension. *)
Definition np_zeros (height width : Z) : option grid :=
  if (height <? 0) || (width <? 0) then None
  else Some (replicate (Z.to_nat height) (replicate (Z.to_nat width) 0)).

(** The grid has [height] rows of [width] columns. *)
Definition shaped (height width : Z) (g : grid) : Prop :=
  0 <= height /\ 0 <= width /\
  length g = Z.to_nat height /\
  Forall (fun row => length row = Z.to_nat width) g.

Definition in_bounds (width height x y : Z) : bool :=
  (0 <=? x) && (x <? width) && (0 <=? y) && (y <? height).

(** ** [is_edge] and [count_wall_neighbors] *)

Definition is_edge (x y width height : Z) : bool :=
  (x =? 0) || (y =? 0) || (x =? width - 1) || (y =? height - 1).

(** The body of the inner loop of [count_wall_neighbors] for one offset
    [(dx, dy)]: the new value of [count]. *)
Definition count_neighbor (g : grid) (x y width height dx dy : Z) (count : Z)
  : option Z :=
  let nx := x + dx in
  let ny := y + dy in
  if (dx =? 0) && (dy =? 0) then Some count
  else if (0 <=? nx) && (nx <? width) && (0 <=? ny) && (ny <? height) then
    match grid_get g ny nx with
    | Some v => Some (if v =? WALL then count + 1 else count)
    | None => None
    end
  else Some (count + 1).

Definition count_wall_neighbors (g : grid) (x y width height : Z) : option Z :=
  for_each (range (-1) 2)
    (fun dx count =>
       for_each (range (-1) 2)
         (fun dy count => count_neighbor g x y width height dx dy count)
         count)
    0.

(** The eight positions around [(x, y)], as [(column, row)] pairs. *)
Definition neighbours8 (x y : Z) : list (Z * Z) :=
  [(x - 1, y - 1); (x - 1, y); (x - 1, y + 1);
   (x, y - 1); (x, y + 1);
   (x + 1, y - 1); (x + 1, y); (x + 1, y + 1)].

(** The position [(nx, ny)] is outside the grid, or holds a WALL. *)
Definition wall_or_outside (g : grid) (width height : Z) (p : Z * Z) : bool :=
  negb (in_bounds width height p.1 p.2)
  || match grid_get g p.2 p.1 with
     | Some v => v =? WALL
     | None => false
     end.

(** What one offset adds to the count. *)
Definition contribution (g : grid) (width height x y dx dy : Z) : Z :=
  if (dx =? 0) && (dy =? 0) then 0
  else if wall_or_outside g width height (x + dx, y + dy) then 1 else 0.

(** The number of positions around [(x, y)] that are outside the grid or
    hold a WALL. *)
Definition wall_count (g : grid) (width height x y : Z) : Z :=
  Z.of_nat (length (List.filter (wall_or_outside g width height)
                                (neighbours8 x y))).

(** What the micro-smoother assigns to a cell with [n] wall neighbours;
    [None] when it assigns nothing. *)
Definition smooth_value (n : Z) : option Z :=
  if n >? 5 then Some WALL else if n <? 3 then Some FLOOR else None.

(** What an automaton step assigns to a cell that holds [v] and has [n] wall
    neighbours. *)
Definition ca_value (birth survive n v : Z) : Z :=
  if v =? WALL then (if n >=? survive then WALL else FLOOR)
  else (if n >=? birth then WALL else FLOOR).

(** ** Region finder

    [flood_fill_regions] calls [scipy.ndimage.label] on the mask
    [grid == FLOOR] with the full 3x3 structuring element, that is
    8-connectivity, and collects [np.argwhere(labeled == i)] for the labels
    [i = 1 .. num_features].  The library labels the components in the order
    in which a row-major scan meets them, and [np.argwhere] lists positions in
    row-major order.  The model computes exactly that: the components of the
    FLOOR cells under 8-adjacency, each in row-major order, ordered by their
    first cell. *)

Definition grid_width (g : grid) : nat :=
  match g with
  | [] => 0%nat
  | row :: _ => length row
  end.

(** All positions of the array in row-major order. *)
Definition positions (g : grid) : list cell :=
  y ← seq 0 (length g);
  x ← seq 0 (grid_width g);
  [(Z.of_nat y, Z.of_nat x)].

Definition is_floor (g : grid) (p : cell) : Prop :=
  grid_get g p.1 p.2 = Some FLOOR.

#[global] Instance is_floor_dec (g : grid) (p : cell) : Decision (is_floor g p) :=
  decide (grid_get g p.1 p.2 = Some FLOOR).

Definition floor_cells (g : grid) : list cell :=
  filter (is_floor g) (positions g).

(** The structuring element [[1,1,1],[1,1,1],[1,1,1]]: a cell is joined to
    the eight cells around it. *)
Definition adjacent8 (p q : cell) : Prop :=
  Z.abs (p.1 - q.1) <= 1 /\ Z.abs (p.2 - q.2) <= 1.

#[global] Instance adjacent8_dec (p q : cell) : Decision (adjacent8 p q) :=
  decide (Z.abs (p.1 - q.1) <= 1 /\ Z.abs (p.2 - q.2) <= 1).

(** One round of flooding: the cells of [cells] next to [comp] join it. *)
Definition grow (cells comp : list cell) : list cell :=
  comp ++ filter (fun c => (c ∉ comp) /\ Exists (adjacent8 c) comp) cells.

(** The cells flooded from [c] in [k] rounds. *)
Fixpoint rounds (cells : list cell) (c : cell) (k : nat) : list cell :=
  match k with
  | O => [c]
  | S k' => grow cells (rounds cells c k')
  end.

(** Flooding from [c] until nothing is added: no more than [length cells]
    rounds can add a cell. *)
Definition flood (cells : list cell) (c : cell) : list cell :=
  rounds cells c (length cells).

(** Every step from a cell of the set stays in the set. *)
Definition closed (cells comp : list cell) : Prop :=
  forall a b, a ∈ comp -> b ∈ cells /\ adjacent8 b a -> b ∈ comp.

(** The feature of [c]: the cells of its component, in row-major order. *)
Definition feature (cells : list cell) (c : cell) : region :=
  let reached := flood cells c in
  filter (fun d => d ∈ reached) cells.

(** The features in label order: one for each cell that is the first of its
    own feature. *)
Definition label_features (cells : list cell) : list region :=
  map (feature cells)
      (filter (fun c => head (feature cells c) = Some c) cells).

Definition flood_fill_regions (g : grid) : list region :=
  label_features (floor_cells g).

(** 8-connectivity among [cells]: [b] is a cell next to [a], and chains of
    such steps. *)
Definition joined (cells : list cell) (a b : cell) : Prop :=
  b ∈ cells /\ adjacent8 b a.

Definition connected (cells : list cell) (a b : cell) : Prop :=
  rtc (joined cells) a b.

(** [max(regions, key=len) if regions else []]: the first region of maximal
    length. *)
Definition largest_region (regions : list region) : region :=
  match regions with
  | [] => []
  | r :: rs =>
      foldl (fun best r' => if (length best <? length r')%nat then r' else best)
            r rs
  end.

(** ** Corridor carver *)

(** [abs(x1 - x2) + abs(y1 - y2)] for [p = (y1, x1)] and [q = (y2, x2)].
    The source computes it on int64 coordinates; on positions of a grid the
    differences and their sum stay inside the int64 range, where the two
    agree ([carve_corridor_endpoints] states the bound). *)
Definition manhattan (p q : cell) : Z :=
  Z.abs (p.2 - q.2) + Z.abs (p.1 - q.1).

(** [dist < min_dist], where [None] is [float('inf')]. *)
Definition below (dist : Z) (min_dist : option Z) : bool :=
  match min_dist with
  | None => true
  | Some m => dist <? m
  end.

(** One iteration of the inner loop of the scan; the state is
    [(min_dist, best_pair)]. *)
Definition scan_pair (p q : cell) (s : option Z * (cell * cell))
  : option Z * (cell * cell) :=
  let dist := manhattan p q in
  if below dist s.1 then (Some dist, (p, q)) else s.

Definition scan_pairs (region_a region_b : region) (s : option Z * (cell * cell))
  : option Z * (cell * cell) :=
  foldl (fun s p => foldl (fun s q => scan_pair p q s) s region_b) s region_a.

(** The pairs in the order in which the two loops of the scan visit them:
    [region_a] outermost, [region_b] innermost. *)
Definition all_pairs (region_a region_b : region) : list (cell * cell) :=
  p ← region_a; q ← region_b; [(p, q)].

(** The pair [best_pair] holds when the two loops are over. *)
Definition nearest_pair (region_a region_b : region) : option (cell * cell) :=
  a0 ← head region_a;
  b0 ← head region_b;
  Some (scan_pairs region_a region_b (None, (a0, b0))).2.

Definition Qltb (a b : Q) : bool := negb (Qle_bool b a).

Definition carve_row (g : grid) (y xa xb : Z) : option grid :=
  for_each (range (Z.min xa xb) (Z.max xa xb + 1))
    (fun x g => grid_set g y x FLOOR) g.

Definition carve_column (g : grid) (x ya yb : Z) : option grid :=
  for_each (range (Z.min ya yb) (Z.max ya yb + 1))
    (fun y g => grid_set g y x FLOOR) g.

(** [u] is the value [random.random()] returns. *)
Definition carve_corridor (g : grid) (region_a region_b : region) (u : Q)
  : option grid :=
  '((y1, x1), (y2, x2)) ← nearest_pair region_a region_b;
  if Qltb u (1 # 2) then
    g ← carve_row g y1 x1 x2;
    carve_column g x2 y1 y2
  else
    g ← carve_column g x1 y1 y2;
    carve_row g y2 x1 x2.

(** [i] lies in [range(min(a, b), max(a, b) + 1)]. *)
Definition between (a b i : Z) : Prop := Z.min a b <= i <= Z.max a b.

(** The cell [c] lies on one of the two segments carved between the
    endpoints [p] and [q] when the draw is [u]: the row of [p] and the column
    of [q] when [u < 0.5], the column of [p] and the row of [q] otherwise. *)
Definition on_corridor (u : Q) (p q c : cell) : Prop :=
  if Qltb u (1 # 2) then
    (c.1 = p.1 /\ between p.2 q.2 c.2) \/ (c.2 = q.2 /\ between p.1 q.1 c.1)
  else
    (c.2 = p.2 /\ between p.1 q.1 c.1) \/ (c.1 = q.1 /\ between p.2 q.2 c.2).

#[global] Instance on_corridor_dec (u : Q) (p q c : cell) :
  Decision (on_corridor u p q c).
Proof. unfold on_corridor, between. destruct (Qltb u (1 # 2)); apply _. Defined.

(** Every cell of the region is a position of a [height] x [width] array. *)
Definition region_in_bounds (height width : Z) (r : region) : Prop :=
  forall c, c ∈ r -> 0 <= c.1 < height /\ 0 <= c.2 < width.

(** ** Micro-smoother *)

Definition smooth_cell (g : grid) (width height y x : Z) (new_grid : grid)
  : option grid :=
  n ← count_wall_neighbors g x y width height;
  if n >? 5 then grid_set new_grid y x WALL
  else if n <? 3 then grid_set new_grid y x FLOOR
  else Some new_grid.

Definition micro_smooth (g : grid) (width height : Z) : option grid :=
  for_each (range 1 (height - 1))
    (fun y new_grid =>
       for_each (range 1 (width - 1))
         (fun x new_grid => smooth_cell g width height y x new_grid)
         new_grid)
    g.

(** ** Automaton step: the body of the [for _ in range(steps)] loop *)

Definition ca_cell (g : grid) (width height birth survive y x : Z)
  (new_grid : grid) : option grid :=
  n ← count_wall_neighbors g x y width height;
  v ← grid_get g y x;
  if v =? WALL then
    grid_set new_grid y x (if n >=? survive then WALL else FLOOR)
  else
    grid_set new_grid y x (if n >=? birth then WALL else FLOOR).

Definition ca_step (g : grid) (width height birth survive : Z) : option grid :=
  for_each (range 0 height)
    (fun y new_grid =>
       for_each (range 0 width)
         (fun x new_grid => ca_cell g width height birth survive y x new_grid)
         new_grid)
    g.

(** ** The pipeline *)

Record params := {
  width : Z;
  height : Z;
  fill_prob : Q;
  birth : Z;
  survive : Z;
  ca_steps : Z;
  min_region : Z;
  smoothing_passes : Z
}.

(** What happened to the variable [grid] of [generate_cave], in order: the
    grid after seeding, after each automaton step, after each call of
    [carve_corridor] (with the arguments of the call) and after each
    micro-smoothing pass. *)
Inductive event :=
| Seeded (g : grid)
| Stepped (g : grid)
| Carved (main candidate : region) (g : grid)
| Smoothed (g : grid).

Definition event_grid (e : event) : grid :=
  match e with
  | Seeded g | Stepped g | Carved _ _ g | Smoothed g => g
  end.

(** The state of a run: the variable [grid], the number of random draws
    made so far, and the history of [grid]. *)
Record run_state := {
  st_grid : grid;
  st_draws : nat;
  st_trace : list event
}.

Definition seed_cell (rng : nat -> Q) (fill_p : Q) (width height y x : Z)
  (s : grid * nat) : option (grid * nat) :=
  if is_edge x y width height then
    g ← grid_set s.1 y x WALL; Some (g, s.2)
  else
    g ← grid_set s.1 y x (if Qltb (rng s.2) fill_p then WALL else FLOOR);
    Some (g, S s.2).

Definition seed_grid (rng : nat -> Q) (fill_p : Q) (width height : Z)
  (s : grid * nat) : option (grid * nat) :=
  for_each (range 0 height)
    (fun y s =>
       for_each (range 0 width)
         (fun x s => seed_cell rng fill_p width height y x s) s)
    s.

Definition automaton_iteration (p : params) (st : run_state) : option run_state :=
  g ← ca_step (st_grid st) (width p) (height p) (birth p) (survive p);
  Some {| st_grid := g; st_draws := st_draws st;
          st_trace := st_trace st ++ [Stepped g] |}.

(** [np.array_equal] on two coordinate arrays. *)
Definition array_equal (a b : region) : bool := bool_decide (a = b).

(** The test of the loop over the regions:
    [len(region) >= min_region and not np.array_equal(region, main)]. *)
Definition carved (p : params) (main candidate : region) : bool :=
  (min_region p <=? Z.of_nat (length candidate))
  && negb (array_equal candidate main).

(** One iteration of [for region in regions]. *)
Definition connect_region (rng : nat -> Q) (p : params) (main candidate : region)
  (st : run_state) : option run_state :=
  if carved p main candidate then
    g ← carve_corridor (st_grid st) main candidate (rng (st_draws st));
    Some {| st_grid := g; st_draws := S (st_draws st);
            st_trace := st_trace st ++ [Carved main candidate g] |}
  else Some st.

Definition connect_regions (rng : nat -> Q) (p : params) (st : run_state)
  : option run_state :=
  let regions := flood_fill_regions (st_grid st) in
  match regions with
  | [] => Some st
  | _ :: _ =>
      let main := largest_region regions in
      for_each regions
        (fun candidate st => connect_region rng p main candidate st) st
  end.

Definition smoothing_iteration (p : params) (st : run_state) : option run_state :=
  g ← micro_smooth (st_grid st) (width p) (height p);
  Some {| st_grid := g; st_draws := st_draws st;
          st_trace := st_trace st ++ [Smoothed g] |}.

(** The first half of [generate_cave]: allocation, seeding and the
    automaton steps. *)
Definition automaton_phase (p : params) (rng : nat -> Q) : option run_state :=
  g0 ← np_zeros (height p) (width p);
  s ← seed_grid rng (fill_prob p) (width p) (height p) (g0, 0%nat);
  for_each (range 0 (ca_steps p))
    (fun _ st => automaton_iteration p st)
    {| st_grid := s.1; st_draws := s.2; st_trace := [Seeded s.1] |}.

(** [generate_cave] with the history of its variable [grid]. *)
Definition run_cave (p : params) (rng : nat -> Q) : option run_state :=
  st ← automaton_phase p rng;
  st ← connect_regions rng p st;
  for_each (range 0 (smoothing_passes p))
    (fun _ st => smoothing_iteration p st) st.

Definition generate_cave (p : params) (rng : nat -> Q) : option grid :=
  st_grid <$> run_cave p rng.

Definition generate_cave_trace (p : params) (rng : nat -> Q)
  : option (list event) :=
  st_trace <$> run_cave p rng.

(** The parameters at the end of the script. *)
Definition default_params : params :=
  {| width := 100; height := 40; fill_prob := 45 # 100; birth := 5;
     survive := 4; ca_steps := 5; min_region := 30; smoothing_passes := 2 |}.

(** ** Notions the statements use *)

(** The calls of [carve_corridor] a history records, in order: the
    [(main, candidate)] arguments. *)
Definition carve_calls (trace : list event) : list (region * region) :=
  omap (fun e => match e with
                 | Carved main candidate _ => Some (main, candidate)
                 | _ => None
                 end) trace.

(** Every cell on row 0, row [height - 1], column 0 or column [width - 1]
    is WALL. *)
Definition border_wall (height width : Z) (g : grid) : Prop :=
  forall y x, 0 <= y < height -> 0 <= x < width ->
    is_edge x y width height = true -> grid_get g y x = Some WALL.

(** What every grid of a run satisfies: it has the shape the parameters
    ask for, and its border is all WALL when [survive <= 5]. *)
Definition sound_grid (p : params) (g : grid) : Prop :=
  shaped (height p) (width p) g /\
  (survive p <= 5 -> border_wall (height p) (width p) g).

(** What every state of a run satisfies: the grid and the grids of the
    history are sound, and the history starts with the seeded grid, whose
    border is all WALL. *)
Definition sound_state (p : params) (st : run_state) : Prop :=
  sound_grid p (st_grid st) /\
  Forall (fun e => sound_grid p (event_grid e)) (st_trace st) /\
  exists g rest, st_trace st = Seeded g :: rest /\
                 border_wall (height p) (width p) g.

(** The region is a non-empty set of [cells] that are connected to each
    other. *)
Definition solid (cells : list cell) (r : region) : Prop :=
  r <> [] /\
  (forall a, a ∈ r -> a ∈ cells) /\
  (forall a b, a ∈ r -> b ∈ r -> connected cells a b).

(** Every cell of the region is off the border. *)
Definition region_interior (height width : Z) (r : region) : Prop :=
  forall c, c ∈ r -> 1 <= c.1 < height - 1 /\ 1 <= c.2 < width - 1.

(** ** Notions the further properties use *)

(** Every cell of the grid is WALL; every cell is FLOOR; every cell is one
    of the two. *)
Definition all_wall (height width : Z) (g : grid) : Prop :=
  forall y x, 0 <= y < height -> 0 <= x < width -> grid_get g y x = Some WALL.

Definition all_floor (height width : Z) (g : grid) : Prop :=
  forall y x, 0 <= y < height -> 0 <= x < width -> grid_get g y x = Some FLOOR.

Definition binary (height width : Z) (g : grid) : Prop :=
  forall y x, 0 <= y < height -> 0 <= x < width ->
    grid_get g y x = Some WALL \/ grid_get g y x = Some FLOOR.

(** The cells the seeding loop draws a random number for, in the order in
    which it visits them. *)
Definition interior_cells (width height : Z) : list cell :=
  filter (fun c => is_edge c.2 c.1 width height = false)
         (y ← range 0 height; x ← range 0 width; [(y, x)]).

(** The parameters with each negative count replaced by 0. *)
Definition clamp_counts (p : params) : params :=
  {| width := width p; height := height p; fill_prob := fill_prob p;
     birth := birth p; survive := survive p;
     ca_steps := Z.max 0 (ca_steps p);
     min_region := Z.max 0 (min_region p);
     smoothing_passes := Z.max 0 (smoothing_passes p) |}.

(** ** Sample inputs *)

(** A 5 x 5 grid with two regions. *)
Definition sample_grid : grid :=
  [[1; 1; 1; 1; 1];
   [1; 0; 0; 1; 1];
   [1; 1; 1; 0; 1];
   [1; 0; 1; 1; 1];
   [1; 1; 1; 1; 1]].

(** A 3 x 3 grid whose only interior cell has four wall neighbours. *)
Definition still_grid : grid :=
  [[1; 0; 1];
   [0; 0; 0];
   [1; 0; 1]].

(** A run state that holds [sample_grid]. *)
Definition sample_state : run_state :=
  {| st_grid := sample_grid; st_draws := 0; st_trace := [Seeded sample_grid] |}.

(** 5 x 5 parameters with the thresholds of the script. *)
Definition sample_params : params :=
  {| width := 5; height := 5; fill_prob := 45 # 100; birth := 5;
     survive := 4; ca_steps := 5; min_region := 0; smoothing_passes := 2 |}.

(** Draws that alternate between 0.25 and 0.75 in pairs. *)
Definition sample_rng (n : nat) : Q :=
  if Nat.even (n / 2) then 1 # 4 else 3 # 4.

(** 7 x 5 parameters that skip the automaton and connect every region. *)
Definition carving_params : params :=
  {| width := 7; height := 5; fill_prob := 1 # 2; birth := 9;
     survive := 0; ca_steps := 0; min_region := 0; smoothing_passes := 1 |}.

(** Draws that are all 0.5. *)
Definition half_rng (n : nat) : Q := 1 # 2.

(** An empty interior, and a survive threshold of 6. *)
Definition leaky_params : params :=
  {| width := 5; height := 5; fill_prob := 0; birth := 5;
     survive := 6; ca_steps := 1; min_region := 0; smoothing_passes := 0 |}.

(** A fill probability above 1 and negative counts. *)
Definition unchecked_params : params :=
  {| width := 3; height := 3; fill_prob := 2; birth := 5;
     survive := 4; ca_steps := -1; min_region := -1; smoothing_passes := -1 |}.

(** The two regions of [sample_grid], and a third set of positions. *)
Definition sample_main : region := [(1, 1); (1, 2); (2, 3)].
Definition sample_pocket : region := [(3, 1)].
Definition sample_far : region := [(3, 3)].

(** A 3 x 3 grid of WALL cells. *)
Definition rock_grid : grid := [[1; 1; 1]; [1; 1; 1]; [1; 1; 1]].

(** * Proofs *)

(** ** Loops *)

Lemma elem_of_range (a b i : Z) : i ∈ range a b <-> a <= i < b.
Proof. unfold range. rewrite elem_of_seqZ. lia. Qed.

Lemma for_each_app {A S} (l1 l2 : list A) (body : A -> S -> option S) (s : S) :
  for_each (l1 ++ l2) body s =
  match for_each l1 body s with
  | Some s' => for_each l2 body s'
  | None => None
  end.
Proof.
  revert s. induction l1 as [|a l1 IH]; intros s; simpl; [reflexivity|].
  destruct (body a s); [apply IH | reflexivity].
Qed.

(** A loop whose body keeps an invariant and never raises runs to its end
    and keeps the invariant. *)
Lemma for_each_invariant {A S} (I : S -> Prop) (l : list A)
    (body : A -> S -> option S) (s : S) :
  (forall a s, a ∈ l -> I s -> exists s', body a s = Some s' /\ I s') ->
  I s ->
  exists s', for_each l body s = Some s' /\ I s'.
Proof.
  revert s. induction l as [|a l IH]; intros s Hbody Hs; simpl.
  - eauto.
  - destruct (Hbody a s) as (s1 & -> & Hs1); [left | exact Hs |].
    apply IH; [|exact Hs1].
    intros a' s' Ha'. apply Hbody. right. exact Ha'.
Qed.

(** Two nested loops are one loop over the pairs, first index outermost. *)
Lemma for_each_nested {A B S} (la : list A) (lb : list B)
    (body : A -> B -> S -> option S) (s : S) :
  for_each la (fun a s => for_each lb (fun b s => body a b s) s) s =
  for_each (a ← la; b ← lb; [(a, b)]) (fun ab s => body ab.1 ab.2 s) s.
Proof.
  revert s. induction la as [|a la IH]; intros s; simpl; [reflexivity|].
  rewrite for_each_app.
  assert (Hin : forall s, for_each lb (fun b s => body a b s) s =
                 for_each (b ← lb; [(a, b)]) (fun ab s => body ab.1 ab.2 s) s).
  { clear. induction lb as [|b lb IHb]; intros s; simpl; [reflexivity|].
    destruct (body a b s); [apply IHb | reflexivity]. }
  rewrite <- Hin.
  destruct (for_each lb (fun b s => body a b s) s); [apply IH | reflexivity].
Qed.

Lemma elem_of_pairs {A B} (la : list A) (lb : list B) (p : A * B) :
  p ∈ (a ← la; b ← lb; [(a, b)]) <-> p.1 ∈ la /\ p.2 ∈ lb.
Proof.
  destruct p as [a b]. simpl. rewrite list_elem_of_bind. split.
  - intros (a' & Hb & Ha'). apply list_elem_of_bind in Hb as (b' & Hp & Hb').
    apply list_elem_of_singleton in Hp. injection Hp as -> ->. auto.
  - intros [Ha Hb]. exists a. split; [|exact Ha].
    apply list_elem_of_bind. exists b. split; [|exact Hb].
    apply list_elem_of_singleton. reflexivity.
Qed.

(** ** Indexing a grid of known shape *)

Lemma np_index_in_range (n : nat) (i : Z) :
  0 <= i < Z.of_nat n -> np_index n i = Some (Z.to_nat i).
Proof.
  intros H. unfold np_index.
  destruct (Z.leb_spec 0 i), (Z.ltb_spec i (Z.of_nat n)); simpl; try lia.
  reflexivity.
Qed.

Lemma shaped_row (height width : Z) (g : grid) (y : Z) :
  shaped height width g -> 0 <= y < height ->
  exists row, g !! Z.to_nat y = Some row /\ length row = Z.to_nat width.
Proof.
  intros (Hh & Hw & Hlen & Hrows) Hy.
  destruct (lookup_lt_is_Some_2 g (Z.to_nat y)) as [row Hrow]; [lia|].
  exists row. split; [exact Hrow|].
  rewrite Forall_forall in Hrows. apply Hrows.
  eapply list_elem_of_lookup_2. exact Hrow.
Qed.

Lemma grid_get_in_bounds (height width : Z) (g : grid) (y x : Z) :
  shaped height width g -> 0 <= y < height -> 0 <= x < width ->
  exists row v, g !! Z.to_nat y = Some row /\ row !! Z.to_nat x = Some v /\
                grid_get g y x = Some v.
Proof.
  intros Hg Hy Hx.
  destruct (shaped_row _ _ _ _ Hg Hy) as (row & Hrow & Hlen).
  destruct (lookup_lt_is_Some_2 row (Z.to_nat x)) as [v Hv]; [lia|].
  exists row, v. split; [exact Hrow|]. split; [exact Hv|].
  unfold grid_get. destruct Hg as (_ & _ & Hl & _).
  rewrite np_index_in_range by lia. rewrite Hrow.
  rewrite np_index_in_range by lia. exact Hv.
Qed.

Lemma grid_get_is_Some (height width : Z) (g : grid) (y x : Z) :
  shaped height width g -> 0 <= y < height -> 0 <= x < width ->
  is_Some (grid_get g y x).
Proof.
  intros Hg Hy Hx.
  destruct (grid_get_in_bounds _ _ _ _ _ Hg Hy Hx) as (row & v & _ & _ & H).
  exists v. exact H.
Qed.

(** An in-bounds assignment succeeds, keeps the shape, and changes the
    assigned cell only. *)
Lemma grid_set_in_bounds (height width : Z) (g : grid) (y x v : Z) :
  shaped height width g -> 0 <= y < height -> 0 <= x < width ->
  exists g', grid_set g y x v = Some g' /\ shaped height width g' /\
    forall y' x', 0 <= y' < height -> 0 <= x' < width ->
      grid_get g' y' x' = if decide (y' = y /\ x' = x) then Some v
                          else grid_get g y' x'.
Proof.
  intros Hg Hy Hx.
  destruct (shaped_row _ _ _ _ Hg Hy) as (row & Hrow & Hlen).
  pose proof Hg as (Hh & Hw & Hl & Hrows).
  exists (<[Z.to_nat y := <[Z.to_nat x := v]> row]> g).
  assert (Hg' : shaped height width (<[Z.to_nat y := <[Z.to_nat x := v]> row]> g)).
  { split; [exact Hh|]. split; [exact Hw|]. split.
    - rewrite length_insert. exact Hl.
    - apply Forall_insert; [exact Hrows|]. rewrite length_insert. exact Hlen. }
  split; [|split; [exact Hg'|]].
  - unfold grid_set. rewrite np_index_in_range by lia. rewrite Hrow.
    rewrite np_index_in_range by lia. reflexivity.
  - intros y' x' Hy' Hx'.
    unfold grid_get at 1. rewrite length_insert.
    rewrite np_index_in_range by lia.
    destruct (decide (y' = y)) as [->|Hne].
    + rewrite list_lookup_insert_eq by lia. rewrite length_insert.
      rewrite np_index_in_range by lia.
      destruct (decide (x' = x)) as [->|Hnx].
      * rewrite list_lookup_insert_eq by lia.
        destruct (decide _) as [_|Hn]; [reflexivity | exfalso; auto].
      * rewrite list_lookup_insert_ne by lia.
        destruct (decide _) as [[_ ?]|_]; [contradiction|].
        unfold grid_get. rewrite np_index_in_range by lia. rewrite Hrow.
        rewrite np_index_in_range by lia. reflexivity.
    + rewrite list_lookup_insert_ne by lia.
      destruct (decide _) as [[? _]|_]; [contradiction|].
      unfold grid_get. rewrite np_index_in_range by lia. reflexivity.
Qed.

(** ** Counting wall neighbours *)

Lemma count_neighbor_total (g : grid) (width height x y dx dy count : Z) :
  shaped height width g ->
  count_neighbor g x y width height dx dy count =
  Some (count + contribution g width height x y dx dy).
Proof.
  intros Hg. unfold count_neighbor, contribution, wall_or_outside, in_bounds.
  cbn [fst snd].
  destruct ((dx =? 0) && (dy =? 0)); [f_equal; lia|].
  destruct (Z.leb_spec 0 (x + dx)), (Z.ltb_spec (x + dx) width),
    (Z.leb_spec 0 (y + dy)), (Z.ltb_spec (y + dy) height); cbn [andb negb orb];
    try (f_equal; lia).
  destruct (grid_get_is_Some height width g (y + dy) (x + dx)) as [v ->];
    [exact Hg | lia | lia |].
  destruct (v =? WALL); f_equal; lia.
Qed.

Lemma length_filter_cons {A} (f : A -> bool) (a : A) (l : list A) :
  Z.of_nat (length (List.filter f (a :: l))) =
  (if f a then 1 else 0) + Z.of_nat (length (List.filter f l)).
Proof. simpl. destruct (f a); simpl; lia. Qed.

Lemma count_wall_neighbors_total (g : grid) (width height x y : Z) :
  shaped height width g ->
  count_wall_neighbors g x y width height = Some (wall_count g width height x y).
Proof.
  intros Hg. unfold count_wall_neighbors.
  change (range (-1) 2) with [-1; 0; 1].
  cbn [for_each]. rewrite !(count_neighbor_total _ _ _ _ _ _ _ _ Hg).
  f_equal. unfold wall_count, neighbours8, contribution.
  rewrite !length_filter_cons. cbn [List.filter length Z.of_nat].
  replace (x + -1) with (x - 1) by lia. replace (y + -1) with (y - 1) by lia.
  replace (x + 0) with x by lia. replace (y + 0) with y by lia.
  cbn [Z.eqb andb Pos.eqb]. lia.
Qed.

(** ** Loops that assign cells

    A loop over [l] whose iteration for [a] assigns [val (pos a)] to the
    cell [pos a], or leaves the grid alone when [val (pos a)] is [None],
    where every [pos a] is inside the grid: the loop ends, keeps the shape,
    and the cells of the result are read off [val]. *)
Lemma for_each_assign {A} (pos : A -> cell) (val : cell -> option Z)
    (height width : Z) (l : list A) (body : A -> grid -> option grid) (g : grid) :
  shaped height width g ->
  (forall a, a ∈ l -> 0 <= (pos a).1 < height /\ 0 <= (pos a).2 < width) ->
  (forall a s, a ∈ l ->
     body a s = match val (pos a) with
                | Some v => grid_set s (pos a).1 (pos a).2 v
                | None => Some s
                end) ->
  exists g', for_each l body g = Some g' /\ shaped height width g' /\
    forall y x, 0 <= y < height -> 0 <= x < width ->
      grid_get g' y x =
      if decide ((y, x) ∈ pos <$> l) then
        match val (y, x) with
        | Some v => Some v
        | None => grid_get g y x
        end
      else grid_get g y x.
Proof.
  revert g. induction l as [|a l IH]; intros g Hg Hpos Hbody.
  - exists g. split; [reflexivity|]. split; [exact Hg|].
    intros y x _ _. destruct (decide _) as [Hin|_]; [|reflexivity].
    apply elem_of_nil in Hin. contradiction.
  - assert (Hstep : exists g1, body a g = Some g1 /\ shaped height width g1 /\
       forall y x, 0 <= y < height -> 0 <= x < width ->
         grid_get g1 y x =
         if decide ((y, x) = pos a) then
           match val (y, x) with Some v => Some v | None => grid_get g y x end
         else grid_get g y x).
    { rewrite Hbody by left. destruct (val (pos a)) as [v|] eqn:Hval.
      - destruct (Hpos a) as [Hy Hx]; [left|].
        destruct (grid_set_in_bounds _ _ g _ _ v Hg Hy Hx) as (g1 & H1 & Hs1 & Hget).
        exists g1. split; [exact H1|]. split; [exact Hs1|].
        intros y x Hyb Hxb. rewrite Hget by assumption.
        destruct (decide (y = (pos a).1 /\ x = (pos a).2)) as [[-> ->]|Hne].
        + rewrite <- surjective_pairing.
          destruct (decide _) as [_|Hn]; [|contradiction].
          rewrite Hval. reflexivity.
        + destruct (decide _) as [Heq|_]; [|reflexivity].
          rewrite <- Heq in Hne. simpl in Hne. exfalso. auto.
      - exists g. split; [reflexivity|]. split; [exact Hg|].
        intros y x _ _. destruct (decide _) as [->|_]; [|reflexivity].
        rewrite Hval. reflexivity. }
    destruct Hstep as (g1 & H1 & Hs1 & Hget1).
    destruct (IH g1 Hs1) as (g' & H' & Hs' & Hget').
    { intros a' Ha'. apply Hpos. right. exact Ha'. }
    { intros a' s Ha'. apply Hbody. right. exact Ha'. }
    exists g'. cbn [for_each]. rewrite H1. split; [exact H'|]. split; [exact Hs'|].
    intros y x Hy Hx. rewrite Hget' by assumption. rewrite Hget1 by assumption.
    assert (Hcons : (y, x) ∈ pos <$> a :: l <->
                    (y, x) = pos a \/ (y, x) ∈ pos <$> l).
    { change (pos <$> a :: l) with (pos a :: (pos <$> l)). apply elem_of_cons. }
    destruct (decide ((y, x) ∈ pos <$> a :: l)),
      (decide ((y, x) ∈ pos <$> l)), (decide ((y, x) = pos a)),
      (val (y, x)); try reflexivity; exfalso; tauto.
Qed.

(** The same for two nested [range] loops, rows outermost. *)
Lemma for_each_range_assign (val : cell -> option Z) (height width : Z)
    (ya yb xa xb : Z) (body : Z -> Z -> grid -> option grid) (g : grid) :
  shaped height width g ->
  0 <= ya -> yb <= height -> 0 <= xa -> xb <= width ->
  (forall y x s, ya <= y < yb -> xa <= x < xb ->
     body y x s = match val (y, x) with
                  | Some v => grid_set s y x v
                  | None => Some s
                  end) ->
  exists g',
    for_each (range ya yb)
      (fun y s => for_each (range xa xb) (fun x s => body y x s) s) g = Some g' /\
    shaped height width g' /\
    forall y x, 0 <= y < height -> 0 <= x < width ->
      grid_get g' y x =
      if decide (ya <= y < yb /\ xa <= x < xb) then
        match val (y, x) with
        | Some v => Some v
        | None => grid_get g y x
        end
      else grid_get g y x.
Proof.
  intros Hg Hya Hyb Hxa Hxb Hbody. rewrite for_each_nested.
  destruct (for_each_assign id val height width
              (y ← range ya yb; x ← range xa xb; [(y, x)])
              (fun ab s => body ab.1 ab.2 s) g Hg) as (g' & Hrun & Hs' & Hget).
  - intros [y x] Hin. apply elem_of_pairs in Hin as [Hy Hx].
    apply elem_of_range in Hy. apply elem_of_range in Hx. simpl in *. lia.
  - intros [y x] s Hin. apply elem_of_pairs in Hin as [Hy Hx].
    apply elem_of_range in Hy. apply elem_of_range in Hx. simpl in *.
    apply Hbody; assumption.
  - exists g'. split; [exact Hrun|]. split; [exact Hs'|].
    intros y x Hy Hx. rewrite Hget by assumption. rewrite list_fmap_id.
    assert (Hiff : (y, x) ∈ (y ← range ya yb; x ← range xa xb; [(y, x)]) <->
                   ya <= y < yb /\ xa <= x < xb).
    { rewrite elem_of_pairs. simpl. rewrite !elem_of_range. reflexivity. }
    destruct (decide ((y, x) ∈ (y ← range ya yb; x ← range xa xb; [(y, x)]))),
      (decide (ya <= y < yb /\ xa <= x < xb)); try reflexivity; exfalso; tauto.
Qed.

(** ** Micro-smoother and automaton step, cell by cell *)

Lemma micro_smooth_cells (g : grid) (width height : Z) :
  shaped height width g ->
  exists g', micro_smooth g width height = Some g' /\ shaped height width g' /\
    forall y x, 0 <= y < height -> 0 <= x < width ->
      grid_get g' y x =
      if decide (1 <= y < height - 1 /\ 1 <= x < width - 1) then
        match smooth_value (wall_count g width height x y) with
        | Some v => Some v
        | None => grid_get g y x
        end
      else grid_get g y x.
Proof.
  intros Hg. unfold micro_smooth.
  apply (for_each_range_assign
           (fun p => smooth_value (wall_count g width height p.2 p.1)));
    try lia; [exact Hg|].
  intros y x s _ _. unfold smooth_cell, smooth_value. cbn [fst snd].
  rewrite (count_wall_neighbors_total _ _ _ _ _ Hg). cbn [mbind option_bind].
  destruct (_ >? 5); [reflexivity|]. destruct (_ <? 3); reflexivity.
Qed.

Lemma ca_step_cells (g : grid) (width height birth survive : Z) :
  shaped height width g ->
  exists g', ca_step g width height birth survive = Some g' /\
    shaped height width g' /\
    forall y x, 0 <= y < height -> 0 <= x < width ->
      grid_get g' y x =
      ca_value birth survive (wall_count g width height x y) <$> grid_get g y x.
Proof.
  intros Hg. unfold ca_step.
  destruct (for_each_range_assign
    (fun p => ca_value birth survive (wall_count g width height p.2 p.1)
                <$> grid_get g p.1 p.2)
    height width 0 height 0 width
    (fun y x s => ca_cell g width height birth survive y x s) g Hg)
    as (g' & Hrun & Hs' & Hget); try lia.
  - intros y x s Hy Hx. unfold ca_cell. cbn [fst snd].
    rewrite (count_wall_neighbors_total _ _ _ _ _ Hg). cbn [mbind option_bind].
    destruct (grid_get_is_Some _ _ _ _ _ Hg Hy Hx) as [v ->].
    cbn [mbind option_bind fmap option_fmap option_map]. unfold ca_value.
    destruct (v =? WALL); reflexivity.
  - exists g'. split; [exact Hrun|]. split; [exact Hs'|].
    intros y x Hy Hx. rewrite Hget by assumption. cbn [fst snd].
    destruct (decide _) as [_|Hn]; [|lia].
    destruct (grid_get_is_Some _ _ _ _ _ Hg Hy Hx) as [v ->]. reflexivity.
Qed.

(** ** The nearest-pair scan *)

Lemma scan_pairs_flat (region_a region_b : region) (s : option Z * (cell * cell)) :
  scan_pairs region_a region_b s =
  foldl (fun s pq => scan_pair pq.1 pq.2 s) s (all_pairs region_a region_b).
Proof.
  unfold scan_pairs, all_pairs. revert s.
  induction region_a as [|p ra IH]; intros s; [reflexivity|].
  cbn [foldl mbind list_bind]. rewrite foldl_app, IH. f_equal.
  clear. revert s. induction region_b as [|q rb IHb]; intros s; [reflexivity|].
  cbn [foldl mbind list_bind app]. apply IHb.
Qed.

(** After a scan of a non-empty list of pairs the state holds the first
    pair of least distance, and that distance. *)
Lemma scan_first_minimum (l : list (cell * cell)) (init : cell * cell) :
  l <> [] ->
  exists (i : nat) (pq : cell * cell),
    l !! i = Some pq /\
    foldl (fun s pq => scan_pair pq.1 pq.2 s) (None, init) l =
      (Some (manhattan pq.1 pq.2), pq) /\
    (forall (j : nat) (pq' : cell * cell), l !! j = Some pq' ->
       manhattan pq.1 pq.2 <= manhattan pq'.1 pq'.2) /\
    (forall (j : nat) (pq' : cell * cell), (j < i)%nat -> l !! j = Some pq' ->
       manhattan pq.1 pq.2 < manhattan pq'.1 pq'.2).
Proof.
  induction l as [|x l IH] using rev_ind; [congruence|]. intros _.
  rewrite foldl_app. cbn [foldl].
  destruct l as [|y l'].
  - exists 0%nat, x. cbn. split; [reflexivity|]. split.
    + unfold scan_pair. cbn. destruct x as [p q]. reflexivity.
    + split.
      * intros [|j] pq' H; cbn in H; [|discriminate].
        injection H as <-. lia.
      * intros j pq' Hj. lia.
  - destruct IH as (i & pq & Hi & Hfold & Hmin & Hfirst); [congruence|].
    set (l := y :: l') in *. rewrite Hfold. unfold scan_pair. cbn [fst snd below].
    destruct (Z.ltb_spec (manhattan x.1 x.2) (manhattan pq.1 pq.2)) as [Hlt|Hge].
    + exists (length l), x. split; [apply list_lookup_middle; reflexivity|].
      split; [destruct x; reflexivity|]. split.
      * intros j pq' Hj. apply lookup_app_Some in Hj as [Hj|[_ Hj]].
        -- specialize (Hmin _ _ Hj). lia.
        -- destruct (j - length l)%nat; cbn in Hj; [|discriminate].
           injection Hj as <-. lia.
      * intros j pq' Hlen Hj. rewrite lookup_app_l in Hj by exact Hlen.
        specialize (Hmin _ _ Hj). lia.
    + exists i, pq. split; [apply lookup_app_l_Some; exact Hi|].
      split; [reflexivity|]. split.
      * intros j pq' Hj. apply lookup_app_Some in Hj as [Hj|[_ Hj]].
        -- exact (Hmin _ _ Hj).
        -- destruct (j - length l)%nat; cbn in Hj; [|discriminate].
           injection Hj as <-. exact Hge.
      * intros j pq' Hlt Hj. apply (Hfirst j pq' Hlt).
        apply lookup_lt_Some in Hi.
        rewrite lookup_app_l in Hj by lia. exact Hj.
Qed.

Lemma elem_of_all_pairs (region_a region_b : region) (p q : cell) :
  (p, q) ∈ all_pairs region_a region_b <-> p ∈ region_a /\ q ∈ region_b.
Proof. unfold all_pairs. rewrite elem_of_pairs. reflexivity. Qed.

Lemma nearest_pair_first_minimum (region_a region_b : region) :
  region_a <> [] -> region_b <> [] ->
  exists (i : nat) (p q : cell),
    nearest_pair region_a region_b = Some (p, q) /\
    all_pairs region_a region_b !! i = Some (p, q) /\
    p ∈ region_a /\ q ∈ region_b /\
    (forall p' q', p' ∈ region_a -> q' ∈ region_b ->
       manhattan p q <= manhattan p' q') /\
    (forall (j : nat) p' q', (j < i)%nat ->
       all_pairs region_a region_b !! j = Some (p', q') ->
       manhattan p q < manhattan p' q').
Proof.
  intros Ha Hb.
  assert (Ea : exists a0, head region_a = Some a0 /\ a0 ∈ region_a)
    by (destruct region_a as [|a0 ?]; [congruence|]; exists a0; split;
        [reflexivity | left]).
  assert (Eb : exists b0, head region_b = Some b0 /\ b0 ∈ region_b)
    by (destruct region_b as [|b0 ?]; [congruence|]; exists b0; split;
        [reflexivity | left]).
  destruct Ea as (a0 & Ea & Ha0), Eb as (b0 & Eb & Hb0).
  destruct (scan_first_minimum (all_pairs region_a region_b) (a0, b0))
    as (i & [p q] & Hi & Hfold & Hmin & Hfirst).
  { intros Hnil. assert (Hin : (a0, b0) ∈ all_pairs region_a region_b).
    { apply elem_of_all_pairs. auto. }
    rewrite Hnil in Hin. apply elem_of_nil in Hin. exact Hin. }
  exists i, p, q. cbn [fst snd] in *.
  assert (Hin : (p, q) ∈ all_pairs region_a region_b)
    by (eapply list_elem_of_lookup_2; exact Hi).
  apply elem_of_all_pairs in Hin as [Hp Hq].
  split; [|split; [exact Hi|split; [exact Hp|split; [exact Hq|split]]]].
  - unfold nearest_pair. rewrite Ea, Eb.
    cbn [mbind option_bind]. rewrite scan_pairs_flat, Hfold. reflexivity.
  - intros p' q' Hp' Hq'.
    assert (Hin : (p', q') ∈ all_pairs region_a region_b)
      by (apply elem_of_all_pairs; auto).
    apply list_elem_of_lookup_1 in Hin as [j Hj]. exact (Hmin j _ Hj).
  - intros j p' q' Hlt Hj. exact (Hfirst j _ Hlt Hj).
Qed.

(** ** Carving *)

Lemma carve_row_cells (height width : Z) (g : grid) (y xa xb : Z) :
  shaped height width g ->
  0 <= y < height -> 0 <= xa < width -> 0 <= xb < width ->
  exists g', carve_row g y xa xb = Some g' /\ shaped height width g' /\
    forall y' x', 0 <= y' < height -> 0 <= x' < width ->
      grid_get g' y' x' =
      if decide (y' = y /\ between xa xb x') then Some FLOOR
      else grid_get g y' x'.
Proof.
  intros Hg Hy Hxa Hxb. unfold carve_row.
  destruct (for_each_assign (fun x => (y, x)) (fun _ => Some FLOOR) height width
              (range (Z.min xa xb) (Z.max xa xb + 1))
              (fun x g => grid_set g y x FLOOR) g Hg) as (g' & Hrun & Hs' & Hget).
  - intros x Hx. apply elem_of_range in Hx. cbn [fst snd]. lia.
  - reflexivity.
  - exists g'. split; [exact Hrun|]. split; [exact Hs'|].
    intros y' x' Hy' Hx'. rewrite Hget by assumption.
    assert (Hiff : (y', x') ∈ (fun x => (y, x)) <$>
                     range (Z.min xa xb) (Z.max xa xb + 1) <->
                   y' = y /\ between xa xb x').
    { rewrite list_elem_of_fmap. unfold between. split.
      - intros (x & Heq & Hx). apply elem_of_range in Hx.
        injection Heq as -> ->. lia.
      - intros [-> Hb]. exists x'. split; [reflexivity|].
        apply elem_of_range. lia. }
    destruct (decide ((y', x') ∈ (fun x => (y, x)) <$>
                        range (Z.min xa xb) (Z.max xa xb + 1))),
      (decide (y' = y /\ between xa xb x')); try reflexivity; exfalso; tauto.
Qed.

Lemma carve_column_cells (height width : Z) (g : grid) (x ya yb : Z) :
  shaped height width g ->
  0 <= x < width -> 0 <= ya < height -> 0 <= yb < height ->
  exists g', carve_column g x ya yb = Some g' /\ shaped height width g' /\
    forall y' x', 0 <= y' < height -> 0 <= x' < width ->
      grid_get g' y' x' =
      if decide (x' = x /\ between ya yb y') then Some FLOOR
      else grid_get g y' x'.
Proof.
  intros Hg Hx Hya Hyb. unfold carve_column.
  destruct (for_each_assign (fun y => (y, x)) (fun _ => Some FLOOR) height width
              (range (Z.min ya yb) (Z.max ya yb + 1))
              (fun y g => grid_set g y x FLOOR) g Hg) as (g' & Hrun & Hs' & Hget).
  - intros y Hy. apply elem_of_range in Hy. cbn [fst snd]. lia.
  - reflexivity.
  - exists g'. split; [exact Hrun|]. split; [exact Hs'|].
    intros y' x' Hy' Hx'. rewrite Hget by assumption.
    assert (Hiff : (y', x') ∈ (fun y => (y, x)) <$>
                     range (Z.min ya yb) (Z.max ya yb + 1) <->
                   x' = x /\ between ya yb y').
    { rewrite list_elem_of_fmap. unfold between. split.
      - intros (y & Heq & Hy). apply elem_of_range in Hy.
        injection Heq as -> ->. lia.
      - intros [-> Hb]. exists y'. split; [reflexivity|].
        apply elem_of_range. lia. }
    destruct (decide ((y', x') ∈ (fun y => (y, x)) <$>
                        range (Z.min ya yb) (Z.max ya yb + 1))),
      (decide (x' = x /\ between ya yb y')); try reflexivity; exfalso; tauto.
Qed.

(** [carve_corridor] on regions of the grid: it ends, keeps the shape, sets
    the cells of the corridor between the nearest pair to FLOOR and leaves
    the other cells alone. *)
Lemma carve_corridor_cells (height width : Z) (g : grid)
    (region_a region_b : region) (u : Q) :
  shaped height width g ->
  region_a <> [] -> region_b <> [] ->
  region_in_bounds height width region_a ->
  region_in_bounds height width region_b ->
  exists (g' : grid) (p q : cell),
    nearest_pair region_a region_b = Some (p, q) /\
    p ∈ region_a /\ q ∈ region_b /\
    carve_corridor g region_a region_b u = Some g' /\
    shaped height width g' /\
    forall y x, 0 <= y < height -> 0 <= x < width ->
      (on_corridor u p q (y, x) -> grid_get g' y x = Some FLOOR) /\
      (~ on_corridor u p q (y, x) -> grid_get g' y x = grid_get g y x).
Proof.
  intros Hg Ha Hb Hina Hinb.
  destruct (nearest_pair_first_minimum region_a region_b Ha Hb)
    as (i & [y1 x1] & [y2 x2] & Hnear & _ & Hp & Hq & _).
  destruct (Hina _ Hp) as [Hy1 Hx1]. destruct (Hinb _ Hq) as [Hy2 Hx2].
  cbn [fst snd] in *.
  unfold carve_corridor, on_corridor. rewrite Hnear. cbn [mbind option_bind fst snd].
  destruct (Qltb u (1 # 2)).
  - destruct (carve_row_cells _ _ g y1 x1 x2 Hg Hy1 Hx1 Hx2)
      as (g1 & Hr1 & Hs1 & Hget1).
    destruct (carve_column_cells _ _ g1 x2 y1 y2 Hs1 Hx2 Hy1 Hy2)
      as (g2 & Hr2 & Hs2 & Hget2).
    exists g2, (y1, x1), (y2, x2). rewrite Hr1. cbn [mbind option_bind].
    repeat (split; [first [reflexivity | assumption]|]).
    intros y x Hy Hx. rewrite Hget2, Hget1 by assumption. cbn [fst snd].
    destruct (decide (x = x2 /\ between y1 y2 y)),
      (decide (y = y1 /\ between x1 x2 x)); split; intros H;
      try reflexivity; exfalso; tauto.
  - destruct (carve_column_cells _ _ g x1 y1 y2 Hg Hx1 Hy1 Hy2)
      as (g1 & Hr1 & Hs1 & Hget1).
    destruct (carve_row_cells _ _ g1 y2 x1 x2 Hs1 Hy2 Hx1 Hx2)
      as (g2 & Hr2 & Hs2 & Hget2).
    exists g2, (y1, x1), (y2, x2). rewrite Hr1. cbn [mbind option_bind].
    repeat (split; [first [reflexivity | assumption]|]).
    intros y x Hy Hx. rewrite Hget2, Hget1 by assumption. cbn [fst snd].
    destruct (decide (y = y2 /\ between x1 x2 x)),
      (decide (x = x1 /\ between y1 y2 y)); split; intros H;
      try reflexivity; exfalso; tauto.
Qed.

(** ** Flooding computes the components *)

Lemma adjacent8_sym (p q : cell) : adjacent8 p q -> adjacent8 q p.
Proof. unfold adjacent8. lia. Qed.

Section flooding.
Variable cells : list cell.
Hypothesis cells_nodup : NoDup cells.

Lemma elem_of_grow (comp : list cell) (b : cell) :
  b ∈ grow cells comp <->
  b ∈ comp \/
  (b ∈ cells /\ (b ∉ comp) /\ exists a, a ∈ comp /\ adjacent8 b a).
Proof.
  unfold grow. rewrite elem_of_app, list_elem_of_filter, Exists_exists.
  tauto.
Qed.

Lemma grow_closed (comp : list cell) :
  closed cells comp -> grow cells comp = comp.
Proof.
  intros Hc. unfold grow.
  replace (filter _ cells) with (@nil cell); [apply app_nil_r|].
  symmetry. apply elem_of_nil_inv. intros b Hb.
  apply list_elem_of_filter in Hb as [[Hnot Hex] Hb].
  apply Exists_exists in Hex as (a & Ha & Hadj).
  apply Hnot. apply (Hc a b Ha). split; assumption.
Qed.

Lemma grow_stuck (comp : list cell) :
  length (grow cells comp) = length comp -> closed cells comp.
Proof.
  unfold grow. rewrite length_app. intros Hlen a b Ha [Hb Hadj].
  destruct (decide (b ∈ comp)) as [Hin|Hnin]; [exact Hin|].
  exfalso.
  assert (Hf : b ∈ filter (fun c => (c ∉ comp) /\ Exists (adjacent8 c) comp) cells).
  { apply list_elem_of_filter. split; [|exact Hb]. split; [exact Hnin|].
    apply Exists_exists. exists a. auto. }
  destruct (filter _ cells); [apply elem_of_nil in Hf; exact Hf|].
  cbn [length] in Hlen. lia.
Qed.

Lemma length_grow (comp : list cell) :
  (length comp <= length (grow cells comp))%nat.
Proof. unfold grow. rewrite length_app. lia. Qed.

Lemma grow_nodup (comp : list cell) : NoDup comp -> NoDup (grow cells comp).
Proof.
  intros Hn. unfold grow. apply NoDup_app. split; [exact Hn|]. split.
  - intros x Hx Hf. apply list_elem_of_filter in Hf as [[Hnot _] _]. auto.
  - apply NoDup_filter. exact cells_nodup.
Qed.

Variable c : cell.

Lemma rounds_start (k : nat) : c ∈ rounds cells c k.
Proof.
  induction k as [|k IH]; [left|].
  cbn [rounds]. apply elem_of_grow. left. exact IH.
Qed.

Lemma rounds_nodup (k : nat) : NoDup (rounds cells c k).
Proof.
  induction k as [|k IH]; [apply NoDup_singleton|].
  cbn [rounds]. apply grow_nodup. exact IH.
Qed.

Lemma rounds_sound (k : nat) (d : cell) :
  d ∈ rounds cells c k -> connected cells c d.
Proof.
  revert d. induction k as [|k IH]; intros d Hd.
  - apply list_elem_of_singleton in Hd as ->. apply rtc_refl.
  - cbn [rounds] in Hd.
    apply elem_of_grow in Hd as [Hd|(Hc & _ & a & Ha & Hadj)].
    + apply IH. exact Hd.
    + eapply rtc_r; [apply IH; exact Ha|]. split; assumption.
Qed.

Lemma rounds_subset (k : nat) (d : cell) :
  d ∈ rounds cells c k -> d ∈ c :: cells.
Proof.
  revert d. induction k as [|k IH]; intros d Hd.
  - apply list_elem_of_singleton in Hd as ->. left.
  - cbn [rounds] in Hd. apply elem_of_grow in Hd as [Hd|(Hc & _)]; [auto|].
    right. exact Hc.
Qed.

(** As long as the flooded set is not closed, each round adds a cell. *)
Lemma rounds_progress (k : nat) :
  closed cells (rounds cells c k) \/ (k < length (rounds cells c k))%nat.
Proof.
  induction k as [|k [IH|IH]].
  - right. cbn. lia.
  - left. cbn [rounds]. rewrite grow_closed; exact IH.
  - destruct (decide (length (grow cells (rounds cells c k)) =
                      length (rounds cells c k))) as [Heq|Hne].
    + left. cbn [rounds]. rewrite grow_closed; apply grow_stuck; exact Heq.
    + right. cbn [rounds]. pose proof (length_grow (rounds cells c k)). lia.
Qed.

Lemma flood_closed : closed cells (flood cells c).
Proof.
  destruct (rounds_progress (length cells)) as [H|H]; [exact H|].
  assert (Hsub : rounds cells c (length cells) ⊆+ c :: cells).
  { apply NoDup_submseteq; [apply rounds_nodup|]. apply rounds_subset. }
  apply submseteq_length_Permutation in Hsub; [|cbn [length]; lia].
  intros a b _ [Hb _]. unfold flood. rewrite Hsub. right. exact Hb.
Qed.

Lemma flood_reach (a d : cell) :
  connected cells a d -> a ∈ flood cells c -> d ∈ flood cells c.
Proof.
  intros Had. induction Had as [|a b d Hab _ IH]; intros Ha; [exact Ha|].
  apply IH. exact (flood_closed a b Ha Hab).
Qed.

(** The flooded set is the component of [c]. *)
Lemma elem_of_flood (d : cell) : d ∈ flood cells c <-> connected cells c d.
Proof.
  split; [apply rounds_sound|].
  intros Hcd. apply (flood_reach c d Hcd). apply rounds_start.
Qed.

Lemma elem_of_feature (d : cell) :
  d ∈ feature cells c <-> d ∈ cells /\ connected cells c d.
Proof.
  unfold feature. rewrite list_elem_of_filter, elem_of_flood. tauto.
Qed.
End flooding.

Section features.
Variable cells : list cell.
Hypothesis cells_nodup : NoDup cells.

Lemma in_feature (c d : cell) :
  d ∈ feature cells c <-> d ∈ cells /\ connected cells c d.
Proof. apply elem_of_feature. exact cells_nodup. Qed.

Lemma connected_in (a b : cell) :
  a ∈ cells -> connected cells a b -> b ∈ cells.
Proof.
  intros Ha Hab. induction Hab as [|a b d [Hb _] _ IH]; [exact Ha|].
  apply IH. exact Hb.
Qed.

Lemma connected_sym (a b : cell) :
  a ∈ cells -> connected cells a b -> connected cells b a.
Proof.
  intros Ha Hab. induction Hab as [|a b d [Hb Hadj] _ IH]; [apply rtc_refl|].
  eapply rtc_r; [apply IH; exact Hb|].
  split; [exact Ha | apply adjacent8_sym; exact Hadj].
Qed.

Lemma connected_trans (a b d : cell) :
  connected cells a b -> connected cells b d -> connected cells a d.
Proof. apply rtc_trans. Qed.

(** Connected cells have the same feature. *)
Lemma feature_connected (a b : cell) :
  a ∈ cells -> connected cells a b -> feature cells a = feature cells b.
Proof.
  intros Ha Hab. unfold feature. apply list_filter_iff. intros d.
  rewrite !elem_of_flood by exact cells_nodup. split; intros H.
  - eapply connected_trans; [|exact H]. apply connected_sym; assumption.
  - eapply connected_trans; eassumption.
Qed.

(** The first cell of the feature of a cell stands for that feature. *)
Lemma feature_first (d : cell) :
  d ∈ cells ->
  exists c0, c0 ∈ cells /\ connected cells d c0 /\
             head (feature cells c0) = Some c0 /\
             feature cells c0 = feature cells d.
Proof.
  intros Hd.
  assert (Hin : d ∈ feature cells d)
    by (apply in_feature; split; [exact Hd | apply rtc_refl]).
  destruct (feature cells d) as [|c0 rest] eqn:Ef;
    [apply elem_of_nil in Hin; contradiction|].
  assert (H0 : c0 ∈ feature cells d) by (rewrite Ef; left).
  apply in_feature in H0 as [Hc0 Hconn].
  assert (Heq : feature cells c0 = feature cells d).
  { symmetry. apply feature_connected; assumption. }
  exists c0. split; [exact Hc0|]. split; [exact Hconn|].
  split; rewrite Heq, Ef; reflexivity.
Qed.

Lemma elem_of_label_features (r : region) :
  r ∈ label_features cells <->
  exists c, c ∈ cells /\ head (feature cells c) = Some c /\ r = feature cells c.
Proof.
  unfold label_features.
  change (map (feature cells)) with (fmap (M:=list) (feature cells)).
  rewrite list_elem_of_fmap. split.
  - intros (c & -> & Hc). apply list_elem_of_filter in Hc as [Hh Hc]. eauto.
  - intros (c & Hc & Hh & ->). exists c. split; [reflexivity|].
    apply list_elem_of_filter. auto.
Qed.

Lemma label_features_nodup : NoDup (label_features cells).
Proof.
  unfold label_features.
  change (map (feature cells)) with (fmap (M:=list) (feature cells)).
  apply NoDup_fmap_2_strong; [|apply NoDup_filter; exact cells_nodup].
  intros a b Ha Hb Heq.
  apply list_elem_of_filter in Ha as [Ha _].
  apply list_elem_of_filter in Hb as [Hb _].
  rewrite Heq, Hb in Ha. congruence.
Qed.

(** Every cell lies in a feature. *)
Lemma feature_of_cell (d : cell) :
  d ∈ cells -> exists r, r ∈ label_features cells /\ d ∈ r.
Proof.
  intros Hd. destruct (feature_first d Hd) as (c0 & Hc0 & Hconn & Hh & Heq).
  exists (feature cells c0). split.
  - apply elem_of_label_features. eauto.
  - rewrite Heq. apply in_feature. split; [exact Hd | apply rtc_refl].
Qed.

(** The cells of a feature are cells, connected to each other. *)
Lemma feature_cells (r : region) (a : cell) :
  r ∈ label_features cells -> a ∈ r -> a ∈ cells.
Proof.
  intros Hr Ha. apply elem_of_label_features in Hr as (c & _ & _ & ->).
  apply in_feature in Ha as [Ha _]. exact Ha.
Qed.

Lemma feature_mutually_connected (r : region) (a b : cell) :
  r ∈ label_features cells -> a ∈ r -> b ∈ r -> connected cells a b.
Proof.
  intros Hr Ha Hb. apply elem_of_label_features in Hr as (c & Hc & _ & ->).
  apply in_feature in Ha as [Ha Hca].
  apply in_feature in Hb as [Hb Hcb].
  eapply connected_trans; [|exact Hcb]. apply connected_sym; assumption.
Qed.

(** A feature holds every cell connected to one of its cells. *)
Lemma feature_absorbs (r : region) (a b : cell) :
  r ∈ label_features cells -> a ∈ r -> connected cells a b -> b ∈ r.
Proof.
  intros Hr Ha Hab. apply elem_of_label_features in Hr as (c & Hc & _ & ->).
  apply in_feature in Ha as [Ha Hca].
  apply in_feature. split; [eapply connected_in; eassumption|].
  eapply connected_trans; eassumption.
Qed.

Lemma feature_nonempty (r : region) : r ∈ label_features cells -> r <> [].
Proof.
  intros Hr. apply elem_of_label_features in Hr as (c & _ & Hh & ->).
  intros Hnil. rewrite Hnil in Hh. discriminate.
Qed.

(** Two features that share a cell are the same feature. *)
Lemma feature_unique (r r' : region) (a : cell) :
  r ∈ label_features cells -> r' ∈ label_features cells ->
  a ∈ r -> a ∈ r' -> r = r'.
Proof.
  intros Hr Hr' Ha Ha'.
  apply elem_of_label_features in Hr as (c & Hc & Hh & ->).
  apply elem_of_label_features in Hr' as (c' & Hc' & Hh' & ->).
  apply in_feature in Ha as [_ Hca].
  apply in_feature in Ha' as [_ Hca'].
  apply feature_connected; [exact Hc|].
  eapply connected_trans; [exact Hca|].
  apply connected_sym; assumption.
Qed.
End features.

(** ** The FLOOR cells of a grid and its regions *)

Lemma positions_nodup (g : grid) : NoDup (positions g).
Proof.
  unfold positions. apply NoDup_bind; [| |apply NoDup_seq].
  - intros y1 y2 c _ _ H1 H2.
    apply list_elem_of_bind in H1 as (x1 & H1 & _).
    apply list_elem_of_bind in H2 as (x2 & H2 & _).
    apply list_elem_of_singleton in H1. apply list_elem_of_singleton in H2.
    rewrite H1 in H2. injection H2 as H2 _. lia.
  - intros y _. apply NoDup_bind; [| |apply NoDup_seq].
    + intros x1 x2 c _ _ H1 H2.
      apply list_elem_of_singleton in H1. apply list_elem_of_singleton in H2.
      rewrite H1 in H2. injection H2 as H2. lia.
    + intros x _. apply NoDup_singleton.
Qed.

Lemma elem_of_positions (height width : Z) (g : grid) (c : cell) :
  shaped height width g ->
  c ∈ positions g <-> 0 <= c.1 < height /\ 0 <= c.2 < width.
Proof.
  intros (Hh & Hw & Hl & Hrows). unfold positions.
  assert (Hwidth : g <> [] -> grid_width g = Z.to_nat width).
  { destruct g as [|row g']; [congruence|]. intros _.
    apply Forall_cons in Hrows as [Hrow _]. exact Hrow. }
  rewrite list_elem_of_bind. split.
  - intros (y & Hx & Hy). apply list_elem_of_bind in Hx as (x & Hc & Hx).
    apply list_elem_of_singleton in Hc as ->.
    apply elem_of_seq in Hy, Hx. cbn [fst snd].
    rewrite Hwidth in Hx by (intros ->; cbn in Hy; lia). lia.
  - intros [Hy Hx]. exists (Z.to_nat c.1). split.
    + apply list_elem_of_bind. exists (Z.to_nat c.2). split.
      * apply list_elem_of_singleton. destruct c as [y x]. cbn [fst snd] in *.
        f_equal; lia.
      * apply elem_of_seq. rewrite Hwidth by (intros ->; cbn in Hl; lia). lia.
    + apply elem_of_seq. lia.
Qed.

Lemma floor_cells_nodup (g : grid) : NoDup (floor_cells g).
Proof. unfold floor_cells. apply NoDup_filter. apply positions_nodup. Qed.

Lemma elem_of_floor_cells (height width : Z) (g : grid) (c : cell) :
  shaped height width g ->
  c ∈ floor_cells g <->
  0 <= c.1 < height /\ 0 <= c.2 < width /\ grid_get g c.1 c.2 = Some FLOOR.
Proof.
  intros Hg. unfold floor_cells.
  rewrite list_elem_of_filter, (elem_of_positions _ _ _ _ Hg).
  unfold is_floor. tauto.
Qed.

Lemma region_cells (height width : Z) (g : grid) (r : region) (c : cell) :
  shaped height width g -> r ∈ flood_fill_regions g -> c ∈ r ->
  0 <= c.1 < height /\ 0 <= c.2 < width /\ grid_get g c.1 c.2 = Some FLOOR.
Proof.
  intros Hg Hr Hc. apply (elem_of_floor_cells _ _ _ _ Hg).
  eapply feature_cells; [apply floor_cells_nodup | exact Hr | exact Hc].
Qed.

Lemma region_nonempty (g : grid) (r : region) :
  r ∈ flood_fill_regions g -> r <> [].
Proof. apply feature_nonempty. Qed.

Lemma foldl_choice {A} (f : A -> A -> A) (l : list A) (best : A) :
  (forall b x, f b x = b \/ f b x = x) -> foldl f best l ∈ best :: l.
Proof.
  intros Hf. revert best. induction l as [|x l IH]; intros best; cbn [foldl].
  - left.
  - specialize (IH (f best x)). apply elem_of_cons in IH as [->|IH].
    + destruct (Hf best x) as [->| ->]; [left | right; left].
    + right. right. exact IH.
Qed.

(** The largest region is one of the regions. *)
Lemma largest_region_elem (regions : list region) :
  regions <> [] -> largest_region regions ∈ regions.
Proof.
  destruct regions as [|r rs]; [congruence|]. intros _. unfold largest_region.
  apply foldl_choice. intros b x. destruct (_ <? _)%nat; auto.
Qed.

(** ** A carved corridor joins its two regions *)

Lemma connected_mono (cells cells' : list cell) (a b : cell) :
  (forall c, c ∈ cells -> c ∈ cells') ->
  connected cells a b -> connected cells' a b.
Proof.
  intros Hsub Hab. induction Hab as [|a b d [Hb Hadj] _ IH]; [apply rtc_refl|].
  eapply rtc_l; [|exact IH]. split; [apply Hsub; exact Hb | exact Hadj].
Qed.

Lemma row_connected_up (cells : list cell) (y xa : Z) (n : nat) :
  (forall x, xa <= x <= xa + Z.of_nat n -> (y, x) ∈ cells) ->
  connected cells (y, xa) (y, xa + Z.of_nat n).
Proof.
  induction n as [|n IH]; intros Hrow.
  - replace (xa + Z.of_nat 0) with xa by lia. apply rtc_refl.
  - eapply rtc_r; [apply IH; intros x Hx; apply Hrow; lia|].
    split; [apply Hrow; lia|]. unfold adjacent8. cbn [fst snd]. lia.
Qed.

Lemma column_connected_up (cells : list cell) (x ya : Z) (n : nat) :
  (forall y, ya <= y <= ya + Z.of_nat n -> (y, x) ∈ cells) ->
  connected cells (ya, x) (ya + Z.of_nat n, x).
Proof.
  induction n as [|n IH]; intros Hcol.
  - replace (ya + Z.of_nat 0) with ya by lia. apply rtc_refl.
  - eapply rtc_r; [apply IH; intros y Hy; apply Hcol; lia|].
    split; [apply Hcol; lia|]. unfold adjacent8. cbn [fst snd]. lia.
Qed.

Lemma row_connected (cells : list cell) (y xa xb : Z) :
  (forall x, between xa xb x -> (y, x) ∈ cells) ->
  connected cells (y, xa) (y, xb).
Proof.
  unfold between. intros Hrow. destruct (Z.le_gt_cases xa xb) as [Hle|Hgt].
  - replace xb with (xa + Z.of_nat (Z.to_nat (xb - xa))) by lia.
    apply row_connected_up. intros x Hx. apply Hrow. lia.
  - apply connected_sym; [apply Hrow; lia|].
    pose proof (row_connected_up cells y xb (Z.to_nat (xa - xb))) as Hup.
    replace (xb + Z.of_nat (Z.to_nat (xa - xb))) with xa in Hup by lia.
    apply Hup. intros x Hx. apply Hrow. lia.
Qed.

Lemma column_connected (cells : list cell) (x ya yb : Z) :
  (forall y, between ya yb y -> (y, x) ∈ cells) ->
  connected cells (ya, x) (yb, x).
Proof.
  unfold between. intros Hcol. destruct (Z.le_gt_cases ya yb) as [Hle|Hgt].
  - replace yb with (ya + Z.of_nat (Z.to_nat (yb - ya))) by lia.
    apply column_connected_up. intros y Hy. apply Hcol. lia.
  - apply connected_sym; [apply Hcol; lia|].
    pose proof (column_connected_up cells x yb (Z.to_nat (ya - yb))) as Hup.
    replace (yb + Z.of_nat (Z.to_nat (ya - yb))) with ya in Hup by lia.
    apply Hup. intros y Hy. apply Hcol. lia.
Qed.

(** The two ends of a corridor whose cells are all in [cells] are
    connected. *)
Lemma corridor_connected (cells : list cell) (u : Q) (p q : cell) :
  (forall c, on_corridor u p q c -> c ∈ cells) ->
  connected cells p q.
Proof.
  destruct p as [y1 x1], q as [y2 x2]. unfold on_corridor. cbn [fst snd].
  intros Hon. destruct (Qltb u (1 # 2)).
  - apply (connected_trans _ _ (y1, x2)).
    + apply row_connected. intros x Hx. apply Hon. left. auto.
    + apply column_connected. intros y Hy. apply Hon. right. auto.
  - apply (connected_trans _ _ (y2, x1)).
    + apply column_connected. intros y Hy. apply Hon. left. auto.
    + apply row_connected. intros x Hx. apply Hon. right. auto.
Qed.

Lemma on_corridor_bounds (height width : Z) (u : Q) (p q c : cell) :
  0 <= p.1 < height -> 0 <= p.2 < width ->
  0 <= q.1 < height -> 0 <= q.2 < width ->
  on_corridor u p q c -> 0 <= c.1 < height /\ 0 <= c.2 < width.
Proof.
  unfold on_corridor, between. destruct (Qltb u (1 # 2)); lia.
Qed.

Lemma solid_mono (cells cells' : list cell) (r : region) :
  (forall c, c ∈ cells -> c ∈ cells') -> solid cells r -> solid cells' r.
Proof.
  intros Hsub (Hne & Hin & Hconn). split; [exact Hne|]. split.
  - intros a Ha. apply Hsub, Hin, Ha.
  - intros a b Ha Hb. apply (connected_mono cells); [exact Hsub|]. auto.
Qed.

Lemma region_solid (g : grid) (r : region) :
  r ∈ flood_fill_regions g -> solid (floor_cells g) r.
Proof.
  intros Hr. split; [exact (region_nonempty g r Hr)|]. split.
  - intros a Ha. eapply feature_cells; [apply floor_cells_nodup | exact Hr | exact Ha].
  - intros a b Ha Hb. eapply feature_mutually_connected;
      [apply floor_cells_nodup | exact Hr | exact Ha | exact Hb].
Qed.

Lemma solid_bounds (height width : Z) (g : grid) (r : region) :
  shaped height width g -> solid (floor_cells g) r ->
  region_in_bounds height width r.
Proof.
  intros Hg (_ & Hin & _) c Hc.
  apply Hin, (elem_of_floor_cells _ _ _ _ Hg) in Hc. tauto.
Qed.

(** After [carve_corridor] on two connected sets of FLOOR cells, the FLOOR
    cells are still FLOOR and the cells of both sets are connected to each
    other. *)
Lemma carve_corridor_joins (height width : Z) (g g' : grid)
    (main candidate : region) (u : Q) :
  shaped height width g ->
  solid (floor_cells g) main -> solid (floor_cells g) candidate ->
  carve_corridor g main candidate u = Some g' ->
  shaped height width g' /\
  (forall c, c ∈ floor_cells g -> c ∈ floor_cells g') /\
  (forall a b, a ∈ main ++ candidate -> b ∈ main ++ candidate ->
     connected (floor_cells g') a b).
Proof.
  intros Hg Hm Hc Hcarve.
  destruct (carve_corridor_cells height width g main candidate u Hg)
    as (g1 & p & q & _ & Hp & Hq & Hrun & Hg' & Hget);
    try (apply Hm); try (apply Hc);
    try (eapply solid_bounds; eassumption).
  rewrite Hrun in Hcarve. injection Hcarve as ->.
  assert (Hsub : forall c, c ∈ floor_cells g -> c ∈ floor_cells g').
  { intros c Hin. apply (elem_of_floor_cells _ _ _ _ Hg) in Hin as (Hy & Hx & Hf).
    apply (elem_of_floor_cells _ _ _ _ Hg'). split; [exact Hy|]. split; [exact Hx|].
    destruct (Hget c.1 c.2 Hy Hx) as [Hon Hoff].
    rewrite <- surjective_pairing in Hon, Hoff.
    destruct (decide (on_corridor u p q c)) as [H|H]; [auto|].
    rewrite Hoff by exact H. exact Hf. }
  split; [exact Hg'|]. split; [exact Hsub|].
  destruct (solid_bounds _ _ _ _ Hg Hm p Hp) as [Hpy Hpx].
  destruct (solid_bounds _ _ _ _ Hg Hc q Hq) as [Hqy Hqx].
  assert (Hpq : connected (floor_cells g') p q).
  { apply (corridor_connected _ u). intros c Hon.
    destruct (on_corridor_bounds height width u p q c) as [Hy Hx]; try assumption.
    apply (elem_of_floor_cells _ _ _ _ Hg'). split; [exact Hy|]. split; [exact Hx|].
    apply Hget; [exact Hy | exact Hx |]. rewrite <- surjective_pairing. exact Hon. }
  destruct (solid_mono _ _ _ Hsub Hm) as (_ & Hinm & Hwm).
  destruct (solid_mono _ _ _ Hsub Hc) as (_ & Hinc & Hwc).
  assert (Hacross : forall a b, a ∈ main -> b ∈ candidate ->
            connected (floor_cells g') a b).
  { intros a b Ha Hb.
    apply (connected_trans _ _ p); [exact (Hwm a p Ha Hp)|].
    apply (connected_trans _ _ q); [exact Hpq|].
    exact (Hwc q b Hq Hb). }
  intros a b Ha Hb. apply elem_of_app in Ha, Hb.
  destruct Ha as [Ha|Ha], Hb as [Hb|Hb].
  - exact (Hwm a b Ha Hb).
  - apply Hacross; assumption.
  - apply connected_sym; [exact (Hinm b Hb)|].
    apply Hacross; assumption.
  - exact (Hwc a b Ha Hb).
Qed.

(** Cells that are connected to each other lie in one feature, and in no
    other. *)
Lemma one_feature_holds (cells : list cell) (group : list cell) (a0 : cell) :
  NoDup cells -> a0 ∈ group ->
  (forall a, a ∈ group -> a ∈ cells) ->
  (forall a b, a ∈ group -> b ∈ group -> connected cells a b) ->
  exists (i : nat) (r : region),
    label_features cells !! i = Some r /\
    (forall a, a ∈ group -> a ∈ r) /\
    (forall (j : nat) (r' : region), label_features cells !! j = Some r' ->
       (forall a, a ∈ group -> a ∈ r') -> j = i).
Proof.
  intros Hnd Ha0 Hin Hconn.
  destruct (feature_of_cell cells Hnd a0 (Hin a0 Ha0)) as (r & Hr & Har).
  destruct (proj1 (list_elem_of_lookup _ _) Hr) as [i Hi].
  exists i, r. split; [exact Hi|]. split.
  - intros a Ha. apply (feature_absorbs cells Hnd r a0 a Hr Har).
    apply Hconn; assumption.
  - intros j r' Hj Hall.
    assert (Hr' : r' ∈ label_features cells)
      by (eapply list_elem_of_lookup_2; exact Hj).
    assert (Heq : r = r')
      by (apply (feature_unique cells Hnd r r' a0); auto).
    subst r'. eapply NoDup_lookup; [apply label_features_nodup, Hnd | exact Hj | exact Hi].
Qed.

(** ** Loops with an invariant over the iterations done *)

Lemma for_each_prefix {A S} (I : list A -> S -> Prop) (l : list A)
    (body : A -> S -> option S) (s : S) :
  I [] s ->
  (forall done a s, a ∈ l -> I done s ->
     exists s', body a s = Some s' /\ I (done ++ [a]) s') ->
  exists s', for_each l body s = Some s' /\ I l s'.
Proof.
  intros Hstart Hstep.
  assert (Hgen : forall rest done s, (forall a, a ∈ rest -> a ∈ l) -> I done s ->
            exists s', for_each rest body s = Some s' /\ I (done ++ rest) s').
  { induction rest as [|a rest IH]; intros done s0 Hsub Hs0.
    - exists s0. rewrite app_nil_r. auto.
    - destruct (Hstep done a s0) as (s1 & Hb & Hs1); [apply Hsub; left|exact Hs0|].
      destruct (IH (done ++ [a]) s1) as (s' & Hrun & Hs');
        [intros a' Ha'; apply Hsub; right; exact Ha' | exact Hs1 |].
      exists s'. cbn [for_each]. rewrite Hb. split; [exact Hrun|].
      rewrite <- app_assoc in Hs'. exact Hs'. }
  apply (Hgen l [] s); auto.
Qed.

(** ** Allocation and seeding *)

Lemma np_zeros_shaped (height width : Z) :
  0 <= height -> 0 <= width ->
  exists g0, np_zeros height width = Some g0 /\ shaped height width g0.
Proof.
  intros Hh Hw. unfold np_zeros.
  destruct (Z.ltb_spec height 0), (Z.ltb_spec width 0); try lia.
  cbn [orb]. eexists. split; [reflexivity|].
  split; [exact Hh|]. split; [exact Hw|]. split.
  - apply length_replicate.
  - apply Forall_replicate. apply length_replicate.
Qed.

Lemma np_zeros_negative (height width : Z) :
  height < 0 \/ width < 0 -> np_zeros height width = None.
Proof.
  intros H. unfold np_zeros.
  destruct (Z.ltb_spec height 0), (Z.ltb_spec width 0); try lia; reflexivity.
Qed.

Lemma seed_grid_border (rng : nat -> Q) (fill_p : Q) (width height : Z)
    (g0 : grid) (k0 : nat) :
  shaped height width g0 ->
  exists s, seed_grid rng fill_p width height (g0, k0) = Some s /\
            shaped height width s.1 /\ border_wall height width s.1.
Proof.
  intros Hg0. unfold seed_grid. rewrite for_each_nested.
  destruct (for_each_prefix
    (fun (done : list (Z * Z)) (s : grid * nat) =>
       shaped height width s.1 /\
       forall y x, 0 <= y < height -> 0 <= x < width -> (y, x) ∈ done ->
         is_edge x y width height = true -> grid_get s.1 y x = Some WALL)
    (y ← range 0 height; x ← range 0 width; [(y, x)])
    (fun ab s => seed_cell rng fill_p width height ab.1 ab.2 s) (g0, k0))
    as (s & Hrun & Hs & Hborder).
  - split; [exact Hg0|]. intros y x _ _ Hin. apply elem_of_nil in Hin. contradiction.
  - intros done [y x] [g k] Hin [Hg Hdone]. cbn [fst snd] in *.
    apply elem_of_pairs in Hin as [Hy Hx]. cbn [fst snd] in *.
    apply elem_of_range in Hy, Hx.
    unfold seed_cell. cbn [fst snd].
    destruct (is_edge x y width height) eqn:Hedge.
    + destruct (grid_set_in_bounds height width g y x WALL Hg)
        as (g1 & -> & Hg1 & Hget); [lia | lia |].
      eexists. split; [reflexivity|]. cbn [fst snd]. split; [exact Hg1|].
      intros y' x' Hy' Hx' Hin' Hedge'. rewrite Hget by assumption.
      destruct (decide (y' = y /\ x' = x)) as [_|Hne]; [reflexivity|].
      apply Hdone; try assumption.
      apply elem_of_app in Hin' as [?|Heq]; [assumption|].
      apply list_elem_of_singleton in Heq. injection Heq as -> ->.
      exfalso. auto.
    + destruct (grid_set_in_bounds height width g y x
                  (if Qltb (rng k) fill_p then WALL else FLOOR) Hg)
        as (g1 & -> & Hg1 & Hget); [lia | lia |].
      eexists. split; [reflexivity|]. cbn [fst snd]. split; [exact Hg1|].
      intros y' x' Hy' Hx' Hin' Hedge'. rewrite Hget by assumption.
      destruct (decide (y' = y /\ x' = x)) as [[-> ->]|Hne]; [congruence|].
      apply Hdone; try assumption.
      apply elem_of_app in Hin' as [?|Heq]; [assumption|].
      apply list_elem_of_singleton in Heq. injection Heq as -> ->.
      exfalso. auto.
  - exists s. split; [exact Hrun|]. split; [exact Hs|].
    intros y x Hy Hx Hedge. apply Hborder; try assumption.
    apply elem_of_pairs. cbn [fst snd]. rewrite !elem_of_range. lia.
Qed.

(** ** The border under the automaton, the carver and the smoother *)

Lemma outside_counts (g : grid) (width height : Z) (p : Z * Z) :
  ~ (0 <= p.1 < width /\ 0 <= p.2 < height) ->
  wall_or_outside g width height p = true.
Proof.
  intros Hout. unfold wall_or_outside, in_bounds.
  destruct (Z.leb_spec 0 p.1), (Z.ltb_spec p.1 width),
    (Z.leb_spec 0 p.2), (Z.ltb_spec p.2 height); cbn [andb negb orb];
    try reflexivity; lia.
Qed.

Lemma border_counts (g : grid) (width height : Z) (p : Z * Z) :
  border_wall height width g ->
  0 <= p.1 < width -> 0 <= p.2 < height ->
  is_edge p.1 p.2 width height = true ->
  wall_or_outside g width height p = true.
Proof.
  intros Hb Hx Hy Hedge. unfold wall_or_outside.
  rewrite (Hb p.2 p.1 Hy Hx Hedge). apply orb_true_r.
Qed.

Lemma is_edge_true (x y width height : Z) :
  is_edge x y width height = true <->
  x = 0 \/ y = 0 \/ x = width - 1 \/ y = height - 1.
Proof.
  unfold is_edge.
  destruct (Z.eqb_spec x 0), (Z.eqb_spec y 0), (Z.eqb_spec x (width - 1)),
    (Z.eqb_spec y (height - 1)); cbn [orb]; split; intros H;
    try reflexivity; try discriminate; lia.
Qed.

(** With the border all WALL, a neighbour that is outside the grid or on one
    of the border rows or columns counts. *)
Lemma border_or_outside_counts (g : grid) (width height : Z) (p : Z * Z) :
  border_wall height width g ->
  p.1 <= 0 \/ p.2 <= 0 \/ width - 1 <= p.1 \/ height - 1 <= p.2 ->
  wall_or_outside g width height p = true.
Proof.
  intros Hb Hp.
  destruct (decide (0 <= p.1 < width /\ 0 <= p.2 < height)) as [[Hx Hy]|Hout].
  - apply border_counts; try assumption. apply is_edge_true. lia.
  - apply outside_counts. exact Hout.
Qed.

(** A border cell of a grid whose border is all WALL has five wall
    neighbours or more. *)
Lemma border_wall_count (g : grid) (width height x y : Z) :
  border_wall height width g ->
  0 <= x < width -> 0 <= y < height ->
  is_edge x y width height = true ->
  5 <= wall_count g width height x y.
Proof.
  intros Hb Hx Hy Hedge. apply is_edge_true in Hedge.
  unfold wall_count, neighbours8. rewrite !length_filter_cons.
  cbn [List.filter length Z.of_nat].
  assert (Hc : forall p, p.1 <= 0 \/ p.2 <= 0 \/ width - 1 <= p.1 \/
                         height - 1 <= p.2 ->
                 wall_or_outside g width height p = true)
    by (intros p; apply border_or_outside_counts; exact Hb).
  destruct Hedge as [ -> | [ -> | [ -> | -> ] ] ].
  - rewrite (Hc (0 - 1, y - 1)), (Hc (0 - 1, y)), (Hc (0 - 1, y + 1)),
      (Hc (0, y - 1)), (Hc (0, y + 1)) by (cbn [fst snd]; lia).
    destruct (wall_or_outside _ _ _ (0 + 1, y - 1)),
      (wall_or_outside _ _ _ (0 + 1, y)),
      (wall_or_outside _ _ _ (0 + 1, y + 1)); lia.
  - rewrite (Hc (x - 1, 0 - 1)), (Hc (x, 0 - 1)), (Hc (x + 1, 0 - 1)),
      (Hc (x - 1, 0)), (Hc (x + 1, 0)) by (cbn [fst snd]; lia).
    destruct (wall_or_outside _ _ _ (x - 1, 0 + 1)),
      (wall_or_outside _ _ _ (x, 0 + 1)),
      (wall_or_outside _ _ _ (x + 1, 0 + 1)); lia.
  - rewrite (Hc (width - 1 + 1, y - 1)), (Hc (width - 1 + 1, y)),
      (Hc (width - 1 + 1, y + 1)), (Hc (width - 1, y - 1)),
      (Hc (width - 1, y + 1)) by (cbn [fst snd]; lia).
    destruct (wall_or_outside _ _ _ (width - 1 - 1, y - 1)),
      (wall_or_outside _ _ _ (width - 1 - 1, y)),
      (wall_or_outside _ _ _ (width - 1 - 1, y + 1)); lia.
  - rewrite (Hc (x - 1, height - 1 + 1)), (Hc (x, height - 1 + 1)),
      (Hc (x + 1, height - 1 + 1)), (Hc (x - 1, height - 1)),
      (Hc (x + 1, height - 1)) by (cbn [fst snd]; lia).
    destruct (wall_or_outside _ _ _ (x - 1, height - 1 - 1)),
      (wall_or_outside _ _ _ (x, height - 1 - 1)),
      (wall_or_outside _ _ _ (x + 1, height - 1 - 1)); lia.
Qed.

Lemma ca_step_border (g g' : grid) (width height birth survive : Z) :
  shaped height width g -> border_wall height width g -> survive <= 5 ->
  ca_step g width height birth survive = Some g' ->
  border_wall height width g'.
Proof.
  intros Hg Hb Hs Hstep.
  destruct (ca_step_cells g width height birth survive Hg) as (g1 & Hrun & _ & Hget).
  rewrite Hrun in Hstep. injection Hstep as ->.
  intros y x Hy Hx Hedge. rewrite Hget by assumption.
  rewrite (Hb y x Hy Hx Hedge). cbn [fmap option_fmap option_map].
  pose proof (border_wall_count g width height x y Hb Hx Hy Hedge) as Hn.
  unfold ca_value. cbn [Z.eqb WALL Pos.eqb].
  destruct (Z.geb_spec (wall_count g width height x y) survive); [reflexivity|lia].
Qed.

Lemma micro_smooth_border (g g' : grid) (width height : Z) :
  shaped height width g -> border_wall height width g ->
  micro_smooth g width height = Some g' ->
  border_wall height width g'.
Proof.
  intros Hg Hb Hsm.
  destruct (micro_smooth_cells g width height Hg) as (g1 & Hrun & _ & Hget).
  rewrite Hrun in Hsm. injection Hsm as ->.
  intros y x Hy Hx Hedge. rewrite Hget by assumption.
  destruct (decide _) as [Hint|_]; [|exact (Hb y x Hy Hx Hedge)].
  apply is_edge_true in Hedge. lia.
Qed.

Lemma carve_corridor_border (height width : Z) (g g' : grid)
    (region_a region_b : region) (u : Q) :
  shaped height width g -> border_wall height width g ->
  region_a <> [] -> region_b <> [] ->
  region_interior height width region_a ->
  region_interior height width region_b ->
  carve_corridor g region_a region_b u = Some g' ->
  border_wall height width g'.
Proof.
  intros Hg Hb Ha Hnb Hia Hib Hcarve.
  destruct (carve_corridor_cells height width g region_a region_b u Hg Ha Hnb)
    as (g1 & p & q & _ & Hp & Hq & Hrun & _ & Hget).
  { intros c Hc. specialize (Hia c Hc). lia. }
  { intros c Hc. specialize (Hib c Hc). lia. }
  rewrite Hrun in Hcarve. injection Hcarve as ->.
  intros y x Hy Hx Hedge.
  destruct (Hget y x Hy Hx) as [_ Hoff]. rewrite Hoff; [exact (Hb y x Hy Hx Hedge)|].
  specialize (Hia p Hp). specialize (Hib q Hq). apply is_edge_true in Hedge.
  unfold on_corridor, between. cbn [fst snd].
  destruct (Qltb u (1 # 2)); lia.
Qed.

(** In a grid whose border is all WALL the regions are off the border. *)
Lemma region_off_border (height width : Z) (g : grid) (r : region) :
  shaped height width g -> border_wall height width g ->
  r ∈ flood_fill_regions g -> region_interior height width r.
Proof.
  intros Hg Hb Hr c Hc.
  destruct (region_cells _ _ _ _ _ Hg Hr Hc) as (Hy & Hx & Hfloor).
  destruct (is_edge c.2 c.1 width height) eqn:Hedge.
  - rewrite (Hb c.1 c.2 Hy Hx Hedge) in Hfloor. discriminate.
  - assert (Hn : ~ (c.2 = 0 \/ c.1 = 0 \/ c.2 = width - 1 \/ c.1 = height - 1)).
    { rewrite <- is_edge_true. congruence. }
    lia.
Qed.

(** ** The run *)

Lemma carve_calls_snoc (trace : list event) (e : event) :
  carve_calls (trace ++ [e]) =
  carve_calls trace ++ match e with
                       | Carved main candidate _ => [(main, candidate)]
                       | _ => []
                       end.
Proof. unfold carve_calls. rewrite omap_app. destruct e; reflexivity. Qed.

Lemma sound_state_record (p : params) (st : run_state) (g : grid) (e : event)
    (k : nat) :
  sound_state p st -> sound_grid p g -> event_grid e = g ->
  sound_state p {| st_grid := g; st_draws := k; st_trace := st_trace st ++ [e] |}.
Proof.
  intros (_ & Htrace & g0 & rest & Hseed & Hb0) Hg He.
  split; [exact Hg|]. cbn [st_trace]. split.
  - apply Forall_app. split; [exact Htrace|].
    apply Forall_singleton. rewrite He. exact Hg.
  - exists g0, (rest ++ [e]). rewrite Hseed. split; [reflexivity | exact Hb0].
Qed.

Lemma automaton_iteration_sound (p : params) (st : run_state) :
  sound_state p st ->
  exists st', automaton_iteration p st = Some st' /\ sound_state p st' /\
              carve_calls (st_trace st') = carve_calls (st_trace st).
Proof.
  intros Hst. pose proof Hst as [[Hg Hb] _]. unfold automaton_iteration.
  destruct (ca_step_cells (st_grid st) (width p) (height p) (birth p) (survive p) Hg)
    as (g' & Hrun & Hg' & _).
  rewrite Hrun. cbn [mbind option_bind]. eexists. split; [reflexivity|]. split.
  - apply sound_state_record; [exact Hst | | reflexivity].
    split; [exact Hg'|]. intros Hs.
    eapply ca_step_border; [exact Hg | exact (Hb Hs) | exact Hs | exact Hrun].
  - cbn [st_trace]. rewrite carve_calls_snoc. apply app_nil_r.
Qed.

Lemma smoothing_iteration_sound (p : params) (st : run_state) :
  sound_state p st ->
  exists st', smoothing_iteration p st = Some st' /\ sound_state p st' /\
              carve_calls (st_trace st') = carve_calls (st_trace st).
Proof.
  intros Hst. pose proof Hst as [[Hg Hb] _]. unfold smoothing_iteration.
  destruct (micro_smooth_cells (st_grid st) (width p) (height p) Hg)
    as (g' & Hrun & Hg' & _).
  rewrite Hrun. cbn [mbind option_bind]. eexists. split; [reflexivity|]. split.
  - apply sound_state_record; [exact Hst | | reflexivity].
    split; [exact Hg'|]. intros Hs.
    eapply micro_smooth_border; [exact Hg | exact (Hb Hs) | exact Hrun].
  - cbn [st_trace]. rewrite carve_calls_snoc. apply app_nil_r.
Qed.

Lemma automaton_phase_sound (p : params) (rng : nat -> Q) :
  0 <= width p -> 0 <= height p ->
  exists st0, automaton_phase p rng = Some st0 /\ sound_state p st0 /\
              carve_calls (st_trace st0) = [].
Proof.
  intros Hw Hh. unfold automaton_phase.
  destruct (np_zeros_shaped (height p) (width p) Hh Hw) as (g0 & -> & Hg0).
  cbn [mbind option_bind].
  destruct (seed_grid_border rng (fill_prob p) (width p) (height p) g0 0 Hg0)
    as (s & -> & Hs & Hb).
  cbn [mbind option_bind].
  apply (for_each_invariant
           (fun st => sound_state p st /\ carve_calls (st_trace st) = [])).
  - intros _ st _ [Hst Hcalls].
    destruct (automaton_iteration_sound p st Hst) as (st' & Hrun & Hst' & Hc).
    exists st'. split; [exact Hrun|]. split; [exact Hst'|]. congruence.
  - split; [|reflexivity].
    assert (Hsound : sound_grid p s.1) by (split; [exact Hs | intros _; exact Hb]).
    split; [exact Hsound|]. cbn [st_trace]. split.
    + apply Forall_singleton. exact Hsound.
    + exists s.1, []. split; [reflexivity | exact Hb].
Qed.

(** The loop over the regions: it ends; it calls [carve_corridor] on the
    regions that pass the test, in order; FLOOR cells stay FLOOR; and the
    cells of [main] and of each carved region end connected to each other. *)
Lemma connect_regions_sound (rng : nat -> Q) (p : params) (st0 : run_state) :
  sound_state p st0 ->
  exists st1, connect_regions rng p st0 = Some st1 /\ sound_state p st1 /\
    carve_calls (st_trace st1) =
      carve_calls (st_trace st0) ++
      (pair (largest_region (flood_fill_regions (st_grid st0))) <$>
         filter (fun r => carved p (largest_region
                                      (flood_fill_regions (st_grid st0))) r = true)
                (flood_fill_regions (st_grid st0))) /\
    (forall c, c ∈ floor_cells (st_grid st0) -> c ∈ floor_cells (st_grid st1)) /\
    (forall r, r ∈ flood_fill_regions (st_grid st0) ->
       carved p (largest_region (flood_fill_regions (st_grid st0))) r = true ->
       forall a b,
         a ∈ largest_region (flood_fill_regions (st_grid st0)) ++ r ->
         b ∈ largest_region (flood_fill_regions (st_grid st0)) ++ r ->
         connected (floor_cells (st_grid st1)) a b).
Proof.
  intros Hst0. pose proof Hst0 as [[Hg0 Hb0] _].
  unfold connect_regions.
  remember (flood_fill_regions (st_grid st0)) as regions eqn:Hregs.
  destruct regions as [|r0 rs] eqn:Eregions.
  { exists st0. split; [reflexivity|]. split; [exact Hst0|].
    split; [symmetry; apply app_nil_r|]. split; [auto|].
    intros r Hr. apply elem_of_nil in Hr. contradiction. }
  rewrite <- Eregions in *.
  set (main := largest_region regions).
  assert (Hmain : main ∈ regions).
  { apply largest_region_elem. rewrite Eregions. discriminate. }
  rewrite Hregs in Hmain.
  assert (Hall : forall r, r ∈ regions -> r ∈ flood_fill_regions (st_grid st0))
    by (rewrite Hregs; auto).
  destruct (for_each_prefix
    (fun (done : list region) (st : run_state) =>
       sound_state p st /\
       carve_calls (st_trace st) =
         carve_calls (st_trace st0) ++
         (pair main <$> filter (fun r => carved p main r = true) done) /\
       (forall c, c ∈ floor_cells (st_grid st0) -> c ∈ floor_cells (st_grid st)) /\
       (forall r, r ∈ done -> carved p main r = true ->
          forall a b, a ∈ main ++ r -> b ∈ main ++ r ->
            connected (floor_cells (st_grid st)) a b))
    regions (fun candidate st => connect_region rng p main candidate st) st0)
    as (st1 & Hrun & Hst1 & Hcalls & Hfloor & Hjoin).
  - split; [exact Hst0|]. split; [symmetry; apply app_nil_r|]. split; [auto|].
    intros r Hr. apply elem_of_nil in Hr. contradiction.
  - intros done r st Hr (Hst & Hcalls & Hfloor & Hjoin).
    pose proof Hst as [[Hg Hb] _].
    unfold connect_region. destruct (carved p main r) eqn:Hcarved.
    + assert (Hsm : solid (floor_cells (st_grid st)) main)
        by (apply (solid_mono _ _ _ Hfloor), region_solid, Hmain).
      assert (Hsr : solid (floor_cells (st_grid st)) r)
        by (apply (solid_mono _ _ _ Hfloor), region_solid, Hall, Hr).
      destruct (carve_corridor_cells (height p) (width p) (st_grid st) main r
                  (rng (st_draws st)) Hg)
        as (g' & _ & _ & _ & _ & _ & Hcarve & _);
        try (apply Hsm); try (apply Hsr);
        try (eapply solid_bounds; eassumption).
      destruct (carve_corridor_joins _ _ _ _ _ _ _ Hg Hsm Hsr Hcarve)
        as (Hg' & Hsub & Hconn).
      rewrite Hcarve. cbn [mbind option_bind].
      eexists. split; [reflexivity|]. split; [|split; [|split]].
      * apply sound_state_record; [exact Hst | | reflexivity].
        split; [exact Hg'|]. intros Hs.
        eapply carve_corridor_border;
          [exact Hg | exact (Hb Hs) | apply Hsm | apply Hsr | | | exact Hcarve].
        -- eapply region_off_border; [exact Hg0 | exact (Hb0 Hs) | exact Hmain].
        -- eapply region_off_border;
             [exact Hg0 | exact (Hb0 Hs) | exact (Hall r Hr)].
      * cbn [st_trace]. rewrite carve_calls_snoc, Hcalls, filter_app.
        rewrite filter_cons_True by exact Hcarved.
        rewrite fmap_app, app_assoc. reflexivity.
      * cbn [st_grid]. auto.
      * cbn [st_grid]. intros r' Hr' Hc' a b Ha Hb'.
        apply elem_of_app in Hr' as [Hr'|Hr'].
        -- apply (connected_mono (floor_cells (st_grid st))); [exact Hsub|].
           apply (Hjoin r'); assumption.
        -- apply list_elem_of_singleton in Hr' as ->. apply Hconn; assumption.
    + exists st. split; [reflexivity|]. split; [exact Hst|]. split; [|split].
      * rewrite filter_app, filter_cons_False by congruence.
        rewrite filter_nil, app_nil_r. exact Hcalls.
      * exact Hfloor.
      * intros r' Hr' Hc' a b Ha Hb'.
        apply elem_of_app in Hr' as [Hr'|Hr'].
        -- apply (Hjoin r'); assumption.
        -- apply list_elem_of_singleton in Hr' as ->. congruence.
  - exists st1. split; [exact Hrun|]. split; [exact Hst1|].
    split; [exact Hcalls|]. split; [exact Hfloor|]. exact Hjoin.
Qed.

(** A run on non-negative dimensions ends, through the three phases. *)
Lemma run_cave_sound (p : params) (rng : nat -> Q) :
  0 <= width p -> 0 <= height p ->
  exists st0 st1 st,
    automaton_phase p rng = Some st0 /\
    connect_regions rng p st0 = Some st1 /\
    run_cave p rng = Some st /\
    sound_state p st0 /\ sound_state p st1 /\ sound_state p st /\
    carve_calls (st_trace st0) = [] /\
    carve_calls (st_trace st) = carve_calls (st_trace st1).
Proof.
  intros Hw Hh.
  destruct (automaton_phase_sound p rng Hw Hh) as (st0 & Hrun0 & Hst0 & Hc0).
  destruct (connect_regions_sound rng p st0 Hst0) as (st1 & Hrun1 & Hst1 & _).
  destruct (for_each_invariant
    (fun st => sound_state p st /\
               carve_calls (st_trace st) = carve_calls (st_trace st1))
    (range 0 (smoothing_passes p))
    (fun _ st => smoothing_iteration p st) st1) as (st & Hrun & Hst & Hc).
  - intros _ st _ [Hst Hcalls].
    destruct (smoothing_iteration_sound p st Hst) as (st' & Hr & Hst' & Hc).
    exists st'. split; [exact Hr|]. split; [exact Hst'|]. congruence.
  - auto.
  - exists st0, st1, st. unfold run_cave. rewrite Hrun0. cbn [mbind option_bind].
    rewrite Hrun1. cbn [mbind option_bind]. auto 10.
Qed.


Lemma for_each_skip {A S} (l : list A) (body : A -> S -> option S) (s : S) :
  (forall a, a ∈ l -> body a s = Some s) -> for_each l body s = Some s.
Proof.
  induction l as [|a l IH]; intros H; cbn [for_each]; [reflexivity|].
  rewrite H by left. apply IH. intros a' Ha'. apply H. right. exact Ha'.
Qed.

Lemma sample_grid_shaped : shaped 5 5 sample_grid.
Proof.
  split; [lia|]. split; [lia|]. split; [reflexivity|].
  repeat constructor.
Defined.

(** * The specification *)

(** C8. For a grid of [height] rows and [width] columns and a position
    [(x, y)] inside it, [count_wall_neighbors] returns the number of the
    eight positions around [(x, y)] that are outside the grid or hold a
    WALL: a position outside the grid counts just as a WALL cell does. *)
Theorem count_wall_neighbors_spec (g : grid) (width height x y : Z) :
  shaped height width g -> 0 <= x < width -> 0 <= y < height ->
  count_wall_neighbors g x y width height =
    Some (Z.of_nat (length (List.filter (wall_or_outside g width height)
                                        (neighbours8 x y)))) /\
  forall p, p ∈ neighbours8 x y ->
    (wall_or_outside g width height p = true <->
     ~ (0 <= p.1 < width /\ 0 <= p.2 < height) \/
     grid_get g p.2 p.1 = Some WALL).
Proof.
  intros Hg Hx Hy. split; [exact (count_wall_neighbors_total g width height x y Hg)|].
  intros p _. split.
  - intros Hw.
    destruct (decide (0 <= p.1 < width /\ 0 <= p.2 < height)) as [[Hpx Hpy]|Hout];
      [right | left; exact Hout].
    unfold wall_or_outside, in_bounds in Hw.
    destruct (Z.leb_spec 0 p.1), (Z.ltb_spec p.1 width),
      (Z.leb_spec 0 p.2), (Z.ltb_spec p.2 height); try lia.
    cbn [andb negb orb] in Hw.
    destruct (grid_get g p.2 p.1) as [v|]; [|discriminate].
    apply Z.eqb_eq in Hw. congruence.
  - intros [Hout|Hwall]; [apply outside_counts; exact Hout|].
    unfold wall_or_outside. rewrite Hwall. apply orb_true_r.
Qed.

Lemma count_wall_neighbors_spec_witness :
  shaped 5 5 sample_grid /\ 0 <= 0 < 5 /\ 0 <= 3 < 5 /\
  count_wall_neighbors sample_grid 0 3 5 5 = Some 7.
Proof.
  split; [exact sample_grid_shaped|]. split; [lia|]. split; [lia|].
  destruct (count_wall_neighbors_spec sample_grid 5 5 0 3 sample_grid_shaped)
    as [H _]; [lia | lia |].
  rewrite H. reflexivity.
Defined.

(** C1. One automaton step of [generate_cave] on a grid of the shape of the
    parameters ends, and every cell of the new grid is decided by the grid
    before the step: with [n] the wall-neighbor count of the cell in the old
    grid, a WALL cell is WALL afterwards exactly when [n >= survive] and
    FLOOR otherwise, and any other cell is WALL afterwards exactly when
    [n >= birth] and FLOOR otherwise.  The variable [grid] is replaced by
    the result of the whole pass. *)
Theorem automaton_step_spec (p : params) (st : run_state) :
  shaped (height p) (width p) (st_grid st) ->
  exists g',
    ca_step (st_grid st) (width p) (height p) (birth p) (survive p) = Some g' /\
    automaton_iteration p st =
      Some {| st_grid := g'; st_draws := st_draws st;
              st_trace := st_trace st ++ [Stepped g'] |} /\
    shaped (height p) (width p) g' /\
    forall y x, 0 <= y < height p -> 0 <= x < width p ->
      exists n v,
        count_wall_neighbors (st_grid st) x y (width p) (height p) = Some n /\
        grid_get (st_grid st) y x = Some v /\
        (v = WALL ->
           (grid_get g' y x = Some WALL <-> survive p <= n) /\
           (grid_get g' y x = Some FLOOR <-> n < survive p)) /\
        (v <> WALL ->
           (grid_get g' y x = Some WALL <-> birth p <= n) /\
           (grid_get g' y x = Some FLOOR <-> n < birth p)).
Proof.
  intros Hg.
  destruct (ca_step_cells (st_grid st) (width p) (height p) (birth p) (survive p) Hg)
    as (g' & Hrun & Hg' & Hget).
  exists g'. split; [exact Hrun|]. split.
  { unfold automaton_iteration. rewrite Hrun. reflexivity. }
  split; [exact Hg'|]. intros y x Hy Hx.
  destruct (grid_get_is_Some _ _ _ _ _ Hg Hy Hx) as [v Hv].
  exists (wall_count (st_grid st) (width p) (height p) x y), v.
  split; [apply count_wall_neighbors_total; exact Hg|]. split; [exact Hv|].
  rewrite (Hget y x Hy Hx), Hv. cbn [fmap option_fmap option_map].
  unfold ca_value, WALL, FLOOR.
  split; intros Hwall.
  - subst v. cbn [Z.eqb Pos.eqb].
    destruct (Z.geb_spec (wall_count (st_grid st) (width p) (height p) x y)
                         (survive p)) as [Hge|Hlt];
      split; split; intros H; try reflexivity; try discriminate; lia.
  - destruct (Z.eqb_spec v 1) as [?|_]; [contradiction|].
    destruct (Z.geb_spec (wall_count (st_grid st) (width p) (height p) x y)
                         (birth p)) as [Hge|Hlt];
      split; split; intros H; try reflexivity; try discriminate; lia.
Qed.

Lemma automaton_step_spec_witness :
  shaped (height sample_params) (width sample_params) (st_grid sample_state) /\
  exists g',
    ca_step sample_grid 5 5 5 4 = Some g' /\
    automaton_iteration sample_params sample_state =
      Some {| st_grid := g'; st_draws := 0;
              st_trace := [Seeded sample_grid; Stepped g'] |} /\
    grid_get g' 1 1 = Some WALL.
Proof.
  split; [exact sample_grid_shaped|].
  destruct (automaton_step_spec sample_params sample_state sample_grid_shaped)
    as (g' & Hstep & Hiter & _ & Hcells).
  exists g'. split; [exact Hstep|]. split; [exact Hiter|].
  destruct (Hcells 1 1) as (n & v & Hn & Hv & _ & Hfloor); [cbn; lia | cbn; lia |].
  vm_compute in Hn. vm_compute in Hv.
  injection Hn as <-. injection Hv as <-.
  apply Hfloor; [discriminate | cbn; lia].
Defined.

(** C6. One micro-smoothing pass on a grid of [height] rows and [width]
    columns ends; an interior cell (row in [1 .. height-2], column in
    [1 .. width-2]) with wall-neighbor count [n] in the input grid is WALL
    when [n > 5], FLOOR when [n < 3], and keeps its input value otherwise;
    a border cell keeps its input value. *)
Theorem micro_smooth_spec (g : grid) (width height : Z) :
  shaped height width g ->
  exists g',
    micro_smooth g width height = Some g' /\ shaped height width g' /\
    forall y x, 0 <= y < height -> 0 <= x < width ->
      exists n v,
        count_wall_neighbors g x y width height = Some n /\
        grid_get g y x = Some v /\
        (1 <= y <= height - 2 /\ 1 <= x <= width - 2 ->
           (5 < n -> grid_get g' y x = Some WALL) /\
           (n < 3 -> grid_get g' y x = Some FLOOR) /\
           (3 <= n <= 5 -> grid_get g' y x = Some v)) /\
        (~ (1 <= y <= height - 2 /\ 1 <= x <= width - 2) ->
           grid_get g' y x = Some v).
Proof.
  intros Hg.
  destruct (micro_smooth_cells g width height Hg) as (g' & Hrun & Hg' & Hget).
  exists g'. split; [exact Hrun|]. split; [exact Hg'|]. intros y x Hy Hx.
  destruct (grid_get_is_Some _ _ _ _ _ Hg Hy Hx) as [v Hv].
  exists (wall_count g width height x y), v.
  split; [apply count_wall_neighbors_total; exact Hg|]. split; [exact Hv|].
  rewrite (Hget y x Hy Hx), Hv. unfold smooth_value.
  destruct (decide (1 <= y < height - 1 /\ 1 <= x < width - 1)) as [Hin|Hout].
  - split; [|intros Hn; exfalso; apply Hn; lia]. intros _.
    destruct (Z.gtb_spec (wall_count g width height x y) 5) as [Hgt|Hle].
    + split; [reflexivity|]. split; intros; lia.
    + destruct (Z.ltb_spec (wall_count g width height x y) 3) as [Hlt|Hge].
      * split; [intros; lia|]. split; [reflexivity | intros; lia].
      * split; [intros; lia|]. split; [intros; lia | reflexivity].
  - split; [intros Hin; exfalso; apply Hout; lia | reflexivity].
Qed.

Lemma micro_smooth_spec_witness :
  shaped 5 5 sample_grid /\
  exists g', micro_smooth sample_grid 5 5 = Some g' /\
             grid_get g' 1 1 = Some WALL /\ grid_get g' 0 0 = Some WALL.
Proof.
  split; [exact sample_grid_shaped|].
  destruct (micro_smooth_spec sample_grid 5 5 sample_grid_shaped)
    as (g' & Hrun & _ & Hcells).
  exists g'. split; [exact Hrun|]. split.
  - destruct (Hcells 1 1) as (n & v & Hn & _ & Hin & _); [lia | lia |].
    vm_compute in Hn. injection Hn as <-. apply Hin; lia.
  - destruct (Hcells 0 0) as (n & v & _ & Hv & _ & Hout); [lia | lia |].
    vm_compute in Hv. injection Hv as <-. apply Hout. lia.
Defined.

(** C7. On a grid in which every interior cell has a wall-neighbor count in
    [3 .. 5], [micro_smooth] returns the grid it was given. *)
Theorem micro_smooth_identity (g : grid) (width height : Z) :
  (forall y x, 1 <= y <= height - 2 -> 1 <= x <= width - 2 ->
     exists n, count_wall_neighbors g x y width height = Some n /\ 3 <= n <= 5) ->
  micro_smooth g width height = Some g.
Proof.
  intros Hcount. unfold micro_smooth. apply for_each_skip. intros y Hy.
  apply for_each_skip. intros x Hx.
  apply elem_of_range in Hy, Hx.
  destruct (Hcount y x) as (n & Hn & Hlo & Hhi); [lia | lia |].
  unfold smooth_cell. rewrite Hn. cbn [mbind option_bind].
  destruct (Z.gtb_spec n 5); [lia|]. destruct (Z.ltb_spec n 3); [lia|].
  reflexivity.
Qed.

Lemma micro_smooth_identity_witness :
  (forall y x, 1 <= y <= 3 - 2 -> 1 <= x <= 3 - 2 ->
     exists n, count_wall_neighbors still_grid x y 3 3 = Some n /\ 3 <= n <= 5) /\
  micro_smooth still_grid 3 3 = Some still_grid.
Proof.
  assert (H : forall y x, 1 <= y <= 3 - 2 -> 1 <= x <= 3 - 2 ->
     exists n, count_wall_neighbors still_grid x y 3 3 = Some n /\ 3 <= n <= 5).
  { intros y x Hy Hx. assert (y = 1) as -> by lia. assert (x = 1) as -> by lia.
    exists 4. split; [reflexivity | lia]. }
  split; [exact H|]. exact (micro_smooth_identity still_grid 3 3 H).
Defined.

(** C3. For non-empty regions [region_a] and [region_b] of positions of a
    grid (of fewer than 2^62 rows and columns, so that no distance of the
    scan leaves the int64 range), the endpoints [carve_corridor] carves
    between are a pair [(p, q)], [p] in [region_a] and [q] in [region_b],
    whose Manhattan distance [|p.x - q.x| + |p.y - q.y|] is least over all
    pairs, and among the pairs of least distance the first one the scan
    meets: [region_a] in order in the outer loop, [region_b] in order in
    the inner loop. *)
Theorem carve_corridor_endpoints (height width : Z) (g : grid)
    (region_a region_b : region) (u : Q) :
  region_a <> [] -> region_b <> [] ->
  height <= 2 ^ 62 -> width <= 2 ^ 62 ->
  region_in_bounds height width region_a ->
  region_in_bounds height width region_b ->
  exists (i : nat) (p q : cell),
    nearest_pair region_a region_b = Some (p, q) /\
    carve_corridor g region_a region_b u =
      (if Qltb u (1 # 2) then
         g1 ← carve_row g p.1 p.2 q.2; carve_column g1 q.2 p.1 q.1
       else
         g1 ← carve_column g p.2 p.1 q.1; carve_row g1 q.1 p.2 q.2) /\
    all_pairs region_a region_b !! i = Some (p, q) /\
    p ∈ region_a /\ q ∈ region_b /\
    (forall p' q', p' ∈ region_a -> q' ∈ region_b ->
       - 2 ^ 63 <= p'.2 - q'.2 < 2 ^ 63 /\ - 2 ^ 63 <= p'.1 - q'.1 < 2 ^ 63 /\
       Z.abs (p'.2 - q'.2) + Z.abs (p'.1 - q'.1) < 2 ^ 63) /\
    (forall p' q', p' ∈ region_a -> q' ∈ region_b ->
       Z.abs (p.2 - q.2) + Z.abs (p.1 - q.1) <=
       Z.abs (p'.2 - q'.2) + Z.abs (p'.1 - q'.1)) /\
    (forall (j : nat) p' q', (j < i)%nat ->
       all_pairs region_a region_b !! j = Some (p', q') ->
       Z.abs (p.2 - q.2) + Z.abs (p.1 - q.1) <
       Z.abs (p'.2 - q'.2) + Z.abs (p'.1 - q'.1)).
Proof.
  intros Ha Hb Hh Hw Hina Hinb.
  destruct (nearest_pair_first_minimum region_a region_b Ha Hb)
    as (i & p & q & Hnear & Hi & Hp & Hq & Hmin & Hfirst).
  exists i, p, q. split; [exact Hnear|]. split.
  { unfold carve_corridor. rewrite Hnear. destruct p as [y1 x1], q as [y2 x2].
    reflexivity. }
  split; [exact Hi|]. split; [exact Hp|]. split; [exact Hq|]. split; [|split].
  - intros p' q' Hp' Hq'.
    destruct (Hina p' Hp') as [Hy1 Hx1]. destruct (Hinb q' Hq') as [Hy2 Hx2].
    assert (H62 : 2 ^ 63 = 2 * 2 ^ 62) by reflexivity.
    lia.
  - intros p' q' Hp' Hq'. exact (Hmin p' q' Hp' Hq').
  - intros j p' q' Hlt Hj. exact (Hfirst j p' q' Hlt Hj).
Qed.

Lemma carve_corridor_endpoints_witness :
  [(1, 1); (1, 3)] <> [] /\ [(3, 3); (3, 1)] <> [] /\
  5 <= 2 ^ 62 /\
  region_in_bounds 5 5 [(1, 1); (1, 3)] /\
  region_in_bounds 5 5 [(3, 3); (3, 1)] /\
  nearest_pair [(1, 1); (1, 3)] [(3, 3); (3, 1)] = Some ((1, 1), (3, 1)).
Proof.
  assert (H62 : 5 <= 2 ^ 62) by (cbv; discriminate).
  assert (Ha : region_in_bounds 5 5 [(1, 1); (1, 3)]).
  { intros c Hc. repeat (apply elem_of_cons in Hc as [->|Hc]; [cbn; lia|]).
    apply elem_of_nil in Hc. contradiction. }
  assert (Hb : region_in_bounds 5 5 [(3, 3); (3, 1)]).
  { intros c Hc. repeat (apply elem_of_cons in Hc as [->|Hc]; [cbn; lia|]).
    apply elem_of_nil in Hc. contradiction. }
  split; [discriminate|]. split; [discriminate|]. split; [exact H62|].
  split; [exact Ha|]. split; [exact Hb|].
  destruct (carve_corridor_endpoints 5 5 sample_grid
              [(1, 1); (1, 3)] [(3, 3); (3, 1)] (1 # 4))
    as (i & p & q & Hnear & _ & Hi & _ & _ & _ & Hmin & Hfirst);
    [discriminate | discriminate | exact H62 | exact H62 | exact Ha | exact Hb |].
  rewrite Hnear. f_equal.
  (* the statement alone decides the pair: it is the second of the scan *)
  assert (Hsecond : Z.abs (p.2 - q.2) + Z.abs (p.1 - q.1) <= 2).
  { apply (Hmin (1, 1) (3, 1)); [left | right; left]. }
  destruct i as [|[|[|[|i]]]]; cbn in Hi; try discriminate;
    injection Hi as <- <-; cbn in Hsecond; try lia.
  - reflexivity.
  - exfalso. specialize (Hfirst 1%nat (1, 1) (3, 1)). cbn in Hfirst.
    assert (2 < 2) by (apply Hfirst; [lia | reflexivity]). lia.
Defined.

(** C10. On a grid of [height] rows and [width] columns and two non-empty
    regions of positions of that grid, [carve_corridor] ends and changes the
    cells of its two segments only: with [(p, q)] the endpoints it chose,
    each cell on the row span between their columns and on the column span
    between their rows (in the row of [p] and the column of [q] for a draw
    below 0.5, in the column of [p] and the row of [q] otherwise) is FLOOR,
    every other cell is as it was, and so no FLOOR cell becomes WALL. *)
Theorem carve_corridor_frame (height width : Z) (g : grid)
    (region_a region_b : region) (u : Q) :
  shaped height width g ->
  region_a <> [] -> region_b <> [] ->
  region_in_bounds height width region_a ->
  region_in_bounds height width region_b ->
  exists (g' : grid) (p q : cell),
    nearest_pair region_a region_b = Some (p, q) /\
    carve_corridor g region_a region_b u = Some g' /\
    shaped height width g' /\
    forall y x, 0 <= y < height -> 0 <= x < width ->
      (on_corridor u p q (y, x) -> grid_get g' y x = Some FLOOR) /\
      (~ on_corridor u p q (y, x) -> grid_get g' y x = grid_get g y x) /\
      (grid_get g y x = Some FLOOR -> grid_get g' y x = Some FLOOR).
Proof.
  intros Hg Ha Hb Hina Hinb.
  destruct (carve_corridor_cells height width g region_a region_b u
              Hg Ha Hb Hina Hinb)
    as (g' & p & q & Hnear & _ & _ & Hrun & Hg' & Hget).
  exists g', p, q. split; [exact Hnear|]. split; [exact Hrun|].
  split; [exact Hg'|]. intros y x Hy Hx.
  destruct (Hget y x Hy Hx) as [Hon Hoff].
  split; [exact Hon|]. split; [exact Hoff|]. intros Hfloor.
  destruct (decide (on_corridor u p q (y, x))) as [H|H]; [auto|].
  rewrite Hoff by exact H. exact Hfloor.
Qed.

Lemma carve_corridor_frame_witness :
  shaped 5 5 sample_grid /\
  [(1, 1); (1, 2); (2, 3)] <> [] /\ [(3, 1)] <> [] /\
  region_in_bounds 5 5 [(1, 1); (1, 2); (2, 3)] /\
  region_in_bounds 5 5 [(3, 1)] /\
  exists g',
    carve_corridor sample_grid [(1, 1); (1, 2); (2, 3)] [(3, 1)] (1 # 4) = Some g' /\
    grid_get g' 2 1 = Some FLOOR /\ grid_get g' 2 2 = Some WALL.
Proof.
  assert (Ha : region_in_bounds 5 5 [(1, 1); (1, 2); (2, 3)]).
  { intros c Hc. repeat (apply elem_of_cons in Hc as [->|Hc]; [cbn; lia|]).
    apply elem_of_nil in Hc. contradiction. }
  assert (Hb : region_in_bounds 5 5 [(3, 1)]).
  { intros c Hc. repeat (apply elem_of_cons in Hc as [->|Hc]; [cbn; lia|]).
    apply elem_of_nil in Hc. contradiction. }
  split; [exact sample_grid_shaped|]. split; [discriminate|].
  split; [discriminate|]. split; [exact Ha|]. split; [exact Hb|].
  destruct (carve_corridor_frame 5 5 sample_grid [(1, 1); (1, 2); (2, 3)] [(3, 1)]
              (1 # 4) sample_grid_shaped)
    as (g' & p & q & Hnear & Hrun & _ & Hcells);
    [discriminate | discriminate | exact Ha | exact Hb |].
  vm_compute in Hnear. injection Hnear as <- <-.
  exists g'. split; [exact Hrun|]. split.
  - destruct (Hcells 2 1) as (Hon & _ & _); [lia | lia |].
    apply Hon. unfold on_corridor, between. cbn [fst snd].
    change (Qltb (1 # 4) (1 # 2)) with true. cbn iota. lia.
  - destruct (Hcells 2 2) as (_ & Hoff & _); [lia | lia |].
    rewrite Hoff; [reflexivity|].
    unfold on_corridor, between. cbn [fst snd].
    change (Qltb (1 # 4) (1 # 2)) with true. cbn iota. lia.
Defined.

(** C4. For two regions [main] and [candidate] the Region Finder finds in a
    grid, and either draw, [carve_corridor] ends, and the Region Finder run
    on its result yields exactly one region that holds every cell of [main]
    and every cell of [candidate]. *)
Theorem carve_corridor_merges (height width : Z) (g : grid)
    (main candidate : region) (u : Q) :
  shaped height width g ->
  main ∈ flood_fill_regions g -> candidate ∈ flood_fill_regions g ->
  exists (g' : grid) (i : nat) (r : region),
    carve_corridor g main candidate u = Some g' /\
    flood_fill_regions g' !! i = Some r /\
    (forall c, c ∈ main -> c ∈ r) /\
    (forall c, c ∈ candidate -> c ∈ r) /\
    (forall (j : nat) (r' : region), flood_fill_regions g' !! j = Some r' ->
       (forall c, c ∈ main -> c ∈ r') ->
       (forall c, c ∈ candidate -> c ∈ r') -> j = i).
Proof.
  intros Hg Hm Hc.
  pose proof (region_solid g main Hm) as Hsm.
  pose proof (region_solid g candidate Hc) as Hsc.
  destruct (carve_corridor_cells height width g main candidate u Hg)
    as (g' & _ & _ & _ & _ & _ & Hrun & _);
    try (apply Hsm); try (apply Hsc);
    try (eapply solid_bounds; eassumption).
  destruct (carve_corridor_joins _ _ _ _ _ _ _ Hg Hsm Hsc Hrun)
    as (Hg' & Hsub & Hconn).
  destruct main as [|a0 main'] eqn:Emain; [destruct Hsm as [Hne _]; congruence|].
  rewrite <- Emain in *.
  destruct (one_feature_holds (floor_cells g') (main ++ candidate) a0)
    as (i & r & Hi & Hall & Huniq).
  - apply floor_cells_nodup.
  - apply elem_of_app. left. rewrite Emain. left.
  - intros a Ha. apply Hsub. apply elem_of_app in Ha as [Ha|Ha];
      [apply Hsm | apply Hsc]; exact Ha.
  - exact Hconn.
  - exists g', i, r. split; [exact Hrun|]. split; [exact Hi|].
    split; [intros c Hin; apply Hall, elem_of_app; auto|].
    split; [intros c Hin; apply Hall, elem_of_app; auto|].
    intros j r' Hj Hm' Hc'. apply (Huniq j r' Hj).
    intros a Ha. apply elem_of_app in Ha as [Ha|Ha]; auto.
Qed.

Lemma carve_corridor_merges_witness :
  shaped 5 5 sample_grid /\
  [(1, 1); (1, 2); (2, 3)] ∈ flood_fill_regions sample_grid /\
  [(3, 1)] ∈ flood_fill_regions sample_grid /\
  exists (g' : grid) (i : nat) (r : region),
    carve_corridor sample_grid [(1, 1); (1, 2); (2, 3)] [(3, 1)] (3 # 4) = Some g' /\
    flood_fill_regions g' !! i = Some r /\
    (forall c, c ∈ [(1, 1); (1, 2); (2, 3)] -> c ∈ r) /\
    (forall c, c ∈ [(3, 1)] -> c ∈ r).
Proof.
  assert (E : flood_fill_regions sample_grid =
              [[(1, 1); (1, 2); (2, 3)]; [(3, 1)]]) by (vm_compute; reflexivity).
  assert (Hm : [(1, 1); (1, 2); (2, 3)] ∈ flood_fill_regions sample_grid)
    by (rewrite E; left).
  assert (Hc : [(3, 1)] ∈ flood_fill_regions sample_grid)
    by (rewrite E; right; left).
  split; [exact sample_grid_shaped|]. split; [exact Hm|]. split; [exact Hc|].
  destruct (carve_corridor_merges 5 5 sample_grid [(1, 1); (1, 2); (2, 3)] [(3, 1)]
              (3 # 4) sample_grid_shaped Hm Hc)
    as (g' & i & r & Hrun & Hi & Hmain & Hcand & _).
  exists g', i, r. auto.
Defined.

(** C5. A run of [generate_cave] on non-negative dimensions ends; with
    [regions] the regions found in the grid the automaton leaves and [main]
    the largest of them, [carve_corridor] is called with [main] and each
    region that has [min_region] cells or more and is not [main], once each
    and in order, and with nothing else; after the calls the cells of [main]
    and of each such region are connected to each other.  With
    [min_region = 0] these are all the regions but [main], single cells
    included. *)
Theorem carve_corridor_calls (p : params) (rng : nat -> Q) :
  0 <= width p -> 0 <= height p ->
  exists st0 st1 st,
    automaton_phase p rng = Some st0 /\
    connect_regions rng p st0 = Some st1 /\
    run_cave p rng = Some st /\
    let regions := flood_fill_regions (st_grid st0) in
    let main := largest_region regions in
    carve_calls (st_trace st) =
      (pair main <$> filter (fun r => carved p main r = true) regions) /\
    NoDup (carve_calls (st_trace st)) /\
    (forall m r, (m, r) ∈ carve_calls (st_trace st) <->
       m = main /\ r ∈ regions /\
       min_region p <= Z.of_nat (length r) /\ r <> main) /\
    (forall r, (main, r) ∈ carve_calls (st_trace st) ->
       forall a b, a ∈ main ++ r -> b ∈ main ++ r ->
         connected (floor_cells (st_grid st1)) a b) /\
    (min_region p = 0 ->
     forall r, r ∈ regions -> r <> main ->
       (main, r) ∈ carve_calls (st_trace st)).
Proof.
  intros Hw Hh.
  destruct (run_cave_sound p rng Hw Hh)
    as (st0 & st1 & st & Hrun0 & Hrun1 & Hrun & Hst0 & _ & _ & Hc0 & Hcst).
  destruct (connect_regions_sound rng p st0 Hst0)
    as (st1' & Hrun1' & _ & Hcalls & _ & Hjoin).
  rewrite Hrun1 in Hrun1'. injection Hrun1' as <-.
  exists st0, st1, st. split; [exact Hrun0|]. split; [exact Hrun1|].
  split; [exact Hrun|]. cbn zeta.
  set (regions := flood_fill_regions (st_grid st0)) in *.
  set (main := largest_region regions) in *.
  rewrite Hc0 in Hcalls. cbn [app] in Hcalls. rewrite <- Hcst in Hcalls.
  assert (Hcarved : forall r, carved p main r = true <->
            min_region p <= Z.of_nat (length r) /\ r <> main).
  { intros r. unfold carved, array_equal.
    rewrite andb_true_iff, negb_true_iff, Z.leb_le, bool_decide_eq_false.
    reflexivity. }
  assert (Hmem : forall m r, (m, r) ∈ carve_calls (st_trace st) <->
            m = main /\ r ∈ regions /\
            min_region p <= Z.of_nat (length r) /\ r <> main).
  { intros m r. rewrite Hcalls, list_elem_of_fmap. split.
    - intros (r' & Heq & Hin). injection Heq as -> ->.
      apply list_elem_of_filter in Hin as [Hc Hin].
      apply Hcarved in Hc. tauto.
    - intros (-> & Hin & Hc). exists r. split; [reflexivity|].
      apply list_elem_of_filter. split; [apply Hcarved; exact Hc | exact Hin]. }
  split; [exact Hcalls|]. split; [|split; [exact Hmem|split]].
  - rewrite Hcalls. apply NoDup_fmap_2; [intros x y H; congruence|].
    apply NoDup_filter. apply label_features_nodup. apply floor_cells_nodup.
  - intros r Hin. apply Hmem in Hin as (_ & Hr & Hc).
    apply Hjoin; [exact Hr | apply Hcarved; exact Hc].
  - intros Hzero r Hr Hne. apply Hmem. split; [reflexivity|].
    split; [exact Hr|]. split; [lia | exact Hne].
Qed.

Lemma carve_corridor_calls_witness :
  0 <= width carving_params /\ 0 <= height carving_params /\
  exists st,
    run_cave carving_params sample_rng = Some st /\
    carve_calls (st_trace st) =
      [([(1, 3); (1, 4); (2, 2); (2, 3); (3, 1); (3, 2)], [(3, 5)])].
Proof.
  split; [cbn; lia|]. split; [cbn; lia|].
  destruct (carve_corridor_calls carving_params sample_rng)
    as (st0 & st1 & st & Hrun0 & _ & Hrun & Hcalls & _); [cbn; lia | cbn; lia |].
  exists st. split; [exact Hrun|].
  vm_compute in Hrun0. injection Hrun0 as <-.
  rewrite Hcalls. vm_compute. reflexivity.
Defined.

(** C2, as the code has it.  The border is not all WALL in every state of
    every run: with [survive = 6] an automaton step turns the border cell
    in row 0, column 2 of a 5 x 5 grid with an empty interior into FLOOR. *)
Lemma border_wall_leaks :
  exists st e,
    run_cave leaky_params half_rng = Some st /\
    e ∈ st_trace st /\
    grid_get (event_grid e) 0 2 = Some FLOOR /\
    ~ border_wall (height leaky_params) (width leaky_params) (event_grid e).
Proof.
  eexists. eexists (Stepped _). split; [vm_compute; reflexivity|].
  split; [right; left|]. split; [reflexivity|].
  intros Hb. specialize (Hb 0 2). cbn in Hb.
  assert (H : Some FLOOR = Some WALL) by (apply Hb; [lia | lia | reflexivity]).
  discriminate H.
Qed.

(** C2, amended.  A run of [generate_cave] on non-negative dimensions ends;
    in the grid right after seeding every cell on row 0, row [height - 1],
    column 0 or column [width - 1] is WALL; and when [survive <= 5] the same
    holds in every state the grid goes through: after seeding, after each
    automaton step, after each corridor carve and after each micro-smoothing
    pass. *)
Theorem border_wall_invariant (p : params) (rng : nat -> Q) :
  0 <= width p -> 0 <= height p ->
  exists st,
    run_cave p rng = Some st /\
    generate_cave p rng = Some (st_grid st) /\
    (exists g rest, st_trace st = Seeded g :: rest /\
                    border_wall (height p) (width p) g) /\
    (survive p <= 5 ->
     forall e, e ∈ st_trace st ->
       border_wall (height p) (width p) (event_grid e)).
Proof.
  intros Hw Hh.
  destruct (run_cave_sound p rng Hw Hh)
    as (_ & _ & st & _ & _ & Hrun & _ & _ & (_ & Htrace & Hseed) & _).
  exists st. split; [exact Hrun|]. split.
  { unfold generate_cave. rewrite Hrun. reflexivity. }
  split; [exact Hseed|]. intros Hs e He.
  rewrite Forall_forall in Htrace. destruct (Htrace e He) as [_ Hb].
  exact (Hb Hs).
Qed.

Lemma border_wall_invariant_witness :
  0 <= width sample_params /\ 0 <= height sample_params /\
  survive sample_params <= 5 /\
  exists st,
    run_cave sample_params sample_rng = Some st /\
    forall e, e ∈ st_trace st -> border_wall 5 5 (event_grid e).
Proof.
  split; [cbn; lia|]. split; [cbn; lia|]. split; [cbn; lia|].
  destruct (border_wall_invariant sample_params sample_rng)
    as (st & Hrun & _ & _ & Hall); [cbn; lia | cbn; lia |].
  exists st. split; [exact Hrun|]. apply Hall. cbn. lia.
Defined.




(** * Further properties of the code *)

(** ** Neighbour counts *)

Lemma length_filter_bound {A} (f : A -> bool) (l : list A) :
  (length (List.filter f l) <= length l)%nat.
Proof.
  induction l as [|a l IH]; cbn [List.filter length]; [lia|].
  destruct (f a); cbn [length]; lia.
Qed.

Lemma wall_count_bounds (g : grid) (width height x y : Z) :
  0 <= wall_count g width height x y <= 8.
Proof.
  unfold wall_count.
  pose proof (length_filter_bound (wall_or_outside g width height)
                (neighbours8 x y)) as H.
  cbn [neighbours8 length] in H. lia.
Qed.

(** X1. On a grid of [height] rows and [width] columns
    [count_wall_neighbors] returns a count between 0 and 8, for every
    position, inside the grid or not. *)
Theorem count_wall_neighbors_range (g : grid) (width height x y : Z) :
  shaped height width g ->
  exists n, count_wall_neighbors g x y width height = Some n /\ 0 <= n <= 8.
Proof.
  intros Hg. exists (wall_count g width height x y).
  split; [apply count_wall_neighbors_total; exact Hg | apply wall_count_bounds].
Qed.

Lemma count_wall_neighbors_range_witness :
  shaped 5 5 sample_grid /\
  exists n, count_wall_neighbors sample_grid 2 2 5 5 = Some n /\ 0 <= n <= 8.
Proof.
  split; [exact sample_grid_shaped|].
  exact (count_wall_neighbors_range sample_grid 5 5 2 2 sample_grid_shaped).
Defined.

(** The count at [(x, y)] reads no cell but the eight around it. *)
Lemma wall_count_ext (g g' : grid) (width height x y : Z) :
  (forall p, p ∈ neighbours8 x y -> 0 <= p.1 < width -> 0 <= p.2 < height ->
     grid_get g' p.2 p.1 = grid_get g p.2 p.1) ->
  wall_count g' width height x y = wall_count g width height x y.
Proof.
  intros Hsame. unfold wall_count. f_equal. f_equal.
  assert (Hw : forall p, p ∈ neighbours8 x y ->
            wall_or_outside g' width height p = wall_or_outside g width height p).
  { intros p Hp. unfold wall_or_outside, in_bounds.
    destruct (Z.leb_spec 0 p.1), (Z.ltb_spec p.1 width),
      (Z.leb_spec 0 p.2), (Z.ltb_spec p.2 height); cbn [andb negb orb];
      try reflexivity.
    rewrite Hsame by (try assumption; lia). reflexivity. }
  revert Hw. generalize (neighbours8 x y) as l.
  induction l as [|a l IH]; intros Hw; cbn [List.filter]; [reflexivity|].
  rewrite (Hw a) by left. rewrite IH by (intros p Hp; apply Hw; right; exact Hp).
  reflexivity.
Qed.

(** X2. The count at a position does not depend on the cell at that
    position: assigning any value to [grid[y, x]] leaves
    [count_wall_neighbors] at [(x, y)] as it was. *)
Theorem count_wall_neighbors_skips_centre (g : grid) (width height x y v : Z) :
  shaped height width g -> 0 <= x < width -> 0 <= y < height ->
  exists g', grid_set g y x v = Some g' /\
    count_wall_neighbors g' x y width height =
    count_wall_neighbors g x y width height.
Proof.
  intros Hg Hx Hy.
  destruct (grid_set_in_bounds height width g y x v Hg Hy Hx)
    as (g' & Hset & Hg' & Hget).
  exists g'. split; [exact Hset|].
  rewrite !count_wall_neighbors_total by assumption. f_equal.
  apply wall_count_ext. intros p Hp Hpx Hpy. rewrite Hget by assumption.
  destruct (decide (p.2 = y /\ p.1 = x)) as [[Hpy' Hpx']|_]; [|reflexivity].
  exfalso. unfold neighbours8 in Hp.
  repeat (apply elem_of_cons in Hp as [->|Hp]; [cbn [fst snd] in *; lia|]).
  apply elem_of_nil in Hp. exact Hp.
Qed.

Lemma count_wall_neighbors_skips_centre_witness :
  shaped 5 5 sample_grid /\ 0 <= 1 < 5 /\ 0 <= 1 < 5 /\
  exists g', grid_set sample_grid 1 1 WALL = Some g' /\
    count_wall_neighbors g' 1 1 5 5 = Some 7.
Proof.
  split; [exact sample_grid_shaped|]. split; [lia|]. split; [lia|].
  destruct (count_wall_neighbors_skips_centre sample_grid 5 5 1 1 WALL
              sample_grid_shaped) as (g' & Hset & Hcount); [lia | lia |].
  exists g'. split; [exact Hset|]. rewrite Hcount. reflexivity.
Defined.

(** ** The Region Finder *)

(** X3. The regions [flood_fill_regions] returns partition the FLOOR cells
    of the grid: every cell of a region is a FLOOR cell inside the grid, no
    region is empty or lists a cell twice, and every FLOOR cell lies in the
    region at exactly one index of the result. *)
Theorem flood_fill_regions_partition (height width : Z) (g : grid) :
  shaped height width g ->
  (forall r c, r ∈ flood_fill_regions g -> c ∈ r ->
     0 <= c.1 < height /\ 0 <= c.2 < width /\
     grid_get g c.1 c.2 = Some FLOOR) /\
  (forall r, r ∈ flood_fill_regions g -> r <> [] /\ NoDup r) /\
  (forall y x, 0 <= y < height -> 0 <= x < width ->
     grid_get g y x = Some FLOOR ->
     exists (i : nat) (r : region),
       flood_fill_regions g !! i = Some r /\ (y, x) ∈ r /\
       forall (j : nat) (r' : region),
         flood_fill_regions g !! j = Some r' -> (y, x) ∈ r' -> j = i).
Proof.
  intros Hg. split; [|split].
  - intros r c Hr Hc. exact (region_cells _ _ _ _ _ Hg Hr Hc).
  - intros r Hr. split; [exact (region_nonempty g r Hr)|].
    apply elem_of_label_features in Hr as (c & _ & _ & ->).
    unfold feature. apply NoDup_filter, floor_cells_nodup.
  - intros y x Hy Hx Hfloor.
    assert (Hin : (y, x) ∈ floor_cells g)
      by (apply (elem_of_floor_cells _ _ _ _ Hg); auto).
    destruct (one_feature_holds (floor_cells g) [(y, x)] (y, x))
      as (i & r & Hi & Hall & Huniq).
    + apply floor_cells_nodup.
    + left.
    + intros a Ha. apply list_elem_of_singleton in Ha as ->. exact Hin.
    + intros a b Ha Hb. apply list_elem_of_singleton in Ha as ->.
      apply list_elem_of_singleton in Hb as ->. apply rtc_refl.
    + exists i, r. split; [exact Hi|]. split; [apply Hall; left|].
      intros j r' Hj Hc. apply (Huniq j r' Hj).
      intros a Ha. apply list_elem_of_singleton in Ha as ->. exact Hc.
Qed.

Lemma flood_fill_regions_partition_witness :
  shaped 5 5 sample_grid /\
  exists (i : nat) (r : region),
    flood_fill_regions sample_grid !! i = Some r /\ (2, 3) ∈ r /\
    forall (j : nat) (r' : region),
      flood_fill_regions sample_grid !! j = Some r' -> (2, 3) ∈ r' -> j = i.
Proof.
  split; [exact sample_grid_shaped|].
  destruct (flood_fill_regions_partition 5 5 sample_grid sample_grid_shaped)
    as (_ & _ & Hcover).
  apply (Hcover 2 3); [lia | lia | reflexivity].
Defined.

(** X4. Two FLOOR cells lie in one region exactly when a chain of FLOOR
    cells, each next to the one before it (diagonals included), leads from
    one to the other. *)
Theorem flood_fill_regions_components (g : grid) (a b : cell) :
  a ∈ floor_cells g -> b ∈ floor_cells g ->
  (exists r, r ∈ flood_fill_regions g /\ a ∈ r /\ b ∈ r) <->
  connected (floor_cells g) a b.
Proof.
  intros Ha Hb. pose proof (floor_cells_nodup g) as Hnd. split.
  - intros (r & Hr & Har & Hbr).
    exact (feature_mutually_connected (floor_cells g) Hnd r a b Hr Har Hbr).
  - intros Hab.
    destruct (feature_of_cell (floor_cells g) Hnd a Ha) as (r & Hr & Har).
    exists r. split; [exact Hr|]. split; [exact Har|].
    exact (feature_absorbs (floor_cells g) Hnd r a b Hr Har Hab).
Qed.

Lemma flood_fill_regions_components_witness :
  (1, 1) ∈ floor_cells sample_grid /\ (2, 3) ∈ floor_cells sample_grid /\
  connected (floor_cells sample_grid) (1, 1) (2, 3).
Proof.
  assert (Ha : (1, 1) ∈ floor_cells sample_grid)
    by (apply (elem_of_floor_cells 5 5 _ _ sample_grid_shaped); cbn; auto with lia).
  assert (Hb : (2, 3) ∈ floor_cells sample_grid)
    by (apply (elem_of_floor_cells 5 5 _ _ sample_grid_shaped); cbn; auto with lia).
  split; [exact Ha|]. split; [exact Hb|].
  apply (flood_fill_regions_components sample_grid (1, 1) (2, 3) Ha Hb).
  exists [(1, 1); (1, 2); (2, 3)].
  assert (E : flood_fill_regions sample_grid =
              [[(1, 1); (1, 2); (2, 3)]; [(3, 1)]]) by (vm_compute; reflexivity).
  rewrite E. split; [left|]. split; [left | right; right; left].
Defined.

(** X5. [flood_fill_regions] returns no region exactly when the grid has no
    FLOOR cell. *)
Theorem flood_fill_regions_empty (height width : Z) (g : grid) :
  shaped height width g ->
  flood_fill_regions g = [] <->
  forall y x, 0 <= y < height -> 0 <= x < width ->
    grid_get g y x <> Some FLOOR.
Proof.
  intros Hg. split.
  - intros Hnil y x Hy Hx Hfloor.
    assert (Hin : (y, x) ∈ floor_cells g)
      by (apply (elem_of_floor_cells _ _ _ _ Hg); auto).
    destruct (feature_of_cell _ (floor_cells_nodup g) _ Hin) as (r & Hr & _).
    unfold flood_fill_regions in Hnil. rewrite Hnil in Hr.
    apply elem_of_nil in Hr. exact Hr.
  - intros Hnone. unfold flood_fill_regions.
    replace (floor_cells g) with (@nil cell); [reflexivity|].
    symmetry. apply elem_of_nil_inv. intros c Hc.
    apply (elem_of_floor_cells _ _ _ _ Hg) in Hc as (Hy & Hx & Hf).
    exact (Hnone _ _ Hy Hx Hf).
Qed.

Lemma flood_fill_regions_empty_witness :
  shaped 3 3 [[1; 1; 1]; [1; 1; 1]; [1; 1; 1]] /\
  flood_fill_regions [[1; 1; 1]; [1; 1; 1]; [1; 1; 1]] = [].
Proof.
  assert (Hg : shaped 3 3 [[1; 1; 1]; [1; 1; 1]; [1; 1; 1]]).
  { split; [lia|]. split; [lia|]. split; [reflexivity|]. repeat constructor. }
  split; [exact Hg|].
  apply (flood_fill_regions_empty 3 3 _ Hg). intros y x Hy Hx.
  assert (Hy' : y = 0 \/ y = 1 \/ y = 2) by lia.
  assert (Hx' : x = 0 \/ x = 1 \/ x = 2) by lia.
  destruct Hy' as [ -> | [ -> | -> ] ], Hx' as [ -> | [ -> | -> ] ]; discriminate.
Defined.

(** X6. [largest_region] returns the empty list for no regions; otherwise
    it returns a region of the list that no region exceeds in length, and
    the first such one: every region before it is strictly shorter. *)
Theorem largest_region_first_longest (regions : list region) :
  largest_region [] = [] /\
  (regions <> [] ->
   exists i : nat,
     regions !! i = Some (largest_region regions) /\
     (forall (j : nat) r, regions !! j = Some r ->
        (length r <= length (largest_region regions))%nat) /\
     (forall (j : nat) r, (j < i)%nat -> regions !! j = Some r ->
        (length r < length (largest_region regions))%nat)).
Proof.
  split; [reflexivity|].
  destruct regions as [|r0 rs]; [congruence|]. intros _. unfold largest_region.
  induction rs as [|x rs IH] using rev_ind.
  - exists 0%nat. cbn [foldl]. split; [reflexivity|]. split.
    + intros [|j] r Hj; cbn in Hj; [|discriminate]. injection Hj as <-. lia.
    + intros j r Hj. lia.
  - destruct IH as (i & Hi & Hmax & Hfirst). rewrite foldl_app. cbn [foldl].
    set (best := foldl _ r0 rs) in *.
    destruct (Nat.ltb_spec (length best) (length x)) as [Hlt|Hge].
    + exists (S (length rs)). split.
      * change (r0 :: rs ++ [x]) with ((r0 :: rs) ++ [x]).
        apply list_lookup_middle. reflexivity.
      * split.
        -- intros j r Hj. change (r0 :: rs ++ [x]) with ((r0 :: rs) ++ [x]) in Hj.
           apply lookup_app_Some in Hj as [Hj|[_ Hj]].
           ++ specialize (Hmax _ _ Hj). lia.
           ++ destruct (j - length (r0 :: rs))%nat; cbn in Hj; [|discriminate].
              injection Hj as <-. lia.
        -- intros j r Hlen Hj.
           change (r0 :: rs ++ [x]) with ((r0 :: rs) ++ [x]) in Hj.
           rewrite lookup_app_l in Hj by (cbn [length]; lia).
           specialize (Hmax _ _ Hj). lia.
    + exists i. split.
      * change (r0 :: rs ++ [x]) with ((r0 :: rs) ++ [x]).
        apply lookup_app_l_Some. exact Hi.
      * split.
        -- intros j r Hj. change (r0 :: rs ++ [x]) with ((r0 :: rs) ++ [x]) in Hj.
           apply lookup_app_Some in Hj as [Hj|[_ Hj]].
           ++ exact (Hmax _ _ Hj).
           ++ destruct (j - length (r0 :: rs))%nat; cbn in Hj; [|discriminate].
              injection Hj as <-. exact Hge.
        -- intros j r Hlt Hj. apply (Hfirst j r Hlt).
           apply lookup_lt_Some in Hi.
           change (r0 :: rs ++ [x]) with ((r0 :: rs) ++ [x]) in Hj.
           rewrite lookup_app_l in Hj by lia. exact Hj.
Qed.

Lemma largest_region_first_longest_witness :
  [[(1, 1)]; [(3, 1); (3, 2)]; [(5, 5); (5, 6)]] <> [] /\
  largest_region [[(1, 1)]; [(3, 1); (3, 2)]; [(5, 5); (5, 6)]] =
    [(3, 1); (3, 2)].
Proof.
  split; [discriminate|].
  destruct (largest_region_first_longest
              [[(1, 1)]; [(3, 1); (3, 2)]; [(5, 5); (5, 6)]]) as [_ H].
  destruct H as (i & Hi & _); [discriminate|].
  reflexivity.
Defined.

(** ** The Corridor Carver *)

(** Two grids of the same shape with the same cells are the same grid. *)
Lemma grid_ext (height width : Z) (g g' : grid) :
  shaped height width g -> shaped height width g' ->
  (forall y x, 0 <= y < height -> 0 <= x < width ->
     grid_get g y x = grid_get g' y x) ->
  g = g'.
Proof.
  intros Hg Hg' Heq. apply list_eq. intros r.
  pose proof Hg as (Hh & Hw & Hl & _). pose proof Hg' as (_ & _ & Hl' & _).
  destruct (decide (r < length g)%nat) as [Hr|Hr].
  - destruct (shaped_row _ _ _ (Z.of_nat r) Hg) as (row & Hrow & Hlen); [lia|].
    destruct (shaped_row _ _ _ (Z.of_nat r) Hg') as (row' & Hrow' & Hlen'); [lia|].
    rewrite Nat2Z.id in Hrow, Hrow'. rewrite Hrow, Hrow'. f_equal.
    apply list_eq. intros c.
    destruct (decide (c < length row)%nat) as [Hc|Hc].
    + specialize (Heq (Z.of_nat r) (Z.of_nat c)).
      unfold grid_get in Heq.
      rewrite !np_index_in_range in Heq by lia.
      rewrite Nat2Z.id in Heq. rewrite Hrow, Hrow' in Heq.
      rewrite !np_index_in_range in Heq by lia.
      rewrite Nat2Z.id in Heq. apply Heq; lia.
    + rewrite !lookup_ge_None_2 by lia. reflexivity.
  - rewrite !lookup_ge_None_2 by lia. reflexivity.
Qed.

Lemma carve_corridor_value (height width : Z) (g : grid)
    (region_a region_b : region) (u : Q) :
  shaped height width g ->
  region_a <> [] -> region_b <> [] ->
  region_in_bounds height width region_a ->
  region_in_bounds height width region_b ->
  exists (g' : grid) (p q : cell),
    nearest_pair region_a region_b = Some (p, q) /\
    carve_corridor g region_a region_b u = Some g' /\
    shaped height width g' /\
    forall y x, 0 <= y < height -> 0 <= x < width ->
      grid_get g' y x =
      if decide (on_corridor u p q (y, x)) then Some FLOOR else grid_get g y x.
Proof.
  intros Hg Ha Hb Hina Hinb.
  destruct (carve_corridor_cells height width g region_a region_b u
              Hg Ha Hb Hina Hinb)
    as (g' & p & q & Hnear & _ & _ & Hrun & Hg' & Hget).
  exists g', p, q. split; [exact Hnear|]. split; [exact Hrun|].
  split; [exact Hg'|]. intros y x Hy Hx.
  destruct (Hget y x Hy Hx) as [Hon Hoff].
  destruct (decide (on_corridor u p q (y, x))); auto.
Qed.

Lemma carve_corridor_nonempty (g g' : grid) (region_a region_b : region) (u : Q) :
  carve_corridor g region_a region_b u = Some g' ->
  region_a <> [] /\ region_b <> [].
Proof.
  intros Hrun. unfold carve_corridor, nearest_pair in Hrun.
  destruct region_a as [|a ra]; [discriminate|].
  destruct region_b as [|b rb]; [discriminate|].
  split; discriminate.
Qed.

(** X7. On a grid of known shape and regions of positions of that grid,
    [carve_corridor] returns a grid exactly when both regions are
    non-empty; on an empty region it raises. *)
Theorem carve_corridor_defined (height width : Z) (g : grid)
    (region_a region_b : region) (u : Q) :
  shaped height width g ->
  region_in_bounds height width region_a ->
  region_in_bounds height width region_b ->
  is_Some (carve_corridor g region_a region_b u) <->
  region_a <> [] /\ region_b <> [].
Proof.
  intros Hg Hina Hinb. split.
  - intros [g' Hrun]. exact (carve_corridor_nonempty _ _ _ _ _ Hrun).
  - intros [Ha Hb].
    destruct (carve_corridor_cells height width g region_a region_b u
                Hg Ha Hb Hina Hinb)
      as (g' & _ & _ & _ & _ & _ & Hrun & _).
    exists g'. exact Hrun.
Qed.

Lemma carve_corridor_defined_witness :
  shaped 5 5 sample_grid /\
  region_in_bounds 5 5 [] /\ region_in_bounds 5 5 [(3, 1)] /\
  carve_corridor sample_grid [] [(3, 1)] (1 # 4) = None.
Proof.
  assert (Ha : region_in_bounds 5 5 []).
  { intros c Hc. apply elem_of_nil in Hc. contradiction. }
  assert (Hb : region_in_bounds 5 5 [(3, 1)]).
  { intros c Hc. apply list_elem_of_singleton in Hc as ->. cbn. lia. }
  split; [exact sample_grid_shaped|]. split; [exact Ha|]. split; [exact Hb|].
  pose proof (carve_corridor_defined 5 5 sample_grid [] [(3, 1)] (1 # 4)
                sample_grid_shaped Ha Hb) as [Hsome _].
  destruct (carve_corridor sample_grid [] [(3, 1)] (1 # 4)) as [g'|];
    [|reflexivity].
  destruct Hsome as [Hne _]; [eexists; reflexivity|]. congruence.
Defined.

(** X8. Carving the same corridor again changes nothing: a second call of
    [carve_corridor] with the same regions and the same draw returns the
    grid the first call returned. *)
Theorem carve_corridor_idempotent (height width : Z) (g g' : grid)
    (region_a region_b : region) (u : Q) :
  shaped height width g ->
  region_in_bounds height width region_a ->
  region_in_bounds height width region_b ->
  carve_corridor g region_a region_b u = Some g' ->
  carve_corridor g' region_a region_b u = Some g'.
Proof.
  intros Hg Hina Hinb Hrun.
  destruct (carve_corridor_nonempty _ _ _ _ _ Hrun) as [Ha Hb].
  destruct (carve_corridor_value height width g region_a region_b u
              Hg Ha Hb Hina Hinb)
    as (g1 & p & q & Hnear & Hrun1 & Hg1 & Hget1).
  rewrite Hrun in Hrun1. injection Hrun1 as <-.
  destruct (carve_corridor_value height width g' region_a region_b u
              Hg1 Ha Hb Hina Hinb)
    as (g2 & p' & q' & Hnear' & Hrun2 & Hg2 & Hget2).
  rewrite Hnear in Hnear'. injection Hnear' as <- <-.
  rewrite Hrun2. f_equal. apply (grid_ext height width); [exact Hg2 | exact Hg1 |].
  intros y x Hy Hx. rewrite Hget2, Hget1 by assumption.
  destruct (decide (on_corridor u p q (y, x))); reflexivity.
Qed.

(** X9. Two corridors can be carved in either order: the grid after both
    calls of [carve_corridor] is the same. *)
Theorem carve_corridor_commutes (height width : Z) (g : grid)
    (region_a region_b region_c region_d : region) (u u' : Q) :
  shaped height width g ->
  region_a <> [] -> region_b <> [] -> region_c <> [] -> region_d <> [] ->
  region_in_bounds height width region_a ->
  region_in_bounds height width region_b ->
  region_in_bounds height width region_c ->
  region_in_bounds height width region_d ->
  exists g1 g2 g12,
    carve_corridor g region_a region_b u = Some g1 /\
    carve_corridor g region_c region_d u' = Some g2 /\
    carve_corridor g1 region_c region_d u' = Some g12 /\
    carve_corridor g2 region_a region_b u = Some g12.
Proof.
  intros Hg Ha Hb Hc Hd Hina Hinb Hinc Hind.
  destruct (carve_corridor_value height width g region_a region_b u
              Hg Ha Hb Hina Hinb)
    as (g1 & p & q & Hnear & Hrun1 & Hg1 & Hget1).
  destruct (carve_corridor_value height width g region_c region_d u'
              Hg Hc Hd Hinc Hind)
    as (g2 & p' & q' & Hnear' & Hrun2 & Hg2 & Hget2).
  destruct (carve_corridor_value height width g1 region_c region_d u'
              Hg1 Hc Hd Hinc Hind)
    as (g12 & p1 & q1 & Hnear1 & Hrun12 & Hg12 & Hget12).
  destruct (carve_corridor_value height width g2 region_a region_b u
              Hg2 Ha Hb Hina Hinb)
    as (g21 & p2 & q2 & Hnear2 & Hrun21 & Hg21 & Hget21).
  rewrite Hnear' in Hnear1. injection Hnear1 as <- <-.
  rewrite Hnear in Hnear2. injection Hnear2 as <- <-.
  exists g1, g2, g12. split; [exact Hrun1|]. split; [exact Hrun2|].
  split; [exact Hrun12|]. rewrite Hrun21. f_equal.
  apply (grid_ext height width); [exact Hg21 | exact Hg12 |].
  intros y x Hy Hx. rewrite Hget21, Hget12, Hget2, Hget1 by assumption.
  destruct (decide (on_corridor u p q (y, x))),
    (decide (on_corridor u' p' q' (y, x))); reflexivity.
Qed.

Lemma sample_main_bounds : region_in_bounds 5 5 sample_main.
Proof.
  intros c Hc. unfold sample_main in Hc.
  repeat (apply elem_of_cons in Hc as [->|Hc]; [cbn; lia|]).
  apply elem_of_nil in Hc. contradiction.
Qed.

Lemma sample_pocket_bounds : region_in_bounds 5 5 sample_pocket.
Proof.
  intros c Hc. apply list_elem_of_singleton in Hc as ->. cbn. lia.
Qed.

Lemma sample_far_bounds : region_in_bounds 5 5 sample_far.
Proof.
  intros c Hc. apply list_elem_of_singleton in Hc as ->. cbn. lia.
Qed.

Lemma rock_grid_shaped : shaped 3 3 rock_grid.
Proof.
  split; [lia|]. split; [lia|]. split; [reflexivity|]. repeat constructor.
Qed.

Lemma rock_grid_all_wall : all_wall 3 3 rock_grid.
Proof.
  intros y x Hy Hx.
  assert (Hy' : y = 0 \/ y = 1 \/ y = 2) by lia.
  assert (Hx' : x = 0 \/ x = 1 \/ x = 2) by lia.
  destruct Hy' as [ -> | [ -> | -> ] ], Hx' as [ -> | [ -> | -> ] ]; reflexivity.
Qed.

Lemma carve_corridor_idempotent_witness :
  shaped 5 5 sample_grid /\
  region_in_bounds 5 5 sample_main /\ region_in_bounds 5 5 sample_pocket /\
  exists g',
    carve_corridor sample_grid sample_main sample_pocket (1 # 4) = Some g' /\
    carve_corridor g' sample_main sample_pocket (1 # 4) = Some g'.
Proof.
  split; [exact sample_grid_shaped|]. split; [exact sample_main_bounds|].
  split; [exact sample_pocket_bounds|].
  eexists. split; [vm_compute; reflexivity|].
  apply (carve_corridor_idempotent 5 5 sample_grid _ sample_main sample_pocket
           (1 # 4) sample_grid_shaped sample_main_bounds sample_pocket_bounds).
  vm_compute. reflexivity.
Defined.

Lemma carve_corridor_commutes_witness :
  shaped 5 5 sample_grid /\
  sample_main <> [] /\ sample_pocket <> [] /\ sample_far <> [] /\
  region_in_bounds 5 5 sample_main /\ region_in_bounds 5 5 sample_pocket /\
  region_in_bounds 5 5 sample_far /\
  exists g1 g2 g12,
    carve_corridor sample_grid sample_main sample_pocket (1 # 4) = Some g1 /\
    carve_corridor sample_grid sample_main sample_far (3 # 4) = Some g2 /\
    carve_corridor g1 sample_main sample_far (3 # 4) = Some g12 /\
    carve_corridor g2 sample_main sample_pocket (1 # 4) = Some g12.
Proof.
  split; [exact sample_grid_shaped|]. repeat (split; [discriminate|]).
  split; [exact sample_main_bounds|]. split; [exact sample_pocket_bounds|].
  split; [exact sample_far_bounds|].
  apply (carve_corridor_commutes 5 5 sample_grid sample_main sample_pocket
           sample_main sample_far (1 # 4) (3 # 4) sample_grid_shaped);
    first [discriminate | exact sample_main_bounds
          | exact sample_pocket_bounds | exact sample_far_bounds].
Defined.

(** ** Extreme grids and thresholds *)

Lemma all_wall_counts (g : grid) (width height : Z) (p : Z * Z) :
  all_wall height width g -> wall_or_outside g width height p = true.
Proof.
  intros Hall.
  destruct (decide (0 <= p.1 < width /\ 0 <= p.2 < height)) as [[Hx Hy]|Hout].
  - unfold wall_or_outside. rewrite (Hall p.2 p.1 Hy Hx). apply orb_true_r.
  - apply outside_counts. exact Hout.
Qed.

Lemma all_wall_count (g : grid) (width height x y : Z) :
  all_wall height width g -> wall_count g width height x y = 8.
Proof.
  intros Hall. unfold wall_count, neighbours8.
  cbn [List.filter]. rewrite !(all_wall_counts g width height _ Hall).
  reflexivity.
Qed.

Lemma all_wall_unchanged (g : grid) (width height birth survive : Z) :
  shaped height width g -> all_wall height width g ->
  (survive <= 8 -> ca_step g width height birth survive = Some g) /\
  micro_smooth g width height = Some g.
Proof.
  intros Hg Hall. split.
  - intros Hs.
    destruct (ca_step_cells g width height birth survive Hg)
      as (g' & Hrun & Hg' & Hget).
    rewrite Hrun. f_equal. apply (grid_ext height width); [exact Hg' | exact Hg |].
    intros y x Hy Hx. rewrite Hget by assumption.
    rewrite (Hall y x Hy Hx), (all_wall_count g width height x y Hall).
    cbn [fmap option_fmap option_map]. unfold ca_value.
    cbn [Z.eqb WALL Pos.eqb].
    destruct (Z.geb_spec 8 survive); [reflexivity | lia].
  - destruct (micro_smooth_cells g width height Hg) as (g' & Hrun & Hg' & Hget).
    rewrite Hrun. f_equal. apply (grid_ext height width); [exact Hg' | exact Hg |].
    intros y x Hy Hx. rewrite Hget by assumption.
    destruct (decide _); [|reflexivity].
    rewrite (all_wall_count g width height x y Hall). cbn.
    symmetry. exact (Hall y x Hy Hx).
Qed.

(** X10. A grid of WALL cells only is left as it is by one automaton step
    whenever [survive <= 8], and by a micro-smoothing pass always: every
    cell of it has eight wall neighbours. *)
Theorem all_wall_fixed (g : grid) (width height birth survive : Z) :
  shaped height width g -> all_wall height width g ->
  (survive <= 8 -> ca_step g width height birth survive = Some g) /\
  micro_smooth g width height = Some g.
Proof.
  intros Hg Hall.
  destruct (all_wall_unchanged g width height birth survive Hg Hall) as [Hca Hsm].
  split; [exact Hca | exact Hsm].
Qed.

Lemma all_wall_fixed_witness :
  shaped 3 3 rock_grid /\ all_wall 3 3 rock_grid /\ 4 <= 8 /\
  ca_step rock_grid 3 3 5 4 = Some rock_grid /\
  micro_smooth rock_grid 3 3 = Some rock_grid.
Proof.
  split; [exact rock_grid_shaped|]. split; [exact rock_grid_all_wall|].
  split; [lia|].
  destruct (all_wall_fixed rock_grid 3 3 5 4 rock_grid_shaped rock_grid_all_wall)
    as [Hca Hsm].
  split; [apply Hca; lia | exact Hsm].
Defined.

(** X11. One automaton step turns every cell into WALL when both
    thresholds are 0 or less, and every cell into FLOOR when both are above
    8, whatever the grid holds: a wall-neighbor count lies between 0 and 8. *)
Theorem ca_step_saturates (g : grid) (width height birth survive : Z) :
  shaped height width g ->
  exists g', ca_step g width height birth survive = Some g' /\
    (birth <= 0 -> survive <= 0 -> all_wall height width g') /\
    (8 < birth -> 8 < survive -> all_floor height width g').
Proof.
  intros Hg.
  destruct (ca_step_cells g width height birth survive Hg)
    as (g' & Hrun & Hg' & Hget).
  exists g'. split; [exact Hrun|]. split.
  - intros Hb Hs y x Hy Hx. rewrite Hget by assumption.
    destruct (grid_get_is_Some _ _ _ _ _ Hg Hy Hx) as [v ->].
    cbn [fmap option_fmap option_map]. unfold ca_value.
    pose proof (wall_count_bounds g width height x y) as Hn.
    destruct (v =? WALL);
      [destruct (Z.geb_spec (wall_count g width height x y) survive)
      |destruct (Z.geb_spec (wall_count g width height x y) birth)];
      first [reflexivity | lia].
  - intros Hb Hs y x Hy Hx. rewrite Hget by assumption.
    destruct (grid_get_is_Some _ _ _ _ _ Hg Hy Hx) as [v ->].
    cbn [fmap option_fmap option_map]. unfold ca_value.
    pose proof (wall_count_bounds g width height x y) as Hn.
    destruct (v =? WALL);
      [destruct (Z.geb_spec (wall_count g width height x y) survive)
      |destruct (Z.geb_spec (wall_count g width height x y) birth)];
      first [reflexivity | lia].
Qed.

Lemma ca_step_saturates_witness :
  shaped 5 5 sample_grid /\ 8 < 9 /\
  exists g', ca_step sample_grid 5 5 9 9 = Some g' /\ all_floor 5 5 g'.
Proof.
  split; [exact sample_grid_shaped|]. split; [lia|].
  destruct (ca_step_saturates sample_grid 5 5 9 9 sample_grid_shaped)
    as (g' & Hrun & _ & Hfloor).
  exists g'. split; [exact Hrun|]. apply Hfloor; lia.
Defined.

(** ** Invariants of a run *)

(** What a loop that has ended kept. *)
Lemma for_each_preserves {A S} (I : S -> Prop) (l : list A)
    (body : A -> S -> option S) (s s' : S) :
  for_each l body s = Some s' -> I s ->
  (forall a s s1, a ∈ l -> I s -> body a s = Some s1 -> I s1) ->
  I s'.
Proof.
  revert s. induction l as [|a l IH]; intros s Hrun Hs Hstep; cbn [for_each] in Hrun.
  - injection Hrun as <-. exact Hs.
  - destruct (body a s) as [s1|] eqn:Hb; [|discriminate].
    apply (IH s1 Hrun); [apply (Hstep a s s1); [left | exact Hs | exact Hb]|].
    intros a' s2 s3 Ha'. apply Hstep. right. exact Ha'.
Qed.

Lemma ca_step_shaped (g g' : grid) (width height birth survive : Z) :
  shaped height width g -> ca_step g width height birth survive = Some g' ->
  shaped height width g'.
Proof.
  intros Hg Hrun.
  destruct (ca_step_cells g width height birth survive Hg) as (g1 & H1 & Hg1 & _).
  congruence.
Qed.

Lemma micro_smooth_shaped (g g' : grid) (width height : Z) :
  shaped height width g -> micro_smooth g width height = Some g' ->
  shaped height width g'.
Proof.
  intros Hg Hrun.
  destruct (micro_smooth_cells g width height Hg) as (g1 & H1 & Hg1 & _).
  congruence.
Qed.

Lemma carve_corridor_shaped (height width : Z) (g0 g g' : grid)
    (main candidate : region) (u : Q) :
  shaped height width g0 -> shaped height width g ->
  main ∈ flood_fill_regions g0 -> candidate ∈ flood_fill_regions g0 ->
  carve_corridor g main candidate u = Some g' ->
  shaped height width g'.
Proof.
  intros Hg0 Hg Hm Hc Hrun.
  destruct (carve_corridor_cells height width g main candidate u Hg)
    as (g1 & _ & _ & _ & _ & _ & H1 & Hg1 & _).
  - exact (region_nonempty g0 main Hm).
  - exact (region_nonempty g0 candidate Hc).
  - intros c Hin. destruct (region_cells _ _ _ _ _ Hg0 Hm Hin) as (? & ? & _). auto.
  - intros c Hin. destruct (region_cells _ _ _ _ _ Hg0 Hc Hin) as (? & ? & _). auto.
  - congruence.
Qed.

Lemma np_zeros_Some (height width : Z) (g0 : grid) :
  np_zeros height width = Some g0 -> shaped height width g0.
Proof.
  intros H0.
  destruct (decide (0 <= height /\ 0 <= width)) as [[Hh Hw]|Hneg].
  - destruct (np_zeros_shaped height width Hh Hw) as (g1 & H1 & Hg1). congruence.
  - rewrite np_zeros_negative in H0 by lia. discriminate.
Qed.

(** A property of the state that seeding establishes and each assignment
    to [grid] keeps holds when the run is over. *)
Lemma run_cave_invariant (p : params) (rng : nat -> Q) (I : run_state -> Prop)
    (st : run_state) :
  run_cave p rng = Some st ->
  (forall g0 s, np_zeros (height p) (width p) = Some g0 ->
     seed_grid rng (fill_prob p) (width p) (height p) (g0, 0%nat) = Some s ->
     I {| st_grid := s.1; st_draws := s.2; st_trace := [Seeded s.1] |}) ->
  (forall st g', shaped (height p) (width p) (st_grid st) -> I st ->
     ca_step (st_grid st) (width p) (height p) (birth p) (survive p) = Some g' ->
     I {| st_grid := g'; st_draws := st_draws st;
          st_trace := st_trace st ++ [Stepped g'] |}) ->
  (forall st0 st main candidate g',
     shaped (height p) (width p) (st_grid st0) -> I st0 ->
     main ∈ flood_fill_regions (st_grid st0) ->
     candidate ∈ flood_fill_regions (st_grid st0) ->
     shaped (height p) (width p) (st_grid st) -> I st ->
     carve_corridor (st_grid st) main candidate (rng (st_draws st)) = Some g' ->
     I {| st_grid := g'; st_draws := S (st_draws st);
          st_trace := st_trace st ++ [Carved main candidate g'] |}) ->
  (forall st g', shaped (height p) (width p) (st_grid st) -> I st ->
     micro_smooth (st_grid st) (width p) (height p) = Some g' ->
     I {| st_grid := g'; st_draws := st_draws st;
          st_trace := st_trace st ++ [Smoothed g'] |}) ->
  shaped (height p) (width p) (st_grid st) /\ I st.
Proof.
  intros Hrun Hseed Hstep Hcarve Hsmooth.
  unfold run_cave, automaton_phase in Hrun.
  destruct (np_zeros (height p) (width p)) as [g0|] eqn:H0; [|discriminate].
  cbn [mbind option_bind] in Hrun.
  destruct (seed_grid rng (fill_prob p) (width p) (height p) (g0, 0%nat))
    as [s|] eqn:Hs; [|discriminate].
  cbn [mbind option_bind] in Hrun.
  match type of Hrun with
  | context [for_each ?l ?b ?s0] =>
      destruct (for_each l b s0) as [stA|] eqn:HA; [|discriminate]
  end.
  cbn [mbind option_bind] in Hrun.
  destruct (connect_regions rng p stA) as [stB|] eqn:HB; [|discriminate].
  cbn [mbind option_bind] in Hrun.
  pose (J := fun st => shaped (height p) (width p) (st_grid st) /\ I st).
  assert (HJ0 : J {| st_grid := s.1; st_draws := s.2; st_trace := [Seeded s.1] |}).
  { split; [|exact (Hseed g0 s eq_refl Hs)]. cbn [st_grid].
    destruct (seed_grid_border rng (fill_prob p) (width p) (height p) g0 0
                (np_zeros_Some _ _ _ H0)) as (s' & Hs' & Hshape & _).
    congruence. }
  assert (HJA : J stA).
  { apply (for_each_preserves J _ _ _ _ HA HJ0).
    intros _ st1 st2 _ [Hg1 HI1] Hit. unfold automaton_iteration in Hit.
    destruct (ca_step (st_grid st1) (width p) (height p) (birth p) (survive p))
      as [g'|] eqn:Hca; [|discriminate].
    injection Hit as <-. split; [|exact (Hstep st1 g' Hg1 HI1 Hca)].
    exact (ca_step_shaped _ _ _ _ _ _ Hg1 Hca). }
  assert (HJB : J stB).
  { unfold connect_regions in HB.
    destruct (flood_fill_regions (st_grid stA)) as [|r0 rs] eqn:Eregs.
    { injection HB as <-. exact HJA. }
    rewrite <- Eregs in HB.
    assert (Hmain : largest_region (flood_fill_regions (st_grid stA))
                      ∈ flood_fill_regions (st_grid stA)).
    { apply largest_region_elem. rewrite Eregs. discriminate. }
    apply (for_each_preserves J _ _ _ _ HB HJA).
    intros cand st1 st2 Hcand [Hg1 HI1] Hit. unfold connect_region in Hit.
    destruct (carved p _ cand); [|injection Hit as <-; split; assumption].
    destruct (carve_corridor (st_grid st1) _ cand (rng (st_draws st1)))
      as [g'|] eqn:Hcv; [|discriminate].
    injection Hit as <-. destruct HJA as [HgA HIA]. split.
    - exact (carve_corridor_shaped _ _ _ _ _ _ _ _ HgA Hg1 Hmain Hcand Hcv).
    - exact (Hcarve stA st1 _ cand g' HgA HIA Hmain Hcand Hg1 HI1 Hcv). }
  apply (for_each_preserves J _ _ _ _ Hrun HJB).
  intros _ st1 st2 _ [Hg1 HI1] Hit. unfold smoothing_iteration in Hit.
  destruct (micro_smooth (st_grid st1) (width p) (height p))
    as [g'|] eqn:Hsm; [|discriminate].
  injection Hit as <-. split; [|exact (Hsmooth st1 g' Hg1 HI1 Hsm)].
  exact (micro_smooth_shaped _ _ _ _ Hg1 Hsm).
Qed.

(** ** Seeding *)

Lemma for_each_prefix_split {A S} (I : list A -> S -> Prop) (l : list A)
    (body : A -> S -> option S) (s : S) :
  I [] s ->
  (forall done a rest s, l = done ++ a :: rest -> I done s ->
     exists s', body a s = Some s' /\ I (done ++ [a]) s') ->
  exists s', for_each l body s = Some s' /\ I l s'.
Proof.
  intros Hstart Hstep.
  assert (Hgen : forall rest done s, l = done ++ rest -> I done s ->
            exists s', for_each rest body s = Some s' /\ I (done ++ rest) s').
  { induction rest as [|a rest IH]; intros done s0 Hl Hs0.
    - exists s0. rewrite app_nil_r. auto.
    - destruct (Hstep done a rest s0 Hl Hs0) as (s1 & Hb & Hs1).
      destruct (IH (done ++ [a]) s1) as (s' & Hrun & Hs');
        [rewrite <- app_assoc; exact Hl | exact Hs1 |].
      exists s'. cbn [for_each]. rewrite Hb. split; [exact Hrun|].
      rewrite <- app_assoc in Hs'. exact Hs'. }
  apply (Hgen l [] s); auto.
Qed.

Lemma pairs_nodup (la lb : list Z) :
  NoDup la -> NoDup lb -> NoDup (a ← la; b ← lb; [(a, b)]).
Proof.
  intros Ha Hb. apply NoDup_bind; [| |exact Ha].
  - intros a1 a2 c _ _ H1 H2.
    apply list_elem_of_bind in H1 as (b1 & H1 & _).
    apply list_elem_of_bind in H2 as (b2 & H2 & _).
    apply list_elem_of_singleton in H1. apply list_elem_of_singleton in H2.
    congruence.
  - intros a _. apply NoDup_bind; [| |exact Hb].
    + intros b1 b2 c _ _ H1 H2.
      apply list_elem_of_singleton in H1. apply list_elem_of_singleton in H2.
      congruence.
    + intros b _. apply NoDup_singleton.
Qed.

(** The seeding loops: every border cell is set to WALL, and the [j]-th
    cell off the border, in the order of the loops, is set by the [j]-th
    draw. *)
Lemma seed_grid_cells (rng : nat -> Q) (fill_p : Q) (width height : Z)
    (g0 : grid) (k0 : nat) :
  shaped height width g0 ->
  exists s, seed_grid rng fill_p width height (g0, k0) = Some s /\
    shaped height width s.1 /\
    s.2 = (k0 + length (interior_cells width height))%nat /\
    (forall y x, 0 <= y < height -> 0 <= x < width ->
       is_edge x y width height = true -> grid_get s.1 y x = Some WALL) /\
    (forall (j : nat) (c : cell), interior_cells width height !! j = Some c ->
       grid_get s.1 c.1 c.2 =
       Some (if Qltb (rng (k0 + j)%nat) fill_p then WALL else FLOOR)).
Proof.
  intros Hg0. unfold seed_grid, interior_cells. rewrite for_each_nested.
  set (l := y ← range 0 height; x ← range 0 width; [(y, x)]).
  set (inner := fun c : cell => is_edge c.2 c.1 width height = false).
  assert (Hnd : NoDup l) by (apply pairs_nodup; apply NoDup_seqZ).
  assert (Hbounds : forall c, c ∈ l -> 0 <= c.1 < height /\ 0 <= c.2 < width).
  { intros c Hc. apply elem_of_pairs in Hc as [Hy Hx].
    apply elem_of_range in Hy, Hx. lia. }
  destruct (for_each_prefix_split
    (fun (done : list cell) (s : grid * nat) =>
       shaped height width s.1 /\
       s.2 = (k0 + length (filter inner done))%nat /\
       (forall c, c ∈ done -> is_edge c.2 c.1 width height = true ->
          grid_get s.1 c.1 c.2 = Some WALL) /\
       (forall (j : nat) (c : cell), filter inner done !! j = Some c ->
          grid_get s.1 c.1 c.2 =
          Some (if Qltb (rng (k0 + j)%nat) fill_p then WALL else FLOOR)))
    l (fun ab s => seed_cell rng fill_p width height ab.1 ab.2 s) (g0, k0))
    as (s & Hrun & Hs & Hk & Hedge & Hinner).
  - split; [exact Hg0|]. split; [cbn; lia|]. split.
    + intros c Hc. apply elem_of_nil in Hc. contradiction.
    + intros j c Hj. rewrite filter_nil in Hj. discriminate.
  - intros done [y x] rest [g k] Hl (Hg & Hk & Hedge & Hinner).
    cbn [fst snd] in *.
    assert (Hin : (y, x) ∈ l)
      by (rewrite Hl; apply elem_of_app; right; left).
    destruct (Hbounds _ Hin) as [Hy Hx]. cbn [fst snd] in Hy, Hx.
    assert (Hfresh : (y, x) ∉ done).
    { rewrite Hl in Hnd. apply NoDup_app in Hnd as (_ & Hdisj & _).
      intros Hd. apply (Hdisj _ Hd). left. }
    assert (Hdone : forall c, c ∈ done ->
              0 <= c.1 < height /\ 0 <= c.2 < width /\ c <> (y, x)).
    { intros c Hc. assert (c ∈ l) by (rewrite Hl; apply elem_of_app; auto).
      destruct (Hbounds c) as [? ?]; [assumption|].
      split; [assumption|]. split; [assumption|]. intros ->. contradiction. }
    assert (Hkeep : forall g1 v,
              (forall y' x', 0 <= y' < height -> 0 <= x' < width ->
                 grid_get g1 y' x' = if decide (y' = y /\ x' = x) then Some v
                                     else grid_get g y' x') ->
              forall c, c ∈ done -> grid_get g1 c.1 c.2 = grid_get g c.1 c.2).
    { intros g1 v Hget c Hc. destruct (Hdone c Hc) as (Hcy & Hcx & Hne).
      rewrite Hget by assumption.
      destruct (decide (c.1 = y /\ c.2 = x)) as [[? ?]|_]; [|reflexivity].
      exfalso. apply Hne. destruct c. cbn in *. congruence. }
    unfold seed_cell. cbn [fst snd].
    destruct (is_edge x y width height) eqn:Hedge_a.
    + destruct (grid_set_in_bounds height width g y x WALL Hg Hy Hx)
        as (g1 & -> & Hg1 & Hget).
      eexists. split; [reflexivity|]. cbn [fst snd].
      rewrite filter_app, filter_cons_False, filter_nil, app_nil_r
        by (unfold inner; cbn [fst snd]; congruence).
      split; [exact Hg1|]. split; [exact Hk|]. split.
      * intros c Hc Hce. apply elem_of_app in Hc as [Hc|Hc].
        -- rewrite (Hkeep g1 WALL Hget c Hc). auto.
        -- apply list_elem_of_singleton in Hc as ->. cbn [fst snd].
           rewrite Hget by assumption.
           destruct (decide (y = y /\ x = x)) as [_|Hn]; [reflexivity|].
           exfalso. auto.
      * intros j c Hj. rewrite (Hkeep g1 WALL Hget c); [auto|].
        apply list_elem_of_lookup_2 in Hj.
        apply list_elem_of_filter in Hj as [_ Hj]. exact Hj.
    + destruct (grid_set_in_bounds height width g y x
                  (if Qltb (rng k) fill_p then WALL else FLOOR) Hg Hy Hx)
        as (g1 & -> & Hg1 & Hget).
      eexists. split; [reflexivity|]. cbn [fst snd].
      rewrite filter_app, filter_cons_True, filter_nil
        by (unfold inner; cbn [fst snd]; exact Hedge_a).
      split; [exact Hg1|]. split; [rewrite length_app; cbn [length]; lia|].
      split.
      * intros c Hc Hce. apply elem_of_app in Hc as [Hc|Hc].
        -- rewrite (Hkeep g1 _ Hget c Hc). auto.
        -- apply list_elem_of_singleton in Hc as ->. cbn [fst snd] in Hce.
           congruence.
      * intros j c Hj. apply lookup_app_Some in Hj as [Hj|[Hlen Hj]].
        -- rewrite (Hkeep g1 _ Hget c); [auto|].
           apply list_elem_of_lookup_2 in Hj.
           apply list_elem_of_filter in Hj as [_ Hj]. exact Hj.
        -- destruct (j - length (filter inner done))%nat eqn:Ej;
             cbn in Hj; [|discriminate].
           injection Hj as <-. cbn [fst snd]. rewrite Hget by assumption.
           destruct (decide (y = y /\ x = x)) as [_|Hn]; [|exfalso; auto].
           replace (k0 + j)%nat with k by lia. reflexivity.
  - exists s. split; [exact Hrun|]. split; [exact Hs|]. split; [exact Hk|].
    split; [|exact Hinner].
    intros y x Hy Hx He. apply (Hedge (y, x)); [|exact He].
    apply elem_of_pairs. cbn [fst snd]. rewrite !elem_of_range. lia.
Qed.

Lemma filter_seqZ (a b m : Z) (n : nat) :
  filter (fun y => a <= y < b) (seqZ m (Z.of_nat n)) =
  seqZ (Z.max a m) (Z.min b (m + Z.of_nat n) - Z.max a m).
Proof.
  revert m. induction n as [|n IH]; intros m.
  - cbn. symmetry. apply seqZ_nil. lia.
  - rewrite seqZ_cons by lia.
    replace (Z.pred (Z.of_nat (S n))) with (Z.of_nat n) by lia.
    destruct (decide (a <= m < b)) as [Hin|Hout].
    + rewrite filter_cons_True by exact Hin. rewrite IH.
      rewrite (seqZ_cons (Z.max a m)) by lia.
      replace (Z.max a m) with m by lia.
      replace (Z.max a (Z.succ m)) with (Z.succ m) by lia.
      f_equal. f_equal. lia.
    + rewrite filter_cons_False by exact Hout. rewrite IH.
      destruct (decide (m < a)) as [Hlt|Hge].
      * replace (Z.max a (Z.succ m)) with a by lia.
        replace (Z.max a m) with a by lia. f_equal. lia.
      * rewrite !seqZ_nil by lia. reflexivity.
Qed.

Lemma filter_range_inner (n : Z) :
  filter (fun y => 1 <= y < n - 1) (range 0 n) = range 1 (n - 1).
Proof.
  unfold range. destruct (decide (0 <= n)) as [Hn|Hn].
  - replace (n - 0) with (Z.of_nat (Z.to_nat n)) by lia.
    rewrite filter_seqZ. f_equal; lia.
  - rewrite !seqZ_nil by lia. reflexivity.
Qed.

Lemma filter_pairs (Pa Pb : Z -> Prop) `{!forall a, Decision (Pa a)}
    `{!forall b, Decision (Pb b)} (la lb : list Z) :
  filter (fun c : cell => Pa c.1 /\ Pb c.2) (a ← la; b ← lb; [(a, b)]) =
  (a ← filter Pa la; b ← filter Pb lb; [(a, b)]).
Proof.
  induction la as [|a la IH]; [reflexivity|].
  change (a0 ← a :: la; b ← lb; [(a0, b)])
    with ((b ← lb; [(a, b)]) ++ (a0 ← la; b ← lb; [(a0, b)])).
  rewrite filter_app, IH.
  assert (Hblock : filter (fun c : cell => Pa c.1 /\ Pb c.2) (b ← lb; [(a, b)]) =
                   if decide (Pa a) then (b ← filter Pb lb; [(a, b)]) else []).
  { clear. induction lb as [|b lb IHb]; [destruct (decide (Pa a)); reflexivity|].
    change (b0 ← b :: lb; [(a, b0)]) with ((a, b) :: (b0 ← lb; [(a, b0)])).
    destruct (decide (Pa a)) as [Ha|Ha].
    - destruct (decide (Pb b)) as [Hb|Hb].
      + rewrite filter_cons_True by (cbn; auto).
        rewrite (filter_cons_True Pb) by exact Hb. rewrite IHb. reflexivity.
      + rewrite filter_cons_False by (cbn; tauto).
        rewrite (filter_cons_False Pb) by exact Hb. exact IHb.
    - rewrite filter_cons_False by (cbn; tauto). exact IHb. }
  rewrite Hblock. destruct (decide (Pa a)) as [Ha|Ha].
  - rewrite (filter_cons_True Pa) by exact Ha. reflexivity.
  - rewrite (filter_cons_False Pa) by exact Ha. reflexivity.
Qed.

Lemma filter_ext_in {A} (P Q : A -> Prop) `{!forall a, Decision (P a)}
    `{!forall a, Decision (Q a)} (l : list A) :
  (forall a, a ∈ l -> (P a <-> Q a)) -> filter P l = filter Q l.
Proof.
  induction l as [|a l IH]; intros Hall; [reflexivity|].
  assert (Ha : P a <-> Q a) by (apply Hall; left).
  assert (Hl : filter P l = filter Q l)
    by (apply IH; intros a' Ha'; apply Hall; right; exact Ha').
  destruct (decide (P a)) as [Hp|Hp].
  - rewrite filter_cons_True, (filter_cons_True Q) by tauto. congruence.
  - rewrite filter_cons_False, (filter_cons_False Q) by tauto. exact Hl.
Qed.

(** The cells off the border are the rows 1 to [height - 2], each with the
    columns 1 to [width - 2], in that order. *)
Lemma interior_cells_rows (width height : Z) :
  interior_cells width height =
  (y ← range 1 (height - 1); x ← range 1 (width - 1); [(y, x)]).
Proof.
  unfold interior_cells.
  rewrite <- (filter_range_inner height), <- (filter_range_inner width).
  rewrite <- (filter_pairs (fun y => 1 <= y < height - 1)
                           (fun x => 1 <= x < width - 1)).
  apply filter_ext_in. intros [y x] Hc. apply elem_of_pairs in Hc as [Hy Hx].
  apply elem_of_range in Hy, Hx. cbn [fst snd] in *.
  destruct (is_edge x y width height) eqn:He.
  - apply is_edge_true in He. split; [discriminate | lia].
  - split; [|reflexivity]. intros _.
    assert (Hn : ~ (x = 0 \/ y = 0 \/ x = width - 1 \/ y = height - 1)).
    { rewrite <- is_edge_true. congruence. }
    lia.
Qed.

Lemma block_lookup (a : Z) (lb : list Z) (j : nat) (b : Z) :
  lb !! j = Some b -> (b0 ← lb; [(a, b0)]) !! j = Some (a, b).
Proof.
  revert j. induction lb as [|b' lb IH]; intros j Hj; [discriminate|].
  change (b0 ← b' :: lb; [(a, b0)]) with ((a, b') :: (b0 ← lb; [(a, b0)])).
  destruct j as [|j]; cbn in *; [congruence | apply IH; exact Hj].
Qed.

Lemma block_length (a : Z) (lb : list Z) :
  length (b0 ← lb; [(a, b0)]) = length lb.
Proof.
  induction lb as [|b' lb IH]; [reflexivity|].
  change (b0 ← b' :: lb; [(a, b0)]) with ((a, b') :: (b0 ← lb; [(a, b0)])).
  cbn [length]. rewrite IH. reflexivity.
Qed.

Lemma pairs_lookup (la lb : list Z) (i j : nat) (a b : Z) :
  la !! i = Some a -> lb !! j = Some b ->
  (a0 ← la; b0 ← lb; [(a0, b0)]) !! (i * length lb + j)%nat = Some (a, b).
Proof.
  revert i. induction la as [|a' la IH]; intros i Hi Hj; [discriminate|].
  change (a0 ← a' :: la; b0 ← lb; [(a0, b0)])
    with ((b0 ← lb; [(a', b0)]) ++ (a0 ← la; b0 ← lb; [(a0, b0)])).
  pose proof (lookup_lt_Some _ _ _ Hj) as Hlt.
  destruct i as [|i]; cbn in Hi.
  - injection Hi as ->. rewrite lookup_app_l by (rewrite block_length; lia).
    apply block_lookup. exact Hj.
  - rewrite lookup_app_r by (rewrite block_length; lia).
    rewrite block_length.
    replace (S i * length lb + j - length lb)%nat
      with (i * length lb + j)%nat by lia.
    apply IH; assumption.
Qed.

Lemma pairs_length (la lb : list Z) :
  length (a0 ← la; b0 ← lb; [(a0, b0)]) = (length la * length lb)%nat.
Proof.
  induction la as [|a' la IH]; [reflexivity|].
  change (a0 ← a' :: la; b0 ← lb; [(a0, b0)])
    with ((b0 ← lb; [(a', b0)]) ++ (a0 ← la; b0 ← lb; [(a0, b0)])).
  rewrite length_app, block_length, IH. cbn [length]. lia.
Qed.

(** The number of cells off the border, and the place of each in the order
    of the seeding loops. *)
Lemma interior_cells_length (width height : Z) :
  length (interior_cells width height) =
  (Z.to_nat (height - 2) * Z.to_nat (width - 2))%nat.
Proof.
  rewrite interior_cells_rows, pairs_length. unfold range.
  rewrite !length_seqZ. f_equal; lia.
Qed.

Lemma interior_cells_lookup (width height y x : Z) :
  1 <= y <= height - 2 -> 1 <= x <= width - 2 ->
  interior_cells width height !! Z.to_nat ((y - 1) * (width - 2) + (x - 1)) =
  Some (y, x).
Proof.
  intros Hy Hx. rewrite interior_cells_rows.
  replace (Z.to_nat ((y - 1) * (width - 2) + (x - 1)))
    with (Z.to_nat (y - 1) * length (range 1 (width - 1)) + Z.to_nat (x - 1))%nat.
  - apply pairs_lookup; unfold range; apply lookup_seqZ; lia.
  - unfold range. rewrite length_seqZ. nia.
Qed.

(** What the seeded grid holds, by position. *)
Lemma seed_grid_by_position (rng : nat -> Q) (fill_p : Q) (width height : Z)
    (g0 : grid) (s : grid * nat) :
  shaped height width g0 ->
  seed_grid rng fill_p width height (g0, 0%nat) = Some s ->
  shaped height width s.1 /\
  s.2 = (Z.to_nat (height - 2) * Z.to_nat (width - 2))%nat /\
  border_wall height width s.1 /\
  (forall y x, 1 <= y <= height - 2 -> 1 <= x <= width - 2 ->
     grid_get s.1 y x =
     Some (if Qltb (rng (Z.to_nat ((y - 1) * (width - 2) + (x - 1)))) fill_p
           then WALL else FLOOR)).
Proof.
  intros Hg0 Hrun.
  destruct (seed_grid_cells rng fill_p width height g0 0 Hg0)
    as (s' & Hrun' & Hs & Hk & Hedge & Hinner).
  rewrite Hrun in Hrun'. injection Hrun' as <-.
  split; [exact Hs|]. split; [rewrite Hk, interior_cells_length; reflexivity|].
  split; [exact Hedge|]. intros y x Hy Hx.
  exact (Hinner _ _ (interior_cells_lookup width height y x Hy Hx)).
Qed.

Lemma not_edge_interior (x y width height : Z) :
  0 <= y < height -> 0 <= x < width ->
  is_edge x y width height = false ->
  1 <= y <= height - 2 /\ 1 <= x <= width - 2.
Proof.
  intros Hy Hx He.
  assert (Hn : ~ (x = 0 \/ y = 0 \/ x = width - 1 \/ y = height - 1)).
  { rewrite <- is_edge_true. congruence. }
  lia.
Qed.

Lemma seed_grid_binary (rng : nat -> Q) (fill_p : Q) (width height : Z)
    (g0 : grid) (s : grid * nat) :
  shaped height width g0 ->
  seed_grid rng fill_p width height (g0, 0%nat) = Some s ->
  binary height width s.1.
Proof.
  intros Hg0 Hrun.
  destruct (seed_grid_by_position rng fill_p width height g0 s Hg0 Hrun)
    as (_ & _ & Hb & Hin).
  intros y x Hy Hx. destruct (is_edge x y width height) eqn:He.
  - left. exact (Hb y x Hy Hx He).
  - destruct (not_edge_interior x y width height Hy Hx He) as [Hy' Hx'].
    rewrite (Hin y x Hy' Hx'). destruct (Qltb _ _); auto.
Qed.

Lemma ca_step_binary (g g' : grid) (width height birth survive : Z) :
  shaped height width g -> ca_step g width height birth survive = Some g' ->
  binary height width g'.
Proof.
  intros Hg Hrun.
  destruct (ca_step_cells g width height birth survive Hg) as (g1 & H1 & _ & Hget).
  rewrite Hrun in H1. injection H1 as <-.
  intros y x Hy Hx. rewrite Hget by assumption.
  destruct (grid_get_is_Some _ _ _ _ _ Hg Hy Hx) as [v ->].
  cbn [fmap option_fmap option_map]. unfold ca_value.
  destruct (v =? WALL); destruct (_ >=? _); auto.
Qed.

Lemma micro_smooth_binary (g g' : grid) (width height : Z) :
  shaped height width g -> binary height width g ->
  micro_smooth g width height = Some g' -> binary height width g'.
Proof.
  intros Hg Hb Hrun.
  destruct (micro_smooth_cells g width height Hg) as (g1 & H1 & _ & Hget).
  rewrite Hrun in H1. injection H1 as <-.
  intros y x Hy Hx. rewrite Hget by assumption.
  destruct (decide _); [|exact (Hb y x Hy Hx)].
  unfold smooth_value. destruct (_ >? 5); [auto|].
  destruct (_ <? 3); [auto | exact (Hb y x Hy Hx)].
Qed.

Lemma carve_corridor_binary (height width : Z) (g0 g g' : grid)
    (main candidate : region) (u : Q) :
  shaped height width g0 -> shaped height width g -> binary height width g ->
  main ∈ flood_fill_regions g0 -> candidate ∈ flood_fill_regions g0 ->
  carve_corridor g main candidate u = Some g' ->
  binary height width g'.
Proof.
  intros Hg0 Hg Hb Hm Hc Hrun.
  destruct (carve_corridor_cells height width g main candidate u Hg)
    as (g1 & p & q & _ & _ & _ & H1 & _ & Hget).
  - exact (region_nonempty g0 main Hm).
  - exact (region_nonempty g0 candidate Hc).
  - intros c Hin. destruct (region_cells _ _ _ _ _ Hg0 Hm Hin) as (? & ? & _). auto.
  - intros c Hin. destruct (region_cells _ _ _ _ _ Hg0 Hc Hin) as (? & ? & _). auto.
  - rewrite Hrun in H1. injection H1 as <-.
    intros y x Hy Hx. destruct (Hget y x Hy Hx) as [Hon Hoff].
    destruct (decide (on_corridor u p q (y, x))) as [H|H]; [right; auto|].
    rewrite (Hoff H). exact (Hb y x Hy Hx).
Qed.

(** Every grid of a run has the shape of the parameters and holds WALL and
    FLOOR only. *)
Lemma run_cave_binary (p : params) (rng : nat -> Q) (st : run_state) :
  run_cave p rng = Some st ->
  shaped (height p) (width p) (st_grid st) /\
  binary (height p) (width p) (st_grid st) /\
  Forall (fun e => shaped (height p) (width p) (event_grid e) /\
                   binary (height p) (width p) (event_grid e)) (st_trace st).
Proof.
  intros Hrun.
  apply (run_cave_invariant p rng
    (fun st => binary (height p) (width p) (st_grid st) /\
               Forall (fun e => shaped (height p) (width p) (event_grid e) /\
                                binary (height p) (width p) (event_grid e))
                      (st_trace st)) st Hrun).
  - intros g0 s H0 Hs. cbn [st_grid st_trace].
    pose proof (np_zeros_Some _ _ _ H0) as Hg0.
    pose proof (seed_grid_binary _ _ _ _ _ _ Hg0 Hs) as Hb.
    destruct (seed_grid_by_position _ _ _ _ _ _ Hg0 Hs) as (Hshape & _).
    split; [exact Hb|]. apply Forall_singleton. split; assumption.
  - intros st1 g' Hg [_ Htr] Hca. cbn [st_grid st_trace].
    pose proof (ca_step_binary _ _ _ _ _ _ Hg Hca) as Hb.
    pose proof (ca_step_shaped _ _ _ _ _ _ Hg Hca) as Hshape.
    split; [exact Hb|]. apply Forall_app. split; [exact Htr|].
    apply Forall_singleton. split; assumption.
  - intros st0 st1 main cand g' Hg0 _ Hm Hc Hg [Hb1 Htr] Hcv.
    cbn [st_grid st_trace].
    pose proof (carve_corridor_binary _ _ _ _ _ _ _ _ Hg0 Hg Hb1 Hm Hc Hcv) as Hb.
    pose proof (carve_corridor_shaped _ _ _ _ _ _ _ _ Hg0 Hg Hm Hc Hcv) as Hshape.
    split; [exact Hb|]. apply Forall_app. split; [exact Htr|].
    apply Forall_singleton. split; assumption.
  - intros st1 g' Hg [Hb1 Htr] Hsm. cbn [st_grid st_trace].
    pose proof (micro_smooth_binary _ _ _ _ Hg Hb1 Hsm) as Hb.
    pose proof (micro_smooth_shaped _ _ _ _ Hg Hsm) as Hshape.
    split; [exact Hb|]. apply Forall_app. split; [exact Htr|].
    apply Forall_singleton. split; assumption.
Qed.

(** ** The whole run *)

(** X12. In a run of [generate_cave] on non-negative dimensions the grid
    right after seeding has every border cell WALL, and the cell in row
    [y], column [x] off the border is WALL exactly when draw number
    [(y - 1) * (width - 2) + (x - 1)] of the random source is below
    [fill_prob], and FLOOR otherwise: the draws go to the cells off the
    border row by row. *)
Theorem seeding_follows_draws (p : params) (rng : nat -> Q) :
  0 <= width p -> 0 <= height p ->
  exists st g rest,
    run_cave p rng = Some st /\
    st_trace st = Seeded g :: rest /\
    shaped (height p) (width p) g /\
    border_wall (height p) (width p) g /\
    (forall y x, 1 <= y <= height p - 2 -> 1 <= x <= width p - 2 ->
       grid_get g y x =
       Some (if Qltb (rng (Z.to_nat ((y - 1) * (width p - 2) + (x - 1))))
                     (fill_prob p)
             then WALL else FLOOR)).
Proof.
  intros Hw Hh.
  destruct (run_cave_sound p rng Hw Hh) as (_ & _ & st & _ & _ & Hrun & _).
  destruct (run_cave_invariant p rng
    (fun st => exists g rest,
       st_trace st = Seeded g :: rest /\
       shaped (height p) (width p) g /\
       border_wall (height p) (width p) g /\
       (forall y x, 1 <= y <= height p - 2 -> 1 <= x <= width p - 2 ->
          grid_get g y x =
          Some (if Qltb (rng (Z.to_nat ((y - 1) * (width p - 2) + (x - 1))))
                        (fill_prob p)
                then WALL else FLOOR))) st Hrun)
    as (_ & g & rest & Htr & Hg & Hb & Hin).
  - intros g0 s H0 Hs. exists s.1, []. split; [reflexivity|].
    destruct (seed_grid_by_position _ _ _ _ _ _ (np_zeros_Some _ _ _ H0) Hs)
      as (Hshape & _ & Hb & Hin).
    auto.
  - intros st1 g' _ (g & rest & Htr & H) _. exists g, (rest ++ [Stepped g']).
    cbn [st_trace]. rewrite Htr. split; [reflexivity | exact H].
  - intros st0 st1 main cand g' _ _ _ _ _ (g & rest & Htr & H) _.
    exists g, (rest ++ [Carved main cand g']).
    cbn [st_trace]. rewrite Htr. split; [reflexivity | exact H].
  - intros st1 g' _ (g & rest & Htr & H) _. exists g, (rest ++ [Smoothed g']).
    cbn [st_trace]. rewrite Htr. split; [reflexivity | exact H].
  - exists st, g, rest. auto.
Qed.

Lemma seeding_follows_draws_witness :
  0 <= width carving_params /\ 0 <= height carving_params /\
  exists st g rest,
    run_cave carving_params sample_rng = Some st /\
    st_trace st = Seeded g :: rest /\
    grid_get g 2 3 = Some FLOOR /\ grid_get g 2 4 = Some WALL.
Proof.
  split; [cbn; lia|]. split; [cbn; lia|].
  destruct (seeding_follows_draws carving_params sample_rng)
    as (st & g & rest & Hrun & Htr & _ & _ & Hin); [cbn; lia | cbn; lia |].
  exists st, g, rest. split; [exact Hrun|]. split; [exact Htr|]. split.
  - rewrite (Hin 2 3) by (cbn; lia). reflexivity.
  - rewrite (Hin 2 4) by (cbn; lia). reflexivity.
Defined.

(** X13. A run of [generate_cave] on non-negative dimensions returns a grid
    of [height] rows and [width] columns in which every cell is WALL or
    FLOOR, and the grid in every state on the way (after seeding, after
    each automaton step, each carve and each micro-smoothing pass) has that
    shape and holds WALL and FLOOR only. *)
Theorem generate_cave_grid (p : params) (rng : nat -> Q) :
  0 <= width p -> 0 <= height p ->
  exists st,
    run_cave p rng = Some st /\
    generate_cave p rng = Some (st_grid st) /\
    shaped (height p) (width p) (st_grid st) /\
    binary (height p) (width p) (st_grid st) /\
    (forall e, e ∈ st_trace st ->
       shaped (height p) (width p) (event_grid e) /\
       binary (height p) (width p) (event_grid e)).
Proof.
  intros Hw Hh.
  destruct (run_cave_sound p rng Hw Hh) as (_ & _ & st & _ & _ & Hrun & _).
  destruct (run_cave_binary p rng st Hrun) as (Hg & Hb & Htr).
  exists st. split; [exact Hrun|]. split.
  { unfold generate_cave. rewrite Hrun. reflexivity. }
  split; [exact Hg|]. split; [exact Hb|].
  intros e He. rewrite Forall_forall in Htr. exact (Htr e He).
Qed.

Lemma generate_cave_grid_witness :
  0 <= width carving_params /\ 0 <= height carving_params /\
  exists st,
    run_cave carving_params sample_rng = Some st /\
    generate_cave carving_params sample_rng = Some (st_grid st) /\
    shaped 5 7 (st_grid st) /\ binary 5 7 (st_grid st) /\
    length (st_trace st) = 3%nat /\
    (forall e, e ∈ st_trace st ->
       shaped 5 7 (event_grid e) /\ binary 5 7 (event_grid e)).
Proof.
  split; [cbn; lia|]. split; [cbn; lia|].
  destruct (generate_cave_grid carving_params sample_rng)
    as (st & Hrun & Hgen & Hg & Hb & Htr); [cbn; lia | cbn; lia |].
  exists st. split; [exact Hrun|]. split; [exact Hgen|].
  split; [exact Hg|]. split; [exact Hb|]. split; [|exact Htr].
  vm_compute in Hrun. injection Hrun as <-. reflexivity.
Defined.

(** X14. A run of [generate_cave] draws one random number for each cell
    off the border while seeding and one for each call of
    [carve_corridor], and no other: in all
    [(height - 2) * (width - 2)], each factor taken as 0 when negative,
    plus the number of calls. *)
Theorem random_draws_used (p : params) (rng : nat -> Q) :
  0 <= width p -> 0 <= height p ->
  exists st,
    run_cave p rng = Some st /\
    st_draws st =
      (Z.to_nat (height p - 2) * Z.to_nat (width p - 2) +
       length (carve_calls (st_trace st)))%nat.
Proof.
  intros Hw Hh.
  destruct (run_cave_sound p rng Hw Hh) as (_ & _ & st & _ & _ & Hrun & _).
  exists st. split; [exact Hrun|].
  apply (run_cave_invariant p rng
    (fun st => st_draws st =
       (Z.to_nat (height p - 2) * Z.to_nat (width p - 2) +
        length (carve_calls (st_trace st)))%nat) st Hrun).
  - intros g0 s H0 Hs. cbn [st_draws st_trace carve_calls omap length].
    destruct (seed_grid_by_position _ _ _ _ _ _ (np_zeros_Some _ _ _ H0) Hs)
      as (_ & Hk & _).
    rewrite Hk. cbn. lia.
  - intros st1 g' _ HI _. cbn [st_draws st_trace].
    rewrite carve_calls_snoc, app_nil_r. exact HI.
  - intros st0 st1 main cand g' _ _ _ _ _ HI _. cbn [st_draws st_trace].
    rewrite carve_calls_snoc, length_app. cbn [length]. lia.
  - intros st1 g' _ HI _. cbn [st_draws st_trace].
    rewrite carve_calls_snoc, app_nil_r. exact HI.
Qed.

Lemma random_draws_used_witness :
  0 <= width carving_params /\ 0 <= height carving_params /\
  exists st, run_cave carving_params sample_rng = Some st /\
             st_draws st = 16%nat.
Proof.
  split; [cbn; lia|]. split; [cbn; lia|].
  destruct (random_draws_used carving_params sample_rng)
    as (st & Hrun & Hdraws); [cbn; lia | cbn; lia |].
  exists st. split; [exact Hrun|]. rewrite Hdraws.
  vm_compute in Hrun. injection Hrun as <-. reflexivity.
Defined.

Lemma for_each_ext {A S} (l : list A) (body body' : A -> S -> option S) (s : S) :
  (forall a s, a ∈ l -> body a s = body' a s) ->
  for_each l body s = for_each l body' s.
Proof.
  revert s. induction l as [|a l IH]; intros s Hsame; cbn [for_each]; [reflexivity|].
  rewrite <- (Hsame a s) by left.
  destruct (body a s); [|reflexivity].
  apply IH. intros a' s' Ha'. apply Hsame. right. exact Ha'.
Qed.

Lemma range_clamp (n : Z) : range 0 (Z.max 0 n) = range 0 n.
Proof.
  unfold range. destruct (decide (0 <= n)) as [Hn|Hn].
  - replace (Z.max 0 n) with n by lia. reflexivity.
  - rewrite !seqZ_nil by lia. reflexivity.
Qed.

Lemma carved_clamp (p : params) (main candidate : region) :
  carved (clamp_counts p) main candidate = carved p main candidate.
Proof.
  unfold carved. cbn [min_region clamp_counts]. f_equal.
  destruct (Z.leb_spec (Z.max 0 (min_region p)) (Z.of_nat (length candidate))),
    (Z.leb_spec (min_region p) (Z.of_nat (length candidate)));
    first [reflexivity | lia].
Qed.

(** X15. Negative counts act as 0: a run with a negative [ca_steps],
    [min_region] or [smoothing_passes] goes through the same states and
    returns the same grid as the run with that count set to 0. *)
Theorem negative_counts_as_zero (p : params) (rng : nat -> Q) :
  run_cave (clamp_counts p) rng = run_cave p rng /\
  generate_cave (clamp_counts p) rng = generate_cave p rng.
Proof.
  assert (HA : automaton_phase (clamp_counts p) rng = automaton_phase p rng).
  { unfold automaton_phase.
    cbn [width height fill_prob ca_steps clamp_counts].
    rewrite range_clamp. reflexivity. }
  assert (HC : forall st,
            connect_regions rng (clamp_counts p) st = connect_regions rng p st).
  { intros st. unfold connect_regions.
    destruct (flood_fill_regions (st_grid st)) as [|r0 rs]; [reflexivity|].
    apply for_each_ext. intros r s _. unfold connect_region.
    rewrite carved_clamp. reflexivity. }
  assert (HR : run_cave (clamp_counts p) rng = run_cave p rng).
  { unfold run_cave. rewrite HA.
    destruct (automaton_phase p rng) as [st0|]; [|reflexivity].
    cbn [mbind option_bind]. rewrite HC.
    destruct (connect_regions rng p st0) as [st1|]; [|reflexivity].
    cbn [mbind option_bind smoothing_passes clamp_counts].
    rewrite range_clamp. reflexivity. }
  split; [exact HR|]. unfold generate_cave. rewrite HR. reflexivity.
Qed.

(** X16. With a WALL-preserving [survive <= 5], a grid that is at most two
    cells wide or at most two cells high comes out of [generate_cave] all
    WALL: every one of its cells is on the border. *)
Theorem thin_cave_is_rock (p : params) (rng : nat -> Q) :
  0 <= width p -> 0 <= height p ->
  width p <= 2 \/ height p <= 2 -> survive p <= 5 ->
  exists g, generate_cave p rng = Some g /\
            shaped (height p) (width p) g /\ all_wall (height p) (width p) g.
Proof.
  intros Hw Hh Hthin Hs.
  destruct (run_cave_sound p rng Hw Hh)
    as (_ & _ & st & _ & _ & Hrun & _ & _ & ((Hg & Hb) & _) & _).
  exists (st_grid st). split; [unfold generate_cave; rewrite Hrun; reflexivity|].
  split; [exact Hg|]. intros y x Hy Hx. apply (Hb Hs y x Hy Hx).
  apply is_edge_true. lia.
Qed.

Lemma thin_cave_is_rock_witness :
  0 <= 2 /\ 0 <= 4 /\ (2 <= 2 \/ 4 <= 2) /\ 4 <= 5 /\
  exists g,
    generate_cave {| width := 2; height := 4; fill_prob := 0; birth := 5;
                     survive := 4; ca_steps := 3; min_region := 0;
                     smoothing_passes := 1 |} half_rng = Some g /\
    all_wall 4 2 g.
Proof.
  split; [lia|]. split; [lia|]. split; [left; lia|]. split; [lia|].
  destruct (thin_cave_is_rock
              {| width := 2; height := 4; fill_prob := 0; birth := 5;
                 survive := 4; ca_steps := 3; min_region := 0;
                 smoothing_passes := 1 |} half_rng)
    as (g & Hgen & _ & Hall); cbn; try lia.
  exists g. split; [exact Hgen | exact Hall].
Defined.

(** X17. The call at the end of the script, [generate_cave(params)] with
    the parameters written there, returns for every sequence of draws a
    grid of 40 rows and 100 columns of WALL and FLOOR cells whose border is
    all WALL. *)
Theorem script_cave (rng : nat -> Q) :
  exists g, generate_cave default_params rng = Some g /\
            shaped 40 100 g /\ border_wall 40 100 g /\ binary 40 100 g.
Proof.
  destruct (run_cave_sound default_params rng)
    as (_ & _ & st & _ & _ & Hrun & _ & _ & ((Hg & Hb) & _) & _);
    [cbn; lia | cbn; lia |].
  destruct (run_cave_binary default_params rng st Hrun) as (_ & Hbin & _).
  exists (st_grid st). split; [unfold generate_cave; rewrite Hrun; reflexivity|].
  split; [exact Hg|]. split; [apply Hb; cbn; lia | exact Hbin].
Qed.

Lemma all_wall_no_regions (height width : Z) (g : grid) :
  shaped height width g -> all_wall height width g -> flood_fill_regions g = [].
Proof.
  intros Hg Hall. unfold flood_fill_regions.
  replace (floor_cells g) with (@nil cell); [reflexivity|].
  symmetry. apply elem_of_nil_inv. intros c Hc.
  apply (elem_of_floor_cells _ _ _ _ Hg) in Hc as (Hy & Hx & Hf).
  rewrite (Hall _ _ Hy Hx) in Hf. discriminate.
Qed.

(** X18. When every draw is below [fill_prob] (as it is for
    [fill_prob >= 1], draws being below 1) and [survive <= 8],
    [generate_cave] returns solid rock: a grid of WALL cells only, and
    [carve_corridor] is never called. *)
Theorem solid_rock (p : params) (rng : nat -> Q) :
  0 <= width p -> 0 <= height p ->
  (forall k, (rng k < fill_prob p)%Q) -> survive p <= 8 ->
  exists st,
    run_cave p rng = Some st /\
    generate_cave p rng = Some (st_grid st) /\
    all_wall (height p) (width p) (st_grid st) /\
    carve_calls (st_trace st) = [].
Proof.
  intros Hw Hh Hdraws Hs.
  assert (Hlt : forall k, Qltb (rng k) (fill_prob p) = true).
  { intros k. unfold Qltb. apply negb_true_iff.
    destruct (Qle_bool (fill_prob p) (rng k)) eqn:Hle; [|reflexivity].
    apply Qle_bool_iff in Hle. exfalso.
    exact (Qlt_not_le _ _ (Hdraws k) Hle). }
  destruct (run_cave_sound p rng Hw Hh) as (_ & _ & st & _ & _ & Hrun & _).
  exists st. split; [exact Hrun|]. split.
  { unfold generate_cave. rewrite Hrun. reflexivity. }
  apply (run_cave_invariant p rng
    (fun st => all_wall (height p) (width p) (st_grid st) /\
               carve_calls (st_trace st) = []) st Hrun).
  - intros g0 s H0 Hseed. cbn [st_grid st_trace]. split; [|reflexivity].
    destruct (seed_grid_by_position _ _ _ _ _ _ (np_zeros_Some _ _ _ H0) Hseed)
      as (_ & _ & Hb & Hin).
    intros y x Hy Hx. destruct (is_edge x y (width p) (height p)) eqn:He.
    + exact (Hb y x Hy Hx He).
    + destruct (not_edge_interior _ _ _ _ Hy Hx He) as [Hy' Hx'].
      rewrite (Hin y x Hy' Hx'), Hlt. reflexivity.
  - intros st1 g' Hg [Hall Hcalls] Hca. cbn [st_grid st_trace].
    destruct (all_wall_unchanged (st_grid st1) (width p) (height p)
                (birth p) (survive p) Hg Hall) as [Hfix _].
    rewrite (Hfix Hs) in Hca. injection Hca as <-.
    split; [exact Hall|]. rewrite carve_calls_snoc, Hcalls. reflexivity.
  - intros st0 st1 main cand g' Hg0 [Hall0 _] Hm _ _ _ _.
    rewrite (all_wall_no_regions _ _ _ Hg0 Hall0) in Hm.
    apply elem_of_nil in Hm. contradiction.
  - intros st1 g' Hg [Hall Hcalls] Hsm. cbn [st_grid st_trace].
    destruct (all_wall_unchanged (st_grid st1) (width p) (height p)
                (birth p) (survive p) Hg Hall) as [_ Hfix].
    rewrite Hfix in Hsm. injection Hsm as <-.
    split; [exact Hall|]. rewrite carve_calls_snoc, Hcalls. reflexivity.
Qed.

Lemma solid_rock_witness :
  0 <= width unchecked_params /\ 0 <= height unchecked_params /\
  (forall k, (half_rng k < fill_prob unchecked_params)%Q) /\
  survive unchecked_params <= 8 /\
  exists st,
    run_cave unchecked_params half_rng = Some st /\
    all_wall 3 3 (st_grid st) /\ carve_calls (st_trace st) = [].
Proof.
  assert (Hd : forall k, (half_rng k < fill_prob unchecked_params)%Q)
    by (intros k; reflexivity).
  split; [cbn; lia|]. split; [cbn; lia|]. split; [exact Hd|].
  split; [cbn; lia|].
  destruct (solid_rock unchecked_params half_rng)
    as (st & Hrun & _ & Hall & Hcalls); [cbn; lia | cbn; lia | exact Hd | cbn; lia |].
  exists st. split; [exact Hrun|]. split; [exact Hall | exact Hcalls].
Defined.

(** ** Connecting every region *)

(** Every cell of a corridor whose cells are all in [cells] is connected
    to the end the corridor starts from. *)
Lemma corridor_reach (cells : list cell) (u : Q) (p q c : cell) :
  (forall c', on_corridor u p q c' -> c' ∈ cells) ->
  on_corridor u p q c -> connected cells p c.
Proof.
  destruct p as [y1 x1], q as [y2 x2], c as [y x].
  unfold on_corridor, between. cbn [fst snd]. intros Hon Hc.
  destruct (Qltb u (1 # 2)).
  - destruct Hc as [[-> Hx]|[-> Hy]].
    + apply row_connected. unfold between. intros x' Hx'.
      apply Hon. left. cbn [fst snd]. split; [reflexivity | lia].
    + apply (connected_trans _ _ (y1, x2)).
      * apply row_connected. unfold between. intros x' Hx'.
        apply Hon. left. cbn [fst snd]. split; [reflexivity | lia].
      * apply column_connected. unfold between. intros y' Hy'.
        apply Hon. right. cbn [fst snd]. split; [reflexivity | lia].
  - destruct Hc as [[-> Hy]|[-> Hx]].
    + apply column_connected. unfold between. intros y' Hy'.
      apply Hon. left. cbn [fst snd]. split; [reflexivity | lia].
    + apply (connected_trans _ _ (y2, x1)).
      * apply column_connected. unfold between. intros y' Hy'.
        apply Hon. left. cbn [fst snd]. split; [reflexivity | lia].
      * apply row_connected. unfold between. intros x' Hx'.
        apply Hon. right. cbn [fst snd]. split; [reflexivity | lia].
Qed.

(** After the loop over the regions, every FLOOR cell is a FLOOR cell the
    loop found or is connected to the cell [m0] of the main region. *)
Lemma connect_regions_reach (rng : nat -> Q) (p : params) (st0 st1 : run_state)
    (m0 : cell) :
  shaped (height p) (width p) (st_grid st0) ->
  connect_regions rng p st0 = Some st1 ->
  m0 ∈ largest_region (flood_fill_regions (st_grid st0)) ->
  forall c, c ∈ floor_cells (st_grid st1) ->
    c ∈ floor_cells (st_grid st0) \/ connected (floor_cells (st_grid st1)) m0 c.
Proof.
  intros Hg0 Hrun Hm0. unfold connect_regions in Hrun.
  destruct (flood_fill_regions (st_grid st0)) as [|r0 rs] eqn:Eregs.
  { injection Hrun as <-. auto. }
  rewrite <- Eregs in *.
  set (main := largest_region (flood_fill_regions (st_grid st0))) in *.
  assert (Hmain : main ∈ flood_fill_regions (st_grid st0)).
  { apply largest_region_elem. rewrite Eregs. discriminate. }
  pose (J := fun st : run_state =>
    shaped (height p) (width p) (st_grid st) /\
    (forall c, c ∈ floor_cells (st_grid st0) -> c ∈ floor_cells (st_grid st)) /\
    (forall c, c ∈ floor_cells (st_grid st) ->
       c ∈ floor_cells (st_grid st0) \/
       connected (floor_cells (st_grid st)) m0 c)).
  assert (HJ : J st1).
  { apply (for_each_preserves J _ _ _ _ Hrun); [split; [exact Hg0|]; auto|].
    intros cand st st' Hcand (Hg & Hsub & Hreach) Hit.
    unfold connect_region in Hit.
    destruct (carved p main cand);
      [|injection Hit as <-; split; [exact Hg|]; auto].
    destruct (carve_corridor (st_grid st) main cand (rng (st_draws st)))
      as [g'|] eqn:Hcv; [|discriminate].
    injection Hit as <-. cbn [st_grid].
    assert (Hsm : solid (floor_cells (st_grid st)) main)
      by (apply (solid_mono _ _ _ Hsub), region_solid, Hmain).
    assert (Hsc : solid (floor_cells (st_grid st)) cand)
      by (apply (solid_mono _ _ _ Hsub), region_solid, Hcand).
    destruct (carve_corridor_joins _ _ _ _ _ _ _ Hg Hsm Hsc Hcv)
      as (Hg' & Hsub' & Hconn).
    destruct (carve_corridor_cells (height p) (width p) (st_grid st) main cand
                (rng (st_draws st)) Hg)
      as (g1 & a & b & _ & Ha & Hb & Hcv1 & _ & Hget);
      try (apply Hsm); try (apply Hsc);
      try exact (solid_bounds _ _ _ _ Hg Hsm);
      try exact (solid_bounds _ _ _ _ Hg Hsc).
    rewrite Hcv in Hcv1. injection Hcv1 as <-.
    destruct (solid_bounds _ _ _ _ Hg Hsm a Ha) as [Hay Hax].
    destruct (solid_bounds _ _ _ _ Hg Hsc b Hb) as [Hby Hbx].
    split; [exact Hg'|]. split; [auto|].
    intros c Hc. pose proof Hc as Hc'.
    apply (elem_of_floor_cells _ _ _ _ Hg') in Hc' as (Hy & Hx & Hf).
    destruct (Hget c.1 c.2 Hy Hx) as [_ Hoff].
    rewrite <- surjective_pairing in Hoff.
    destruct (decide (on_corridor (rng (st_draws st)) a b c)) as [Hon|Hnot].
    - right. apply (connected_trans _ _ a).
      + apply Hconn; apply elem_of_app; left; assumption.
      + apply (corridor_reach _ (rng (st_draws st)) a b c); [|exact Hon].
        intros c' Hon'.
        destruct (on_corridor_bounds (height p) (width p) _ a b c'
                    Hay Hax Hby Hbx Hon') as [Hy' Hx'].
        apply (elem_of_floor_cells _ _ _ _ Hg').
        split; [exact Hy'|]. split; [exact Hx'|].
        apply (Hget c'.1 c'.2 Hy' Hx'). rewrite <- surjective_pairing. exact Hon'.
    - assert (Hold : c ∈ floor_cells (st_grid st)).
      { apply (elem_of_floor_cells _ _ _ _ Hg). rewrite <- (Hoff Hnot). auto. }
      destruct (Hreach c Hold) as [?|Hr]; [left; assumption|].
      right. exact (connected_mono _ _ _ _ Hsub' Hr). }
  destruct HJ as (_ & _ & Hreach). exact Hreach.
Qed.

(** With [min_region <= 0] the loop over the regions leaves the FLOOR cells
    connected to each other. *)
Lemma connect_regions_connects (rng : nat -> Q) (p : params)
    (st0 st1 : run_state) :
  sound_state p st0 -> connect_regions rng p st0 = Some st1 ->
  min_region p <= 0 ->
  forall a b, a ∈ floor_cells (st_grid st1) -> b ∈ floor_cells (st_grid st1) ->
    connected (floor_cells (st_grid st1)) a b.
Proof.
  intros Hst0 Hrun Hmin. pose proof Hst0 as [[Hg0 _] _].
  destruct (connect_regions_sound rng p st0 Hst0)
    as (st1' & Hrun' & _ & _ & Hsub & Hjoin).
  rewrite Hrun in Hrun'. injection Hrun' as <-.
  pose proof (floor_cells_nodup (st_grid st0)) as Hnd.
  destruct (decide (flood_fill_regions (st_grid st0) = [])) as [Enil|Hne].
  { (* no region: no FLOOR cell before the loop, and the loop does nothing *)
    unfold connect_regions in Hrun. rewrite Enil in Hrun. injection Hrun as <-.
    intros a b Ha _.
    destruct (feature_of_cell _ Hnd a Ha) as (r & Hr & _).
    unfold flood_fill_regions in Enil. rewrite Enil in Hr.
    apply elem_of_nil in Hr. contradiction. }
  pose proof (largest_region_elem _ Hne) as Hmain.
  set (main := largest_region (flood_fill_regions (st_grid st0))) in *.
  assert (Hm0 : exists m0, m0 ∈ main).
  { destruct main as [|m0 rest] eqn:Emain;
      [exfalso; exact (region_nonempty _ _ Hmain eq_refl)|].
    exists m0. left. }
  destruct Hm0 as [m0 Hm0].
  assert (Hm0cell : m0 ∈ floor_cells (st_grid st1)).
  { apply Hsub. exact (feature_cells _ Hnd main m0 Hmain Hm0). }
  assert (Hall : forall c, c ∈ floor_cells (st_grid st1) ->
            connected (floor_cells (st_grid st1)) m0 c).
  { intros c Hc.
    destruct (connect_regions_reach rng p st0 st1 m0 Hg0 Hrun Hm0 c Hc)
      as [Hold|Hr]; [|exact Hr].
    destruct (feature_of_cell _ Hnd c Hold) as (r & Hr & Hcr).
    destruct (decide (r = main)) as [->|Hdiff].
    - apply (connected_mono _ _ _ _ Hsub).
      exact (feature_mutually_connected _ Hnd main m0 c Hmain Hm0 Hcr).
    - apply (Hjoin r Hr).
      + unfold carved, array_equal.
        rewrite andb_true_iff, negb_true_iff, Z.leb_le, bool_decide_eq_false.
        split; [lia | exact Hdiff].
      + apply elem_of_app. left. exact Hm0.
      + apply elem_of_app. right. exact Hcr. }
  intros a b Ha Hb. apply (connected_trans _ _ m0); [|exact (Hall b Hb)].
  apply connected_sym; [exact Hm0cell | exact (Hall a Ha)].
Qed.

Lemma connected_cells_one_region (g : grid) :
  (forall a b, a ∈ floor_cells g -> b ∈ floor_cells g ->
     connected (floor_cells g) a b) ->
  (length (flood_fill_regions g) <= 1)%nat.
Proof.
  intros Hconn. pose proof (floor_cells_nodup g) as Hnd.
  assert (Hsame : forall (i j : nat) r r',
            flood_fill_regions g !! i = Some r ->
            flood_fill_regions g !! j = Some r' -> i = j).
  { intros i j r r' Hi Hj.
    assert (Hr : r ∈ flood_fill_regions g) by (eapply list_elem_of_lookup_2; eauto).
    assert (Hr' : r' ∈ flood_fill_regions g) by (eapply list_elem_of_lookup_2; eauto).
    destruct r as [|a ra] eqn:Er; [exfalso; exact (region_nonempty _ _ Hr eq_refl)|].
    destruct r' as [|b rb] eqn:Er'; [exfalso; exact (region_nonempty _ _ Hr' eq_refl)|].
    rewrite <- Er, <- Er' in *.
    assert (Ha : a ∈ r) by (rewrite Er; left).
    assert (Hb : b ∈ r') by (rewrite Er'; left).
    assert (Hbr : b ∈ r).
    { apply (feature_absorbs _ Hnd r a b Hr Ha). apply Hconn.
      - exact (feature_cells _ Hnd r a Hr Ha).
      - exact (feature_cells _ Hnd r' b Hr' Hb). }
    assert (Heq : r = r') by exact (feature_unique _ Hnd r r' b Hr Hr' Hbr Hb).
    rewrite <- Heq in Hj.
    exact (NoDup_lookup _ i j r (label_features_nodup _ Hnd) Hi Hj). }
  destruct (flood_fill_regions g) as [|r1 [|r2 l]]; cbn [length]; try lia.
  specialize (Hsame 0%nat 1%nat r1 r2 eq_refl eq_refl). discriminate.
Qed.

(** X19. With [min_region <= 0] the carving loop of [generate_cave]
    connects the whole cave: in the grid it leaves, before any
    micro-smoothing, every two FLOOR cells are joined by a chain of
    adjacent FLOOR cells, and the Region Finder would find at most one
    region. *)
Theorem carving_connects_cave (p : params) (rng : nat -> Q) :
  0 <= width p -> 0 <= height p -> min_region p <= 0 ->
  exists st0 st1,
    automaton_phase p rng = Some st0 /\
    connect_regions rng p st0 = Some st1 /\
    (forall a b, a ∈ floor_cells (st_grid st1) -> b ∈ floor_cells (st_grid st1) ->
       connected (floor_cells (st_grid st1)) a b) /\
    (length (flood_fill_regions (st_grid st1)) <= 1)%nat.
Proof.
  intros Hw Hh Hmin.
  destruct (run_cave_sound p rng Hw Hh)
    as (st0 & st1 & _ & Hrun0 & Hrun1 & _ & Hst0 & _).
  exists st0, st1. split; [exact Hrun0|]. split; [exact Hrun1|].
  pose proof (connect_regions_connects rng p st0 st1 Hst0 Hrun1 Hmin) as Hconn.
  split; [exact Hconn|]. apply connected_cells_one_region. exact Hconn.
Qed.

Lemma carving_connects_cave_witness :
  0 <= width carving_params /\ 0 <= height carving_params /\
  min_region carving_params <= 0 /\
  exists st0 st1,
    automaton_phase carving_params sample_rng = Some st0 /\
    connect_regions sample_rng carving_params st0 = Some st1 /\
    length (flood_fill_regions (st_grid st0)) = 2%nat /\
    (length (flood_fill_regions (st_grid st1)) <= 1)%nat.
Proof.
  split; [cbn; lia|]. split; [cbn; lia|]. split; [cbn; lia|].
  destruct (carving_connects_cave carving_params sample_rng)
    as (st0 & st1 & Hrun0 & Hrun1 & _ & Hone); [cbn; lia | cbn; lia | cbn; lia |].
  exists st0, st1. split; [exact Hrun0|]. split; [exact Hrun1|].
  split; [|exact Hone].
  vm_compute in Hrun0. injection Hrun0 as <-. vm_compute. reflexivity.
Defined.

(** ** Carving between two different regions *)

(** X20. A corridor carved between two different regions of the grid opens
    a wall: some cell that was not FLOOR before the call is FLOOR after
    it.  Otherwise the corridor would have joined the two regions already,
    and they would be one region. *)
Theorem carve_corridor_opens_wall (height width : Z) (g g' : grid)
    (main candidate : region) (u : Q) :
  shaped height width g ->
  main ∈ flood_fill_regions g -> candidate ∈ flood_fill_regions g ->
  main <> candidate ->
  carve_corridor g main candidate u = Some g' ->
  exists y x, 0 <= y < height /\ 0 <= x < width /\
    grid_get g y x <> Some FLOOR /\ grid_get g' y x = Some FLOOR.
Proof.
  intros Hg Hm Hc Hdiff Hrun.
  pose proof (floor_cells_nodup g) as Hnd.
  destruct (carve_corridor_cells height width g main candidate u Hg)
    as (g1 & p & q & _ & Hp & Hq & Hrun1 & _ & Hget).
  - exact (region_nonempty g main Hm).
  - exact (region_nonempty g candidate Hc).
  - intros c Hin. destruct (region_cells _ _ _ _ _ Hg Hm Hin) as (? & ? & _). auto.
  - intros c Hin. destruct (region_cells _ _ _ _ _ Hg Hc Hin) as (? & ? & _). auto.
  - rewrite Hrun in Hrun1. injection Hrun1 as <-.
    destruct (region_cells _ _ _ _ _ Hg Hm Hp) as (Hpy & Hpx & _).
    destruct (region_cells _ _ _ _ _ Hg Hc Hq) as (Hqy & Hqx & _).
    destruct (decide (Forall (fun c => on_corridor u p q c -> c ∈ floor_cells g)
                             (positions g))) as [Hall|Hsome].
    + exfalso. apply Hdiff.
      assert (Hpq : connected (floor_cells g) p q).
      { apply (corridor_connected _ u). intros c Hon.
        rewrite Forall_forall in Hall. apply Hall; [|exact Hon].
        apply (elem_of_positions _ _ _ _ Hg).
        exact (on_corridor_bounds _ _ _ _ _ _ Hpy Hpx Hqy Hqx Hon). }
      apply (feature_unique _ Hnd main candidate q Hm Hc); [|exact Hq].
      exact (feature_absorbs _ Hnd main p q Hm Hp Hpq).
    + apply not_Forall_Exists in Hsome; [|intros c; apply _].
      apply Exists_exists in Hsome as (c & Hc' & Hno). cbn in Hno.
      apply (elem_of_positions _ _ _ _ Hg) in Hc' as [Hy Hx].
      destruct (decide (on_corridor u p q c)) as [Hon|Hoff];
        [|exfalso; apply Hno; intros; contradiction].
      exists c.1, c.2. split; [exact Hy|]. split; [exact Hx|]. split.
      * intros Hfloor. apply Hno. intros _.
        apply (elem_of_floor_cells _ _ _ _ Hg). auto.
      * apply (Hget c.1 c.2 Hy Hx). rewrite <- surjective_pairing. exact Hon.
Qed.

Lemma carve_corridor_opens_wall_witness :
  shaped 5 5 sample_grid /\
  sample_main ∈ flood_fill_regions sample_grid /\
  sample_pocket ∈ flood_fill_regions sample_grid /\
  sample_main <> sample_pocket /\
  exists g' y x,
    carve_corridor sample_grid sample_main sample_pocket (1 # 4) = Some g' /\
    grid_get sample_grid y x <> Some FLOOR /\ grid_get g' y x = Some FLOOR.
Proof.
  assert (E : flood_fill_regions sample_grid = [sample_main; sample_pocket])
    by (vm_compute; reflexivity).
  assert (Hm : sample_main ∈ flood_fill_regions sample_grid)
    by (rewrite E; left).
  assert (Hc : sample_pocket ∈ flood_fill_regions sample_grid)
    by (rewrite E; right; left).
  assert (Hrun : carve_corridor sample_grid sample_main sample_pocket (1 # 4) =
                 Some [[1; 1; 1; 1; 1]; [1; 0; 0; 1; 1]; [1; 0; 1; 0; 1];
                       [1; 0; 1; 1; 1]; [1; 1; 1; 1; 1]])
    by (vm_compute; reflexivity).
  split; [exact sample_grid_shaped|]. split; [exact Hm|]. split; [exact Hc|].
  split; [discriminate|].
  destruct (carve_corridor_opens_wall 5 5 sample_grid
              [[1; 1; 1; 1; 1]; [1; 0; 0; 1; 1]; [1; 0; 1; 0; 1];
               [1; 0; 1; 1; 1]; [1; 1; 1; 1; 1]]
              sample_main sample_pocket
              (1 # 4) sample_grid_shaped Hm Hc) as (y & x & _ & _ & Hold & Hnew);
    [discriminate | exact Hrun |].
  eexists; exists y, x. split; [exact Hrun|]. split; [exact Hold | exact Hnew].
Defined.
